(** * Lumin for React Native: the activity-cadence tracker

    A shallow embedding of the [Lumin] class (the newest revision of
    [index.tsx], the one with namespaced storage keys) together with the
    part of the JavaScript run time it relies on: promises and the
    microtask queue, [AsyncStorage], [fetch], the [AppState] signal and the
    few [date-fns] functions the class imports.

    Conventions.
    - An instant is the time value of a JS [Date]: milliseconds since the
      epoch, an integer [Z].
    - A JS string is a [string]; a character stands for one code unit of the
      Latin-1 range.
    - [number] fields of the configuration are integers (seconds).
    - The local time zone is a fixed offset from UTC. *)

From stdpp Require Import gmap strings list.
From Stdlib Require Import ZArith Lia.

Local Open Scope Z_scope.
Set Warnings "-register-all".

(** ** Strings: [trim] and [split] *)

Module JsString.

(** White space and line terminators of the Latin-1 range, the characters
    [String.prototype.trim] strips. *)
Definition is_white (c : Ascii.ascii) : bool :=
  let n := Ascii.nat_of_ascii c in
  ((9 <=? n)%nat && (n <=? 13)%nat) || (n =? 32)%nat || (n =? 160)%nat.

Fixpoint trimStart (s : string) : string :=
  match s with
  | String c r => if is_white c then trimStart r else s
  | EmptyString => EmptyString
  end.

(** Drops trailing white space: a white character is kept only when
    something that is kept follows it. *)
Fixpoint trimEnd (s : string) : string :=
  match s with
  | String c r =>
      match trimEnd r with
      | EmptyString => if is_white c then EmptyString else String c EmptyString
      | r' => String c r'
      end
  | EmptyString => EmptyString
  end.

Definition trim (s : string) : string := trimEnd (trimStart s).

(** [s.split(sep)] for a one-character separator: cuts at every occurrence
    and always returns at least one field. *)
Fixpoint split (sep : Ascii.ascii) (s : string) : list string :=
  match s with
  | EmptyString => [EmptyString]
  | String c r =>
      if Ascii.eqb c sep then EmptyString :: split sep r
      else
        match split sep r with
        | f :: fs => String c f :: fs
        | [] => [String c EmptyString]
        end
  end.

(** A string is truthy when it is not empty. *)
Definition nonempty (s : string) : bool :=
  match s with EmptyString => false | _ => true end.

End JsString.

(** ** Configuration *)

Record TrackingIntervals := {
  dailyActiveUser : option Z;
  weeklyActiveUser : option Z;
  monthlyActiveUser : option Z;
  yearlyActiveUser : option Z;
}.

(** [LuminConfig]: every field is optional. *)
Record LuminConfig := {
  environment : option string;
  automaticallyTrackActiveUsers : option bool;
  trackingIntervals : option TrackingIntervals;
  url : option string;
  logResponse : option bool;
  logError : option bool;
}.

Definition emptyConfig : LuminConfig :=
  {| environment := None; automaticallyTrackActiveUsers := None;
     trackingIntervals := None; url := None;
     logResponse := None; logError := None |}.

Definition defaultConfig : LuminConfig :=
  {| environment := Some "default";
     automaticallyTrackActiveUsers := Some true;
     trackingIntervals := None;
     url := Some "https://app.uselumin.co";
     logResponse := Some false;
     logError := Some true |}.

(** One property of [{ ...a, ...b }]: the one of [b] when it is there. *)
Definition spread1 {A} (a b : option A) : option A :=
  match b with Some x => Some x | None => a end.

(** [{ ...defaultConfig, ...config }], a shallow merge. *)
Definition mergeConfig (d c : LuminConfig) : LuminConfig :=
  {| environment := spread1 (environment d) (environment c);
     automaticallyTrackActiveUsers :=
       spread1 (automaticallyTrackActiveUsers d) (automaticallyTrackActiveUsers c);
     trackingIntervals := spread1 (trackingIntervals d) (trackingIntervals c);
     url := spread1 (url d) (url c);
     logResponse := spread1 (logResponse d) (logResponse c);
     logError := spread1 (logError d) (logError c) |}.

(** Truthiness of an optional boolean and of an optional number. *)
Definition truthyB (b : option bool) : bool := default false b.

Definition truthyN (n : option Z) : bool :=
  match n with Some z => negb (z =? 0) | None => false end.

(** ** The four cadences *)

Inductive period := Daily | Weekly | Monthly | Yearly.

#[global] Instance period_eq_dec : EqDecision period.
Proof. solve_decision. Defined.

Definition allPeriods : list period := [Daily; Weekly; Monthly; Yearly].

Definition eventName (p : period) : string :=
  match p with
  | Daily => "DAILY_ACTIVE_USER"
  | Weekly => "WEEKLY_ACTIVE_USER"
  | Monthly => "MONTHLY_ACTIVE_USER"
  | Yearly => "YEARLY_ACTIVE_USER"
  end.

(** [this.config.trackingIntervals?.<period>ActiveUser] *)
Definition intervalOf (c : LuminConfig) (p : period) : option Z :=
  match trackingIntervals c with
  | None => None
  | Some ti =>
      match p with
      | Daily => dailyActiveUser ti
      | Weekly => weeklyActiveUser ti
      | Monthly => monthlyActiveUser ti
      | Yearly => yearlyActiveUser ti
      end
  end.

(** ** date-fns *)

Module DateFns.

Definition msPerDay : Z := 86400000.

(** Days since 1970-01-01 to a civil date (year, month 1..12, day 1..31) of
    the proleptic Gregorian calendar, and back. *)
Definition civil_from_days (z0 : Z) : Z * Z * Z :=
  let z := z0 + 719468 in
  let era := z / 146097 in
  let doe := z - era * 146097 in
  let yoe := (doe - doe / 1460 + doe / 36524 - doe / 146096) / 365 in
  let y := yoe + era * 400 in
  let doy := doe - (365 * yoe + yoe / 4 - yoe / 100) in
  let mp := (5 * doy + 2) / 153 in
  let d := doy - (153 * mp + 2) / 5 + 1 in
  let m := if mp <? 10 then mp + 3 else mp - 9 in
  (if m <=? 2 then y + 1 else y, m, d).

Definition days_from_civil (y0 m d : Z) : Z :=
  let y := if m <=? 2 then y0 - 1 else y0 in
  let era := y / 400 in
  let yoe := y - era * 400 in
  let doy := (153 * (if 2 <? m then m - 3 else m + 9) + 2) / 5 + d - 1 in
  let doe := yoe * 365 + yoe / 4 - yoe / 100 + doy in
  era * 146097 + doe - 719468.

Section Local.
(** Offset of local time from UTC, in milliseconds. *)
Variable tz : Z.

(** The local day an instant falls on, counted from 1970-01-01. *)
Definition localDay (t : Z) : Z := (t + tz) / msPerDay.

(** Local midnight opening local day [d]. *)
Definition midnight (d : Z) : Z := d * msPerDay - tz.

(** [Date.prototype.getDay]: 0 is Sunday; 1970-01-01 was a Thursday. *)
Definition getDay (t : Z) : Z := (localDay t + 4) mod 7.

Definition startOfDay (t : Z) : Z := midnight (localDay t).

(** [startOfWeek(date, { weekStartsOn })] *)
Definition startOfWeekOn (weekStartsOn : Z) (t : Z) : Z :=
  let day := getDay t in
  let diff := (if day <? weekStartsOn then 7 else 0) + day - weekStartsOn in
  midnight (localDay t - diff).

(** [startOfWeek(date)]: the class passes no options and sets no default
    options, so [weekStartsOn] is the library's default, 0 (Sunday). *)
Definition startOfWeek (t : Z) : Z := startOfWeekOn 0 t.

Definition startOfMonth (t : Z) : Z :=
  let '(y, m, _) := civil_from_days (localDay t) in
  midnight (days_from_civil y m 1).

Definition startOfYear (t : Z) : Z :=
  let '(y, _, _) := civil_from_days (localDay t) in
  midnight (days_from_civil y 1 1).
End Local.

(** [differenceInSeconds(l, r)]: the difference in milliseconds over 1000,
    rounded towards zero. *)
Definition differenceInSeconds (l r : Z) : Z := Z.quot (l - r) 1000.

(** [isBefore(date, dateToCompare)] *)
Definition isBefore (d c : Z) : bool := d <? c.

End DateFns.

(** ** The host: platform constants and the [Date] string format *)

(** [Date.prototype.toString] prints an instant to the second, never as the
    empty string, and [new Date(s)] reads such a string back; [dateParse]
    answers [None] for an Invalid Date, which [new Date('')] is. *)
Class Host := {
  tzOffset : Z;
  Platform_OS : string;
  Platform_Version : string;
  dateToString : Z -> string;
  dateParse : string -> option Z;
  dateToString_nonempty : forall t, dateToString t <> EmptyString;
  dateParse_empty : dateParse EmptyString = None;
  dateParse_toString : forall t, dateParse (dateToString t) = Some (1000 * (t / 1000));
}.

(** ** Values, requests and the instance *)

Inductive AppStateStatus := active | background | inactive | unknown | extension.

#[global] Instance AppStateStatus_eq_dec : EqDecision AppStateStatus.
Proof. solve_decision. Defined.

(** [status.match(/inactive|background/)] *)
Definition matchInactiveBackground (a : AppStateStatus) : bool :=
  match a with inactive | background => true | _ => false end.

Inductive val :=
| VUndefined
| VNull
| VBool (b : bool)
| VNum (n : Z)
| VNaN
| VStr (s : string)
| VObj (fields : list (string * val))
| VError (msg : string)
| VAppState (a : AppStateStatus).

Definition truthy (v : val) : bool :=
  match v with
  | VUndefined | VNull | VNaN => false
  | VBool b => b
  | VNum n => negb (n =? 0)
  | VStr s => JsString.nonempty s
  | VObj _ | VError _ | VAppState _ => true
  end.

(** Object literals: setting a property keeps the place of an existing
    one; [{ ...a, ...b }] sets the properties of [b] in order. *)
Fixpoint obj_set (k : string) (v : val) (o : list (string * val))
  : list (string * val) :=
  match o with
  | [] => [(k, v)]
  | (k', v') :: r => if String.eqb k k' then (k, v) :: r else (k', v') :: obj_set k v r
  end.

Definition obj_spread (a b : list (string * val)) : list (string * val) :=
  foldl (fun o kv => obj_set kv.1 kv.2 o) a b.

Fixpoint obj_get (k : string) (o : list (string * val)) : option val :=
  match o with
  | [] => None
  | (k', v) :: r => if String.eqb k k' then Some v else obj_get k r
  end.

Record Info := {
  platform : string;
  platformVersion : string;
  luminVersion : string;
}.

Record AsyncStorageKeys := {
  firstOpenTime : string;
  endOfLastSession : string;
  lastDauTracked : string;
  lastWauTracked : string;
  lastMauTracked : string;
  lastYauTracked : string;
}.

(** The fields of a [Lumin] object; [this_appState] and
    [this_sessionStartTime] are the values the constructor gives to the two
    fields that change later. *)
Record Lumin := {
  this_id : string;
  this_token : string;
  this_config : LuminConfig;
  this_appState : AppStateStatus;
  this_sessionStartTime : Z;
  this_info : Info;
  this_asyncStorageKeys : AsyncStorageKeys;
}.

Definition keysFor (appId : string) : AsyncStorageKeys :=
  {| firstOpenTime := "lumin_" +:+ appId +:+ "_first_open_time";
     endOfLastSession := "lumin_" +:+ appId +:+ "_end_of_last_session";
     lastDauTracked := "lumin_" +:+ appId +:+ "_last_dau_tracked";
     lastWauTracked := "lumin_" +:+ appId +:+ "_last_wau_tracked";
     lastMauTracked := "lumin_" +:+ appId +:+ "_last_mau_tracked";
     lastYauTracked := "lumin_" +:+ appId +:+ "_last_yau_tracked" |}.

Definition allKeys (k : AsyncStorageKeys) : list string :=
  [firstOpenTime k; endOfLastSession k; lastDauTracked k;
   lastWauTracked k; lastMauTracked k; lastYauTracked k].

Definition colon : Ascii.ascii := Ascii.ascii_of_nat 58.

(** An absent array element ([undefined]) and the empty string are falsy. *)
Definition falsyField (f : option string) : bool :=
  match f with Some s => negb (JsString.nonempty s) | None => true end.

Inductive ConstructorError := TokenMalformed.

(** [new Lumin(token, config)]. [currentState] is [AppState.currentState]
    and [now] is [new Date()] at the time of the call. *)
Definition constructor `{Host} (token : string) (config : LuminConfig)
    (currentState : AppStateStatus) (now : Z) : ConstructorError + Lumin :=
  let parts := JsString.split colon (JsString.trim token) in
  let appId := parts !! 0%nat in
  let appToken := parts !! 1%nat in
  if falsyField appId || falsyField appToken then inl TokenMalformed
  else
    inr {| this_asyncStorageKeys := keysFor (default EmptyString appId);
           this_id := default EmptyString appId;
           this_token := default EmptyString appToken;
           this_config := mergeConfig defaultConfig config;
           this_appState := currentState;
           this_sessionStartTime := now;
           this_info := {| platform := Platform_OS;
                           platformVersion := Platform_Version;
                           luminVersion := "0.4.2" |} |}.

(** The object handed to [JSON.stringify] in [track]. *)
Record EventRecord := {
  ev_type : string;
  ev_data : list (string * val);
  ev_environment : option string;
  ev_appToken : string;
}.

Record FetchRequest := {
  req_url : string;
  req_method : string;
  req_contentType : string;
  req_body : EventRecord;
}.

(** What the class asks of its collaborators. *)
Inductive request :=
| RqGetItem (key : string)
| RqSetItem (key value : string)
| RqRemoveItem (key : string)
| RqFetch (r : FetchRequest)
| RqJson (res : val).

(** ** Promises and synchronous code *)

Definition pid := nat.

(** The callbacks and [await] continuations of the class, one constructor
    per place in the source. *)
Inductive kont :=
| KListener          (* the AppState 'change' listener of init *)
| KStartSession      (* startSession, after its await *)
| KFirstOpen         (* setFirstOpenTime, the callback on getItem *)
| KCadence (p : period)   (* track<Period>ActiveUser, after its await *)
| KMark (p : period)      (* the callback on track(...) that writes the marker *)
| KFetchThen         (* track: (res) => { res.json().then(...) } *)
| KJsonThen          (* track: (json) => { if logResponse ... } *)
| KFetchCatch        (* track: (err) => { ...; throw err } *)
| KClearDone.        (* clearLuminItemsFromAsyncStorage, after its await *)

(** A run of synchronous code, in continuation-passing style. An [Await]
    ends the run of an async function: what follows is its [kont]. *)
Inductive code :=
| Return (v : val)
| Throw (e : val)
| NewDate (k : Z -> code)
| ReadAppState (k : AppStateStatus -> code)
| WriteAppState (a : AppStateStatus) (k : code)
| ReadSessionStartTime (k : Z -> code)
| WriteSessionStartTime (t : Z) (k : code)
| Issue (rq : request) (k : pid -> code)
| Then (p : pid) (onFulfilled onRejected : option kont) (k : pid -> code)
| PromiseAll (ps : list pid) (k : pid -> code)
| Await (p : pid) (k : kont)
| Async (body : code) (k : pid -> code)
| ConsoleLog (v : val) (k : code)
| AddEventListener (h : kont) (k : code).

Inductive settled := Fulfilled (v : val) | Rejected (e : val).

Inductive reaction :=
| RThen (onFulfilled onRejected : option kont) (derived : pid)
| RAwait (k : kont) (frame : pid)
| RAll (all : pid).

(** A pending promise holds its reactions; the promise of [Promise.all]
    also counts the inputs it still waits for. *)
Inductive pstate :=
| Pending (remaining : nat) (rs : list reaction)
| Settled (o : settled).

Inductive action :=
| Issued (p : pid) (rq : request)
| Completed (p : pid) (o : settled)
| Logged (v : val).

Record state := {
  store : gmap string string;
  clock : Z;
  promises : list pstate;
  pending : list (pid * request);
  jobs : list (reaction * settled);
  trace : list action;
  listeners : list kont;
  cur_appState : AppStateStatus;
  cur_sessionStartTime : Z;
}.

(** ** The store *)

Module AsyncStorage.
Definition getItem (key : string) (m : gmap string string) : option string :=
  m !! key.
Definition setItem (key value : string) (m : gmap string string)
  : gmap string string := <[key := value]> m.
Definition removeItem (key : string) (m : gmap string string)
  : gmap string string := delete key m.

Lemma getItem_setItem key value m : getItem key (setItem key value m) = Some value.
Proof. apply lookup_insert_eq. Qed.

Lemma getItem_empty key : getItem key ∅ = None.
Proof. apply lookup_empty. Qed.
End AsyncStorage.

(** ** The machine: promise table, microtask queue, outstanding requests *)

Module Machine.

Definition with_promises (ps' : list pstate) (s : state) : state :=
  let '(Build_state m t ps pd js tr ls a st) := s in
  {| store := m;
     clock := t;
     promises := ps';
     pending := pd;
     jobs := js;
     trace := tr;
     listeners := ls;
     cur_appState := a;
     cur_sessionStartTime := st  |}.

Definition with_jobs (js' : list (reaction * settled)) (s : state) : state :=
  let '(Build_state m t ps pd js tr ls a st) := s in
  {| store := m;
     clock := t;
     promises := ps;
     pending := pd;
     jobs := js';
     trace := tr;
     listeners := ls;
     cur_appState := a;
     cur_sessionStartTime := st  |}.

Definition with_pending (pd' : list (pid * request)) (s : state) : state :=
  let '(Build_state m t ps pd js tr ls a st) := s in
  {| store := m;
     clock := t;
     promises := ps;
     pending := pd';
     jobs := js;
     trace := tr;
     listeners := ls;
     cur_appState := a;
     cur_sessionStartTime := st  |}.

Definition with_store (m' : gmap string string) (s : state) : state :=
  let '(Build_state m t ps pd js tr ls a st) := s in
  {| store := m';
     clock := t;
     promises := ps;
     pending := pd;
     jobs := js;
     trace := tr;
     listeners := ls;
     cur_appState := a;
     cur_sessionStartTime := st  |}.

Definition with_clock (t' : Z) (s : state) : state :=
  let '(Build_state m t ps pd js tr ls a st) := s in
  {| store := m;
     clock := t';
     promises := ps;
     pending := pd;
     jobs := js;
     trace := tr;
     listeners := ls;
     cur_appState := a;
     cur_sessionStartTime := st  |}.

Definition with_listeners (ls' : list kont) (s : state) : state :=
  let '(Build_state m t ps pd js tr ls a st) := s in
  {| store := m;
     clock := t;
     promises := ps;
     pending := pd;
     jobs := js;
     trace := tr;
     listeners := ls';
     cur_appState := a;
     cur_sessionStartTime := st  |}.

Definition with_appState (a' : AppStateStatus) (s : state) : state :=
  let '(Build_state m t ps pd js tr ls a st) := s in
  {| store := m;
     clock := t;
     promises := ps;
     pending := pd;
     jobs := js;
     trace := tr;
     listeners := ls;
     cur_appState := a';
     cur_sessionStartTime := st  |}.

Definition with_sessionStartTime (st' : Z) (s : state) : state :=
  let '(Build_state m t ps pd js tr ls a st) := s in
  {| store := m;
     clock := t;
     promises := ps;
     pending := pd;
     jobs := js;
     trace := tr;
     listeners := ls;
     cur_appState := a;
     cur_sessionStartTime := st'  |}.

Definition record (x : action) (s : state) : state :=
  let '(Build_state m t ps pd js tr ls a st) := s in
  {| store := m;
     clock := t;
     promises := ps;
     pending := pd;
     jobs := js;
     trace := tr ++ [x];
     listeners := ls;
     cur_appState := a;
     cur_sessionStartTime := st  |}.

(** The identifier the next promise gets. *)
Definition fresh (s : state) : pid := length (promises s).

Definition alloc (remaining : nat) (s : state) : state :=
  with_promises (promises s ++ [Pending remaining []]) s.

(** Settling a pending promise queues one job per reaction; a settled
    promise stays as it is. *)
Definition settle (p : pid) (o : settled) (s : state) : state :=
  match promises s !! p with
  | Some (Pending _ rs) =>
      with_jobs (jobs s ++ map (fun r => (r, o)) rs)
        (with_promises (<[p := Settled o]> (promises s)) s)
  | _ => s
  end.

(** [p.then(...)], [await p]: a reaction on a pending promise waits, one on
    a settled promise is queued at once. *)
Definition subscribe (p : pid) (r : reaction) (s : state) : state :=
  match promises s !! p with
  | Some (Pending n rs) =>
      with_promises (<[p := Pending n (rs ++ [r])]> (promises s)) s
  | Some (Settled o) => with_jobs (jobs s ++ [(r, o)]) s
  | None => s
  end.

(** One input of [Promise.all] was fulfilled. *)
Definition countdown (d : pid) (s : state) : state :=
  match promises s !! d with
  | Some (Pending (S n) rs) =>
      match n with
      | O => settle d (Fulfilled VUndefined) s
      | _ => with_promises (<[d := Pending n rs]> (promises s)) s
      end
  | _ => s
  end.

(** A call to a collaborator: it returns a fresh pending promise, and the
    request stays outstanding until the host completes it. *)
Definition issue (rq : request) (s : state) : state :=
  let p := fresh s in
  record (Issued p rq) (with_pending (pending s ++ [(p, rq)]) (alloc 0 s)).

(** Runs synchronous code; [fr] is the promise its completion settles.
    The state is taken apart once, before the instruction looks at it. *)
Fixpoint exec (c : code) (fr : pid) (s0 : state) : state :=
  let '(Build_state m t ps pd js tr ls a st) := s0 in
  let s := Build_state m t ps pd js tr ls a st in
  match c with
  | Return v => settle fr (Fulfilled v) s
  | Throw e => settle fr (Rejected e) s
  | NewDate k => exec (k (clock s)) fr s
  | ReadAppState k => exec (k (cur_appState s)) fr s
  | WriteAppState a' k => exec k fr (with_appState a' s)
  | ReadSessionStartTime k => exec (k (cur_sessionStartTime s)) fr s
  | WriteSessionStartTime t' k => exec k fr (with_sessionStartTime t' s)
  | Issue rq k => exec (k (fresh s)) fr (issue rq s)
  | Then p f g k => exec (k (fresh s)) fr (subscribe p (RThen f g (fresh s)) (alloc 0 s))
  | PromiseAll l k =>
      let d := fresh s in
      let s1 := foldl (fun s' p => subscribe p (RAll d) s') (alloc (length l) s) l in
      exec (k d) fr
        (match l with [] => settle d (Fulfilled VUndefined) s1 | _ => s1 end)
  | Await p k => subscribe p (RAwait k fr) s
  | Async body k => exec (k (fresh s)) fr (exec body (fresh s) (alloc 0 s))
  | ConsoleLog v k => exec k fr (record (Logged v) s)
  | AddEventListener h k => exec k fr (with_listeners (listeners s ++ [h]) s)
  end.

(** A call from the host, with a promise of its own for the completion. *)
Definition call (c : code) (s : state) : state := exec c (fresh s) (alloc 0 s).

End Machine.

(** ** The class *)

Section Class.
Context `{Host}.
Variable this : Lumin.

Let config := this_config this.
Let keys := this_asyncStorageKeys this.

Definition GetItem (key : string) := Issue (RqGetItem key).
Definition SetItem (key value : string) := Issue (RqSetItem key value).
Definition RemoveItem (key : string) := Issue (RqRemoveItem key).
Definition Fetch (r : FetchRequest) := Issue (RqFetch r).
Definition ResJson (res : val) := Issue (RqJson res).

(** The end of a function body or of a callback with no [return]. *)
Definition Done : code := Return VUndefined.

Definition infoObject : val :=
  VObj [("platform", VStr (platform (this_info this)));
        ("platformVersion", VStr (platformVersion (this_info this)));
        ("luminVersion", VStr (luminVersion (this_info this)))].

Definition eventRecord (event : string) (data : list (string * val)) : EventRecord :=
  {| ev_type := event;
     ev_data := obj_spread [("$info", infoObject)] data;
     ev_environment := environment config;
     ev_appToken := this_token this |}.

Definition eventRequest (event : string) (data : list (string * val)) : FetchRequest :=
  {| req_url := default "undefined" (url config) +:+ "/api/events/create";
     req_method := "POST";
     req_contentType := "application/json";
     req_body := eventRecord event data |}.

(** The body of [async track(event, data)]. The chain
    [fetch(...).then(...).catch(...)] is neither awaited nor returned. *)
Definition track (event : string) (data : list (string * val)) : code :=
  Fetch (eventRequest event data) (fun p1 =>
  Then p1 (Some KFetchThen) None (fun p2 =>
  Then p2 None (Some KFetchCatch) (fun _ =>
  Done))).

Definition onFetchThen (res : val) : code :=
  ResJson res (fun p => Then p (Some KJsonThen) None (fun _ => Done)).

Definition onJsonThen (json : val) : code :=
  if truthyB (logResponse config) then ConsoleLog json Done else Done.

Definition onFetchCatch (err : val) : code :=
  if truthyB (logError config) then ConsoleLog err (Throw err) else Throw err.

(** The body of [async trackCustomEvent(event, data)]. *)
Definition trackCustomEvent (event : string) (data : list (string * val)) : code :=
  Async (track event (obj_spread [("$custom", VBool true)] data)) (fun _ => Done).

(** The body of [async startSession()], up to its [await]. *)
Definition startSession : code :=
  NewDate (fun now =>
  WriteSessionStartTime now (
  GetItem (endOfLastSession keys) (fun p =>
  Await p KStartSession))).

(** [differenceInSeconds(now, new Date(s))] as a JS number. *)
Definition secondsSince (now : Z) (s : string) : val :=
  match dateParse s with
  | Some t => VNum (DateFns.differenceInSeconds now t)
  | None => VNaN
  end.

Definition afterStartSession (lastSessionEndTime : val) : code :=
  let send diff :=
    Async (track "SESSION_START" [("timeSinceLastSession", diff)]) (fun _ => Done) in
  match lastSessionEndTime with
  | VStr s =>
      if JsString.nonempty s then NewDate (fun now => send (secondsSince now s))
      else send VNull
  | _ => send VNull
  end.

(** [endSession()], then [k]. *)
Definition endSession (k : code) : code :=
  NewDate (fun now =>
  ReadSessionStartTime (fun start =>
  Async (track "SESSION_END"
           [("duration", VNum (DateFns.differenceInSeconds now start))]) (fun _ =>
  NewDate (fun now' =>
  SetItem (endOfLastSession keys) (dateToString now') (fun _ =>
  k))))).

(** [setFirstOpenTime()], then [k]. *)
Definition setFirstOpenTime (k : code) : code :=
  GetItem (firstOpenTime keys) (fun p =>
  Then p (Some KFirstOpen) None (fun _ =>
  k)).

Definition onFirstOpenTime (v : val) : code :=
  if truthy v then Done
  else
    NewDate (fun now =>
    SetItem (firstOpenTime keys) (dateToString now) (fun _ =>
    Async (track "FIRST_OPEN" []) (fun _ =>
    Done))).

Definition markerKey (p : period) : string :=
  match p with
  | Daily => lastDauTracked keys
  | Weekly => lastWauTracked keys
  | Monthly => lastMauTracked keys
  | Yearly => lastYauTracked keys
  end.

(** The calendar boundary each of the four methods compares with:
    [startOfToday()], [startOfWeek(new Date())], [startOfMonth(new Date())],
    [startOfYear(new Date())]. *)
Definition boundary (p : period) (now : Z) : Z :=
  match p with
  | Daily => DateFns.startOfDay tzOffset now
  | Weekly => DateFns.startOfWeek tzOffset now
  | Monthly => DateFns.startOfMonth tzOffset now
  | Yearly => DateFns.startOfYear tzOffset now
  end.

(** [timeCondition] of the four methods; a comparison with an Invalid
    Date is false. *)
Definition timeCondition (p : period) (now : Z) (last : string) : bool :=
  match dateParse last with
  | None => false
  | Some t =>
      if truthyN (intervalOf config p)
      then default 0 (intervalOf config p) <? DateFns.differenceInSeconds now t
      else DateFns.isBefore t (boundary p now)
  end.

(** [this.track(EVENT).then(() => { AsyncStorage.setItem(marker, ...) })] *)
Definition trackThenMark (p : period) : code :=
  Async (track (eventName p) []) (fun q =>
  Then q (Some (KMark p)) None (fun _ =>
  Done)).

Definition onTracked (p : period) : code :=
  NewDate (fun now =>
  SetItem (markerKey p) (dateToString now) (fun _ =>
  Done)).

(** The body of [async track<Period>ActiveUser()], up to its [await]; the
    four methods differ in the key, the interval, the boundary and the
    event only. *)
Definition trackPeriodActiveUser (p : period) : code :=
  GetItem (markerKey p) (fun r => Await r (KCadence p)).

Definition afterCadenceRead (p : period) (lastTimeActive : val) : code :=
  match lastTimeActive with
  | VStr s =>
      if JsString.nonempty s then
        NewDate (fun now =>
        if timeCondition p now s then trackThenMark p else Done)
      else trackThenMark p
  | _ => trackThenMark p
  end.

Definition trackDailyActiveUser := trackPeriodActiveUser Daily.
Definition trackWeeklyActiveUser := trackPeriodActiveUser Weekly.
Definition trackMonthlyActiveUser := trackPeriodActiveUser Monthly.
Definition trackYearlyActiveUser := trackPeriodActiveUser Yearly.

(** [trackActiveUser()], then [k]. *)
Definition trackActiveUser (k : code) : code :=
  Async trackDailyActiveUser (fun _ =>
  Async trackWeeklyActiveUser (fun _ =>
  Async trackMonthlyActiveUser (fun _ =>
  Async trackYearlyActiveUser (fun _ =>
  k)))).

(** The body of [async clearLuminItemsFromAsyncStorage()]. *)
Definition clearLuminItemsFromAsyncStorage : code :=
  RemoveItem (firstOpenTime keys) (fun p1 =>
  RemoveItem (endOfLastSession keys) (fun p2 =>
  RemoveItem (lastDauTracked keys) (fun p3 =>
  RemoveItem (lastWauTracked keys) (fun p4 =>
  RemoveItem (lastMauTracked keys) (fun p5 =>
  RemoveItem (lastYauTracked keys) (fun p6 =>
  PromiseAll [p1; p2; p3; p4; p5; p6] (fun all =>
  Await all KClearDone))))))).

(** The body of the [async (nextAppState) => ...] listener. *)
Definition onAppStateChange (nextAppState : AppStateStatus) : code :=
  ReadAppState (fun a1 =>
  (if matchInactiveBackground a1 && bool_decide (nextAppState = active)
   then fun k =>
     (if truthyB (automaticallyTrackActiveUsers config)
      then trackActiveUser else fun k' => k')
       (Async startSession (fun _ => k))
   else fun k => k)
  (ReadAppState (fun a2 =>
  (if bool_decide (a2 = active) && matchInactiveBackground nextAppState
   then endSession else fun k => k)
  (WriteAppState nextAppState Done)))).

(** [init()] *)
Definition init : code :=
  AddEventListener KListener (
  setFirstOpenTime (
  (if truthyB (automaticallyTrackActiveUsers config)
   then trackActiveUser else fun k => k) (
  Async startSession (fun _ =>
  Done)))).

(** The code behind each continuation. *)
Definition handler (k : kont) (v : val) : code :=
  match k with
  | KListener =>
      match v with VAppState a => onAppStateChange a | _ => Done end
  | KStartSession => afterStartSession v
  | KFirstOpen => onFirstOpenTime v
  | KCadence p => afterCadenceRead p v
  | KMark p => onTracked p
  | KFetchThen => onFetchThen v
  | KJsonThen => onJsonThen v
  | KFetchCatch => onFetchCatch v
  | KClearDone => Done
  end.
End Class.

(** ** The event loop *)

(** How a request completes. [AsyncStorage] carries the request out on the
    store, or fails with an error and leaves the store as it is; the
    network settles [fetch] and [res.json()] either way, with a response or
    parsed body, or with an error. *)
Inductive answer := FromStore | StoreFails (e : val) | FromNetwork (r : settled).

Inductive input :=
| IJob                                   (* the oldest microtask runs *)
| IComplete (p : pid) (a : answer)       (* request [p] completes *)
| ITick (ms : N)                         (* time passes *)
| IAppState (next : AppStateStatus)      (* the AppState 'change' signal *)
| ICall (c : code).                      (* the application calls a method *)

Section Loop.
Context `{Host}.
Variable this : Lumin.

Import Machine.

Definition run_job (j : reaction * settled) (s : state) : state :=
  match j with
  | (RThen (Some k) _ d, Fulfilled v) => exec (handler this k v) d s
  | (RThen None _ d, Fulfilled v) => settle d (Fulfilled v) s
  | (RThen _ (Some k) d, Rejected e) => exec (handler this k e) d s
  | (RThen _ None d, Rejected e) => settle d (Rejected e) s
  | (RAwait k fr, Fulfilled v) => exec (handler this k v) fr s
  | (RAwait _ fr, Rejected e) => settle fr (Rejected e) s
  | (RAll d, Fulfilled _) => countdown d s
  | (RAll d, Rejected e) => settle d (Rejected e) s
  end.

Fixpoint take_request (p : pid) (pd : list (pid * request))
  : option (request * list (pid * request)) :=
  match pd with
  | [] => None
  | (q, rq) :: r =>
      if Nat.eqb p q then Some (rq, r)
      else
        match take_request p r with
        | Some (rq', r') => Some (rq', (q, rq) :: r')
        | None => None
        end
  end.

(** The effect of a completed request on the store and the value its
    promise settles with. [getItem] answers [null] for a missing key; a
    request the store fails rejects its promise. *)
Definition perform (rq : request) (a : answer) (s : state)
  : option (state * settled) :=
  match rq, a with
  | RqGetItem key, FromStore =>
      Some (s, Fulfilled (match AsyncStorage.getItem key (store s) with
                          | Some v => VStr v
                          | None => VNull
                          end))
  | RqSetItem key v, FromStore =>
      Some (with_store (AsyncStorage.setItem key v (store s)) s, Fulfilled VNull)
  | RqRemoveItem key, FromStore =>
      Some (with_store (AsyncStorage.removeItem key (store s)) s, Fulfilled VNull)
  | (RqGetItem _ | RqSetItem _ _ | RqRemoveItem _), StoreFails e =>
      Some (s, Rejected e)
  | RqFetch _, FromNetwork r => Some (s, r)
  | RqJson _, FromNetwork r => Some (s, r)
  | _, _ => None
  end.

Definition complete (p : pid) (a : answer) (s : state) : option state :=
  match take_request p (pending s) with
  | None => None
  | Some (rq, rest) =>
      match perform rq a (with_pending rest s) with
      | None => None
      | Some (s1, r) => Some (settle p r (record (Completed p r) s1))
      end
  end.

(** The listeners are async functions: each call gets a promise. *)
Definition signal (next : AppStateStatus) (s : state) : state :=
  foldl (fun s' h => call (handler this h (VAppState next)) s') s (listeners s).

(** One step. Microtasks run before the host delivers anything else. *)
Definition step (i : input) (s : state) : option state :=
  match i, jobs s with
  | IJob, j :: js => Some (run_job j (with_jobs js s))
  | IJob, [] => None
  | IComplete p a, [] => complete p a s
  | ITick ms, [] => Some (with_clock (clock s + Z.of_N ms) s)
  | IAppState next, [] => Some (signal next s)
  | ICall c, [] => Some (call c s)
  | _, _ :: _ => None
  end.

Fixpoint run (ins : list input) (s : state) : option state :=
  match ins with
  | [] => Some s
  | i :: r => match step i s with Some s' => run r s' | None => None end
  end.

(** Runs microtasks until the queue is empty, at most [fuel] of them. *)
Fixpoint drain (fuel : nat) (s : state) : state :=
  match fuel, jobs s with
  | S n, j :: js => drain n (run_job j (with_jobs js s))
  | _, _ => s
  end.

(** A macrotask: one input, then the microtasks it caused. *)
Definition macro (i : input) (s : state) : option state :=
  drain 8 <$> step i s.

Definition deliver (p : pid) (a : answer) (s : state) : option state :=
  macro (IComplete p a) s.

Fixpoint play (ins : list input) (s : state) : option state :=
  match ins with
  | [] => Some s
  | i :: r => match macro i s with Some s' => play r s' | None => None end
  end.

(** A process that has just been launched on store [m] at instant [t]. *)
Definition boot (m : gmap string string) (t : Z) : state :=
  {| store := m; clock := t; promises := []; pending := []; jobs := [];
     trace := []; listeners := [];
     cur_appState := this_appState this;
     cur_sessionStartTime := this_sessionStartTime this |}.
End Loop.

(** ** Observations *)

Definition fetchOf (a : action) : option FetchRequest :=
  match a with Issued _ (RqFetch r) => Some r | _ => None end.

(** The event types sent so far, in order. *)
Definition emissions (s : state) : list string :=
  omap (fun a => ev_type <$> (req_body <$> fetchOf a)) (trace s).

Definition emitted (event : string) (s : state) : Prop := event ∈ emissions s.

(** The events sent so far, in order. *)
Definition events (s : state) : list EventRecord :=
  omap (fun a => req_body <$> fetchOf a) (trace s).

Lemma emissions_events s : emissions s = ev_type <$> events s.
Proof.
  unfold emissions, events. induction (trace s) as [|a l IH]; [reflexivity|].
  cbn [omap list_omap]. rewrite IH.
  destruct (fetchOf a); reflexivity.
Qed.

Definition isPending (p : pid) (s : state) : bool :=
  match promises s !! p with Some (Pending _ _) => true | _ => false end.

Definition outstanding (p : pid) (s : state) : bool :=
  bool_decide (p ∈ (pending s).*1).

(** ** A host to run examples on

    UTC, and a [Date] string that is the count of whole seconds written in
    binary after a sign. *)

Module ExampleHost.

Definition digit0 : Ascii.ascii := Ascii.ascii_of_nat 48.
Definition digit1 : Ascii.ascii := Ascii.ascii_of_nat 49.
Definition plus : Ascii.ascii := Ascii.ascii_of_nat 43.
Definition minus : Ascii.ascii := Ascii.ascii_of_nat 45.

Fixpoint print_pos (p : positive) : string :=
  match p with
  | xH => EmptyString
  | xO q => String digit0 (print_pos q)
  | xI q => String digit1 (print_pos q)
  end.

Fixpoint read_pos (s : string) : option positive :=
  match s with
  | EmptyString => Some xH
  | String c r =>
      if Ascii.eqb c digit0 then xO <$> read_pos r
      else if Ascii.eqb c digit1 then xI <$> read_pos r
      else None
  end.

Definition print_seconds (n : Z) : string :=
  match n with
  | Z0 => String digit0 EmptyString
  | Zpos p => String plus (print_pos p)
  | Zneg p => String minus (print_pos p)
  end.

Definition read_seconds (s : string) : option Z :=
  match s with
  | EmptyString => None
  | String c r =>
      if Ascii.eqb c digit0 then
        match r with EmptyString => Some 0 | _ => None end
      else if Ascii.eqb c plus then Zpos <$> read_pos r
      else if Ascii.eqb c minus then Zneg <$> read_pos r
      else None
  end.

Lemma read_print_pos p : read_pos (print_pos p) = Some p.
Proof. induction p as [q IH|q IH|]; simpl; [rewrite IH..|]; reflexivity. Qed.

Lemma read_print_seconds n : read_seconds (print_seconds n) = Some n.
Proof. destruct n; simpl; [|rewrite read_print_pos..]; reflexivity. Qed.

Lemma print_seconds_nonempty n : print_seconds n <> EmptyString.
Proof. destruct n; discriminate. Qed.

Lemma parse_print t :
  (fun s => Z.mul 1000 <$> read_seconds s) (print_seconds (t / 1000))
  = Some (1000 * (t / 1000)).
Proof. simpl. rewrite read_print_seconds. reflexivity. Qed.

#[export] Instance host : Host :=
  {| tzOffset := 0;
     Platform_OS := "ios";
     Platform_Version := "17.0";
     dateToString := fun t => print_seconds (t / 1000);
     dateParse := fun s => Z.mul 1000 <$> read_seconds s;
     dateToString_nonempty := fun t => print_seconds_nonempty (t / 1000);
     dateParse_empty := eq_refl;
     dateParse_toString := parse_print |}.

(** The object [new Lumin("abc:def", cfg)] builds on this host while the
    app is in the foreground, at the epoch. *)
Definition lumin (cfg : LuminConfig) : Lumin :=
  {| this_id := "abc";
     this_token := "def";
     this_config := mergeConfig defaultConfig cfg;
     this_appState := active;
     this_sessionStartTime := 0;
     this_info := {| platform := "ios"; platformVersion := "17.0";
                     luminVersion := "0.4.2" |};
     this_asyncStorageKeys := keysFor "abc" |}.

Example lumin_constructed cfg : constructor "abc:def" cfg active 0 = inr (lumin cfg).
Proof. reflexivity. Qed.

(** Only the daily interval is overridden. *)
Definition dailyInterval (i : Z) : LuminConfig :=
  {| environment := None; automaticallyTrackActiveUsers := None;
     trackingIntervals :=
       Some {| dailyActiveUser := Some i; weeklyActiveUser := None;
               monthlyActiveUser := None; yearlyActiveUser := None |};
     url := None; logResponse := None; logError := None |}.

(** Noon (UTC) of the day that is [d] days after 1970-01-01. *)
Definition noon (d : Z) : Z := d * DateFns.msPerDay + 43200000.

End ExampleHost.

Arguments IComplete p%_nat a.
Arguments Issued p%_nat rq.
Arguments Completed p%_nat o.
Arguments deliver {_} this p%_nat a s.
Arguments complete p%_nat a s.
Arguments isPending p%_nat s.
Arguments outstanding p%_nat s.

(** Symbolic runs keep the clock arithmetic, the requests and the date
    strings folded. *)
Arguments AsyncStorage.getItem : simpl never.
Arguments AsyncStorage.setItem : simpl never.
Arguments AsyncStorage.removeItem : simpl never.
Arguments timeCondition : simpl never.
Arguments secondsSince : simpl never.
Arguments boundary : simpl never.
Arguments eventRequest : simpl never.
Arguments dateToString : simpl never.
Arguments dateParse : simpl never.
Arguments DateFns.differenceInSeconds : simpl never.

(** * Construction and the token *)

Module Token.

(** The text before the first [sep] and, when there is one, the text after
    it. *)
Fixpoint cutFirst (sep : Ascii.ascii) (s : string) : string * option string :=
  match s with
  | EmptyString => (EmptyString, None)
  | String c r =>
      if Ascii.eqb c sep then (EmptyString, Some r)
      else (String c (cutFirst sep r).1, (cutFirst sep r).2)
  end.

(** The two halves of a token split on its first [':'], as the
    specification words the parsing. *)
Definition halves (s : string) : string * string :=
  ((cutFirst colon s).1, default EmptyString (cutFirst colon s).2).

(** The constructor as the specification words it. *)
Definition specConstructor `{Host} (token : string) (config : LuminConfig)
    (currentState : AppStateStatus) (now : Z) : ConstructorError + Lumin :=
  let '(appId, appSecret) := halves (JsString.trim token) in
  if JsString.nonempty appId && JsString.nonempty appSecret then
    inr {| this_asyncStorageKeys := keysFor appId;
           this_id := appId;
           this_token := appSecret;
           this_config := mergeConfig defaultConfig config;
           this_appState := currentState;
           this_sessionStartTime := now;
           this_info := {| platform := Platform_OS;
                           platformVersion := Platform_Version;
                           luminVersion := "0.4.2" |} |}
  else inl TokenMalformed.

Lemma split_cutFirst sep s :
  JsString.split sep s =
    (cutFirst sep s).1 ::
      match (cutFirst sep s).2 with
      | Some r => JsString.split sep r
      | None => []
      end.
Proof.
  induction s as [|c r IH]; simpl; [reflexivity|].
  destruct (Ascii.eqb c sep); simpl; [reflexivity|].
  rewrite IH. reflexivity.
Qed.

Lemma split_head sep s : JsString.split sep s !! 0%nat = Some (cutFirst sep s).1.
Proof. rewrite split_cutFirst. reflexivity. Qed.

Lemma split_second sep s :
  JsString.split sep s !! 1%nat =
    (fun r => (cutFirst sep r).1) <$> (cutFirst sep s).2.
Proof.
  rewrite split_cutFirst. simpl.
  destruct (cutFirst sep s).2 as [r|]; simpl; [apply split_head|reflexivity].
Qed.

Example token_abc_def :
  JsString.split colon (JsString.trim "  abc:def ") = ["abc"; "def"].
Proof. reflexivity. Qed.

Example token_three_fields :
  JsString.split colon "abc:def:ghi" = ["abc"; "def"; "ghi"]
  /\ halves "abc:def:ghi" = ("abc", "def:ghi").
Proof. split; reflexivity. Qed.

Section Construction.
Context `{Host}.

(** The scenario of the specification: ["notoken"] is refused. *)
Example notoken_refused cfg a now :
  constructor "notoken" cfg a now = inl TokenMalformed.
Proof. reflexivity. Qed.

(** C6, amended: the constructor trims the token and cuts it at every
    [':']; the application id is the text before the first [':'] and the
    secret is the text between the first [':'] and the next one (or the
    end). When either is empty, or there is no [':'], construction fails
    with the malformed-token error; otherwise it succeeds with the id and
    the secret bound to these two fields, the six storage keys derived
    from the id and the configuration merged over the defaults. The
    constructor is a function of its arguments alone: it reaches neither
    the store nor the network. *)
Theorem constructor_binds_first_two_fields token cfg a now :
  let appId := (cutFirst colon (JsString.trim token)).1 in
  let rest := (cutFirst colon (JsString.trim token)).2 in
  let appSecret := (cutFirst colon (default EmptyString rest)).1 in
  if JsString.nonempty appId && JsString.nonempty appSecret then
    exists l,
      constructor token cfg a now = inr l
      /\ this_id l = appId
      /\ this_token l = appSecret
      /\ this_asyncStorageKeys l = keysFor appId
      /\ allKeys (this_asyncStorageKeys l) =
           ["lumin_" +:+ appId +:+ "_first_open_time";
            "lumin_" +:+ appId +:+ "_end_of_last_session";
            "lumin_" +:+ appId +:+ "_last_dau_tracked";
            "lumin_" +:+ appId +:+ "_last_wau_tracked";
            "lumin_" +:+ appId +:+ "_last_mau_tracked";
            "lumin_" +:+ appId +:+ "_last_yau_tracked"]
      /\ this_config l = mergeConfig defaultConfig cfg
  else constructor token cfg a now = inl TokenMalformed.
Proof.
  intros appId rest appSecret. unfold constructor.
  rewrite split_head, split_second.
  fold appId. fold rest.
  assert (Hs : falsyField (Some appId)
               || falsyField ((fun r => (cutFirst colon r).1) <$> rest)
               = negb (JsString.nonempty appId && JsString.nonempty appSecret)).
  { subst appSecret. destruct rest as [r|]; simpl.
    - rewrite negb_andb. reflexivity.
    - rewrite andb_false_r, orb_true_r. reflexivity. }
  rewrite Hs.
  destruct (JsString.nonempty appId && JsString.nonempty appSecret) eqn:E; simpl;
    [|reflexivity].
  eexists. split; [reflexivity|]. simpl.
  apply andb_prop in E as [_ E2]. subst appSecret.
  destruct rest as [r|]; simpl in *; [|discriminate E2].
  repeat split; reflexivity.
Qed.
End Construction.

(** C6, as stated, fails: on a token with a second [':'] the constructor
    does not bind the secret to the whole second half. *)
Lemma constructor_not_split_on_first_colon :
  ~ (forall token cfg a now,
       @constructor ExampleHost.host token cfg a now
       = @specConstructor ExampleHost.host token cfg a now).
Proof.
  intros Hc.
  specialize (Hc "abc:def:ghi" emptyConfig active 0).
  vm_compute in Hc. discriminate Hc.
Qed.

End Token.

(** * The cadence evaluator *)

Module Cadence.

Import Machine.

(** One cadence check on a freshly launched process: the method is called,
    the read of the marker completes at instant [now], and the microtasks
    this causes run. *)
Definition evaluate `{Host} (this : Lumin) (p : period)
    (m : gmap string string) (now : Z) : option state :=
  deliver this 1 FromStore (call (trackPeriodActiveUser this p) (boot this m now)).

(** The start of the current period with the week beginning on Monday, as
    the specification words the calendar rule. *)
Definition specBoundary `{Host} (p : period) (now : Z) : Z :=
  match p with
  | Weekly => DateFns.startOfWeekOn tzOffset 1 now
  | _ => boundary p now
  end.

Section Rules.
Context `{Host}.
Variable this : Lumin.

Lemma parsed_nonempty s t : dateParse s = Some t -> JsString.nonempty s = true.
Proof.
  destruct s; [|reflexivity].
  rewrite dateParse_empty. discriminate.
Qed.

(** What a check does when a marker is stored: it sends the event when
    [timeCondition] holds and nothing otherwise, and no microtask is
    left. *)
Lemma evaluate_with_marker p m now s last :
  m !! markerKey this p = Some s ->
  dateParse s = Some last ->
  exists s1,
    evaluate this p m now = Some s1
    /\ jobs s1 = []
    /\ emissions s1 = (if timeCondition this p now s then [eventName p] else []).
Proof.
  intros Hm Hp. unfold evaluate.
  change (m !! markerKey this p) with (AsyncStorage.getItem (markerKey this p) m) in Hm.
  cbn. rewrite Hm. cbn.
  rewrite (parsed_nonempty _ _ Hp). cbn.
  destruct (timeCondition this p now s); cbn;
    (eexists; split; [reflexivity|split; reflexivity]).
Qed.

Lemma emitted_iff p (b : bool) (s1 : state) :
  emissions s1 = (if b then [eventName p] else []) ->
  (emitted (eventName p) s1 <-> b = true).
Proof.
  unfold emitted. intros ->. destruct b; split; intros Hx;
    try reflexivity; try discriminate.
  - apply list_elem_of_here.
  - apply elem_of_nil in Hx. destruct Hx.
Qed.

(** C1, amended: for each of the four periods, with an override interval
    [I] other than 0 configured and a last-tracked instant stored, the
    check sends the <PERIOD>_ACTIVE_USER event if and only if
    [differenceInSeconds(now, lastTracked)], the elapsed time in whole
    seconds, is greater than [I]; when it equals [I] nothing is sent. *)
Theorem interval_rule p m now s last I :
  intervalOf (this_config this) p = Some I ->
  I <> 0 ->
  m !! markerKey this p = Some s ->
  dateParse s = Some last ->
  exists s1,
    evaluate this p m now = Some s1
    /\ jobs s1 = []
    /\ (emitted (eventName p) s1 <-> I < DateFns.differenceInSeconds now last)
    /\ (DateFns.differenceInSeconds now last = I -> emissions s1 = []).
Proof.
  intros HI Hnz Hm Hp.
  destruct (evaluate_with_marker p m now s last Hm Hp) as (s1 & Hev & Hj & Hem).
  exists s1. split; [exact Hev|]. split; [exact Hj|].
  assert (Hc : timeCondition this p now s
               = (I <? DateFns.differenceInSeconds now last)).
  { unfold timeCondition. rewrite Hp, HI. simpl.
    destruct (Z.eqb_spec I 0); [contradiction|]. reflexivity. }
  rewrite Hc in Hem. split.
  - rewrite (emitted_iff p _ s1 Hem). apply Z.ltb_lt.
  - intros Heq. rewrite Hem, Heq, Z.ltb_irrefl. reflexivity.
Qed.

(** An interval of 0 counts as no interval: the check falls back to the
    calendar. *)
Lemma interval_zero_is_calendar p now s :
  intervalOf (this_config this) p = Some 0 ->
  timeCondition this p now s =
    match dateParse s with
    | Some last => DateFns.isBefore last (boundary p now)
    | None => false
    end.
Proof. intros HI. unfold timeCondition. rewrite HI. reflexivity. Qed.

(** C2, amended: for each of the four periods, with no override interval
    configured and a last-tracked instant stored, the check sends the
    <PERIOD>_ACTIVE_USER event if and only if the stored instant is
    strictly before the start of the current local day, week, month or
    year, where the week begins on Sunday ([startOfWeek] with no options);
    at or after that start nothing is sent. *)
Theorem calendar_rule p m now s last :
  intervalOf (this_config this) p = None ->
  m !! markerKey this p = Some s ->
  dateParse s = Some last ->
  exists s1,
    evaluate this p m now = Some s1
    /\ jobs s1 = []
    /\ (emitted (eventName p) s1 <-> last < boundary p now)
    /\ (boundary p now <= last -> emissions s1 = []).
Proof.
  intros HI Hm Hp.
  destruct (evaluate_with_marker p m now s last Hm Hp) as (s1 & Hev & Hj & Hem).
  exists s1. split; [exact Hev|]. split; [exact Hj|].
  assert (Hc : timeCondition this p now s = (last <? boundary p now)).
  { unfold timeCondition. rewrite Hp, HI. reflexivity. }
  rewrite Hc in Hem. split.
  - rewrite (emitted_iff p _ s1 Hem). apply Z.ltb_lt.
  - intros Hle. rewrite Hem.
    destruct (Z.ltb_spec last (boundary p now)); [lia|reflexivity].
Qed.


(** On an empty store the check sends first and asks for the write in a
    later microtask. *)
Lemma send_precedes_write p now :
  exists s,
    evaluate this p ∅ now = Some s
    /\ trace s =
         [Issued 1 (RqGetItem (markerKey this p));
          Completed 1 (Fulfilled VNull);
          Issued 3 (RqFetch (eventRequest this (eventName p) []));
          Issued 7 (RqSetItem (markerKey this p) (dateToString now))].
Proof.
  unfold evaluate. cbn.
  change (AsyncStorage.getItem (markerKey this p) ∅) with (@None string). cbn.
  eexists. split; reflexivity.
Qed.

(** The marker is written while the send is still outstanding, and stays
    written when the send then fails: the write does not wait for the
    send. (C4, on an empty store.) *)
Theorem marker_written_before_send_completes p now err :
  exists s1 s2,
    evaluate this p ∅ now = Some s1
    /\ trace s1 =
         [Issued 1 (RqGetItem (markerKey this p));
          Completed 1 (Fulfilled VNull);
          Issued 3 (RqFetch (eventRequest this (eventName p) []));
          Issued 7 (RqSetItem (markerKey this p) (dateToString now))]
    /\ deliver this 7 FromStore s1 = Some s2
    /\ store s2 !! markerKey this p = Some (dateToString now)
    /\ outstanding 3 s2 = true
    /\ isPending 3 s2 = true
    /\ exists s3,
         deliver this 3 (FromNetwork (Rejected err)) s2 = Some s3
         /\ store s3 !! markerKey this p = Some (dateToString now).
Proof.
  unfold evaluate. cbn.
  change (AsyncStorage.getItem (markerKey this p) ∅) with (@None string). cbn.
  do 2 eexists.
  split; [reflexivity|]. split; [reflexivity|]. split; [reflexivity|].
  split; [apply lookup_insert_eq|].
  split; [reflexivity|]. split; [reflexivity|].
  cbn. unfold onFetchCatch.
  destruct (truthyB (logError (this_config this))); cbn;
    (eexists; split; [reflexivity|apply lookup_insert_eq]).
Qed.
End Rules.

(** The week [startOfWeek] opens begins on a Sunday, local time, and holds
    the instant it is asked about. *)
Lemma startOfWeek_is_sunday tz now :
  DateFns.getDay tz (DateFns.startOfWeek tz now) = 0.
Proof.
  unfold DateFns.startOfWeek, DateFns.startOfWeekOn, DateFns.getDay,
    DateFns.midnight, DateFns.localDay, DateFns.msPerDay.
  set (d := (now + tz) / 86400000).
  assert (Hd : 0 <= (d + 4) mod 7 < 7) by (apply Z.mod_pos_bound; lia).
  destruct (Z.ltb_spec ((d + 4) mod 7) 0); [lia|].
  replace ((d - (0 + (d + 4) mod 7 - 0)) * 86400000 - tz + tz)
    with ((d - (d + 4) mod 7) * 86400000) by lia.
  rewrite Z.div_mul by lia.
  replace (d - (d + 4) mod 7 + 4) with (7 * ((d + 4) / 7)).
  - rewrite Z.mul_comm. apply Z.mod_mul. lia.
  - pose proof (Z.div_mod (d + 4) 7). lia.
Qed.

Lemma startOfWeek_holds tz now :
  DateFns.startOfWeek tz now <= now
  < DateFns.startOfWeek tz now + 7 * DateFns.msPerDay.
Proof.
  unfold DateFns.startOfWeek, DateFns.startOfWeekOn, DateFns.getDay,
    DateFns.midnight, DateFns.localDay, DateFns.msPerDay.
  set (d := (now + tz) / 86400000).
  assert (Hd : 0 <= (d + 4) mod 7 < 7) by (apply Z.mod_pos_bound; lia).
  destruct (Z.ltb_spec ((d + 4) mod 7) 0); [lia|].
  pose proof (Z.div_mod (now + tz) 86400000).
  pose proof (Z.mod_pos_bound (now + tz) 86400000).
  fold d in H0. lia.
Qed.

(** C1 as stated, interval 0 included, at a given instance, period, store
    and instant. *)
Definition intervalClaim `{Host} (this : Lumin) (p : period)
    (m : gmap string string) (now : Z) : Prop :=
  forall I s last s1,
    intervalOf (this_config this) p = Some I ->
    m !! markerKey this p = Some s ->
    dateParse s = Some last ->
    evaluate this p m now = Some s1 ->
    (emitted (eventName p) s1 <-> I < DateFns.differenceInSeconds now last).

(** C1, as stated, fails for the interval 0: ten seconds after the last
    daily event, on the same day, nothing is sent although 10 > 0. *)
Lemma interval_zero_counterexample :
  ~ @intervalClaim ExampleHost.host
      (ExampleHost.lumin (ExampleHost.dailyInterval 0)) Daily
      {[ "lumin_abc_last_dau_tracked" :=
           @dateToString ExampleHost.host (ExampleHost.noon 20760) ]}
      (ExampleHost.noon 20760 + 10000).
Proof.
  intros Hc.
  destruct (@evaluate ExampleHost.host
              (ExampleHost.lumin (ExampleHost.dailyInterval 0)) Daily
              {[ "lumin_abc_last_dau_tracked" :=
                   @dateToString ExampleHost.host (ExampleHost.noon 20760) ]}
              (ExampleHost.noon 20760 + 10000)) as [s1|] eqn:E;
    [|vm_compute in E; discriminate E].
  specialize (Hc 0 _ (ExampleHost.noon 20760) s1 eq_refl eq_refl eq_refl E).
  destruct Hc as [_ Hc].
  assert (Hin : emitted (eventName Daily) s1) by (apply Hc; vm_compute; reflexivity).
  vm_compute in E. injection E as <-.
  unfold emitted in Hin. vm_compute in Hin.
  apply elem_of_nil in Hin. exact Hin.
Qed.

(** C2 as stated, with the Monday-based week, at a given instance, period,
    store and instant. *)
Definition calendarClaim `{Host} (this : Lumin) (p : period)
    (m : gmap string string) (now : Z) : Prop :=
  forall s last s1,
    intervalOf (this_config this) p = None ->
    m !! markerKey this p = Some s ->
    dateParse s = Some last ->
    evaluate this p m now = Some s1 ->
    (emitted (eventName p) s1 <-> last < specBoundary p now).

(** C2, as stated, fails for the week: with the last weekly event on
    Sunday 2026-11-01 at noon, a launch on Monday 2026-11-02 at noon sends
    nothing, although Sunday noon is before Monday 00:00. *)
Lemma monday_week_counterexample :
  ~ @calendarClaim ExampleHost.host (ExampleHost.lumin emptyConfig) Weekly
      {[ "lumin_abc_last_wau_tracked" :=
           @dateToString ExampleHost.host (ExampleHost.noon 20758) ]}
      (ExampleHost.noon 20759).
Proof.
  intros Hc.
  destruct (@evaluate ExampleHost.host (ExampleHost.lumin emptyConfig) Weekly
              {[ "lumin_abc_last_wau_tracked" :=
                   @dateToString ExampleHost.host (ExampleHost.noon 20758) ]}
              (ExampleHost.noon 20759)) as [s1|] eqn:E;
    [|vm_compute in E; discriminate E].
  specialize (Hc _ (ExampleHost.noon 20758) s1 eq_refl eq_refl eq_refl E).
  destruct Hc as [_ Hc].
  assert (Hin : emitted (eventName Weekly) s1) by (apply Hc; vm_compute; reflexivity).
  vm_compute in E. injection E as <-.
  unfold emitted in Hin. vm_compute in Hin.
  apply elem_of_nil in Hin. exact Hin.
Qed.

(** The scenario of the specification: the last daily event was sent 30
    minutes ago and the daily interval is one hour; nothing is sent. *)
Lemma interval_rule_witness :
  exists s1,
    @evaluate ExampleHost.host
      (ExampleHost.lumin (ExampleHost.dailyInterval 3600)) Daily
      {[ "lumin_abc_last_dau_tracked" :=
           @dateToString ExampleHost.host (ExampleHost.noon 20760) ]}
      (ExampleHost.noon 20760 + 1800000) = Some s1
    /\ jobs s1 = []
    /\ (emitted "DAILY_ACTIVE_USER" s1 <->
        3600 < DateFns.differenceInSeconds
                 (ExampleHost.noon 20760 + 1800000) (ExampleHost.noon 20760))
    /\ (DateFns.differenceInSeconds
          (ExampleHost.noon 20760 + 1800000) (ExampleHost.noon 20760) = 3600 ->
        emissions s1 = []).
Proof.
  apply (@interval_rule ExampleHost.host
           (ExampleHost.lumin (ExampleHost.dailyInterval 3600)) Daily
           {[ "lumin_abc_last_dau_tracked" :=
                @dateToString ExampleHost.host (ExampleHost.noon 20760) ]}
           (ExampleHost.noon 20760 + 1800000)
           (@dateToString ExampleHost.host (ExampleHost.noon 20760))
           (ExampleHost.noon 20760) 3600).
  - reflexivity.
  - discriminate.
  - reflexivity.
  - reflexivity.
Defined.

(** The last weekly event was sent on Saturday 2026-10-31 at noon; on
    Monday 2026-11-02 the week that began on Sunday is a new one. *)
Lemma calendar_rule_witness :
  exists s1,
    @evaluate ExampleHost.host (ExampleHost.lumin emptyConfig) Weekly
      {[ "lumin_abc_last_wau_tracked" :=
           @dateToString ExampleHost.host (ExampleHost.noon 20757) ]}
      (ExampleHost.noon 20759) = Some s1
    /\ jobs s1 = []
    /\ (emitted "WEEKLY_ACTIVE_USER" s1 <->
        ExampleHost.noon 20757
        < @boundary ExampleHost.host Weekly (ExampleHost.noon 20759))
    /\ (@boundary ExampleHost.host Weekly (ExampleHost.noon 20759)
        <= ExampleHost.noon 20757 ->
        emissions s1 = []).
Proof.
  apply (@calendar_rule ExampleHost.host (ExampleHost.lumin emptyConfig) Weekly
           {[ "lumin_abc_last_wau_tracked" :=
                @dateToString ExampleHost.host (ExampleHost.noon 20757) ]}
           (ExampleHost.noon 20759)
           (@dateToString ExampleHost.host (ExampleHost.noon 20757))
           (ExampleHost.noon 20757)).
  - reflexivity.
  - reflexivity.
  - reflexivity.
Defined.


End Cadence.

(** * Running the machine in proofs *)

(** A state is computed by need, with the values that stay symbolic (the
    fields of the instance, the store, the clock and the date functions)
    left folded. When the computation stops at a test on such a value, the
    code that was about to run is shown instead, with the test in it. *)
Ltac has_fix t :=
  match t with
  | context [?f] => is_fix f; unify f Machine.exec
  end.

Ltac eval_state t k :=
  let v := eval lazy -[eventRequest eventRecord eventName markerKey
                        timeCondition secondsSince boundary
                        dateToString dateParse tzOffset
                        AsyncStorage.getItem AsyncStorage.setItem
                        AsyncStorage.removeItem empty
                        truthyB JsString.nonempty
                        this_config this_token this_info this_id
                        this_appState this_sessionStartTime
                        this_asyncStorageKeys firstOpenTime endOfLastSession
                        lastDauTracked lastWauTracked lastMauTracked
                        lastYauTracked
                        environment automaticallyTrackActiveUsers
                        trackingIntervals url logResponse logError
                        platform platformVersion luminVersion intervalOf
                        obj_spread
                        Z.add Z.sub Z.of_N DateFns.differenceInSeconds] in t in
  tryif has_fix v then
    (let v' := eval lazy -[Machine.exec
                        eventRequest eventRecord eventName markerKey
                        timeCondition secondsSince boundary
                        dateToString dateParse tzOffset
                        AsyncStorage.getItem AsyncStorage.setItem
                        AsyncStorage.removeItem empty
                        truthyB JsString.nonempty
                        this_config this_token this_info this_id
                        this_appState this_sessionStartTime
                        this_asyncStorageKeys firstOpenTime endOfLastSession
                        lastDauTracked lastWauTracked lastMauTracked
                        lastYauTracked
                        environment automaticallyTrackActiveUsers
                        trackingIntervals url logResponse logError
                        platform platformVersion luminVersion intervalOf
                        obj_spread
                        Z.add Z.sub Z.of_N DateFns.differenceInSeconds] in t in
     k v')
  else k v.

(** The microtasks of a [drain], one at a time; [tac] settles what a job
    stopped at (a value read from the store, a flag of the configuration, a
    comparison of instants). *)
Ltac drain_with tac :=
  repeat
    (progress
       lazymatch goal with
       | |- context [drain ?th ?n ?s] =>
           eval_state s ltac:(fun s' =>
             lazymatch s' with
             | Build_state _ _ _ _ ?js _ _ _ _ =>
                 lazymatch js with
                 | [] => change (drain th n s) with s'
                 | ?j :: ?rest =>
                     lazymatch n with
                     | S ?n' =>
                         change (drain th n s)
                           with (drain th n'
                                   (run_job th j (Machine.with_jobs rest s')));
                         tac
                     | O => change (drain th n s) with s'
                     end
                 end
             | _ => change s with s'; tac
             end)
       end).

(** One input of a [play]: the step is computed on the current state,
    [tac] may rewrite what the step has read from the store, and the
    microtasks run. *)
Ltac play_step_with tac :=
  lazymatch goal with
  | |- context [play ?th (?i :: ?r) ?s] =>
      eval_state (step th i s) ltac:(fun v =>
        lazymatch v with
        | Some ?s1 =>
            change (play th (i :: r) s) with (play th r (drain th 8 s1));
            tac; drain_with tac;
            lazymatch goal with
            | |- context [drain _ _ _] => fail "a microtask did not finish"
            | |- _ => idtac
            end
        end)
  end.

Ltac play_with tac :=
  repeat play_step_with tac;
  repeat
    lazymatch goal with
    | |- context [play ?th [] ?s] => change (play th [] s) with (Some s)
    end.

Ltac play_all := play_with idtac.

(** * Sending events *)

Module Track.

Import Machine.

Section Track.
Context `{Host}.
Variable this : Lumin.

(** The promise [track] returns is fulfilled as soon as the call returns,
    while the request is still outstanding; when the send then fails the
    error is logged if [logError] is set, the rejection stays on the
    promise of the [catch], which nobody holds, and the promise [track]
    returned is still fulfilled. The promise of [trackCustomEvent]
    behaves the same. (C7.) *)
Theorem track_promise_ignores_send_failure event data m now err :
  (exists s0 s1,
     play this [ICall (track this event data)] (boot this m now) = Some s0
     /\ play this [ICall (track this event data);
                   IComplete 1 (FromNetwork (Rejected err))] (boot this m now)
        = Some s1
     /\ promises s0 !! 0%nat = Some (Settled (Fulfilled VUndefined))
     /\ outstanding 1 s0 = true
     /\ promises s1 !! 0%nat = Some (Settled (Fulfilled VUndefined))
     /\ promises s1 !! 3%nat = Some (Settled (Rejected err))
     /\ trace s1 =
          [Issued 1 (RqFetch (eventRequest this event data));
           Completed 1 (Rejected err)]
          ++ (if truthyB (logError (this_config this)) then [Logged err] else []))
  /\ (exists s0 s1,
        play this [ICall (trackCustomEvent this event data)] (boot this m now)
        = Some s0
        /\ play this [ICall (trackCustomEvent this event data);
                      IComplete 2 (FromNetwork (Rejected err))] (boot this m now)
           = Some s1
        /\ promises s0 !! 0%nat = Some (Settled (Fulfilled VUndefined))
        /\ outstanding 2 s0 = true
        /\ promises s1 !! 0%nat = Some (Settled (Fulfilled VUndefined))
        /\ promises s1 !! 1%nat = Some (Settled (Fulfilled VUndefined))
        /\ promises s1 !! 4%nat = Some (Settled (Rejected err))).
Proof.
  unfold boot.
  destruct (truthyB (logError (this_config this))) eqn:E;
    play_with ltac:(try unfold onFetchCatch; rewrite ?E);
    (split; do 2 eexists; repeat split; reflexivity).
Qed.
End Track.

End Track.

(** * Sessions *)

Module Session.

Import Machine.

Section Session.
Context `{Host}.
Variable this : Lumin.

Let key := endOfLastSession (this_asyncStorageKeys this).

Lemma nonempty_toString t : JsString.nonempty (dateToString t) = true.
Proof.
  pose proof (dateToString_nonempty t) as Hn.
  destruct (dateToString t); [contradiction|reflexivity].
Qed.

Lemma secondsSince_toString now t :
  secondsSince now (dateToString t)
  = VNum (DateFns.differenceInSeconds now (1000 * (t / 1000))).
Proof. unfold secondsSince. rewrite dateParse_toString. reflexivity. Qed.

(** SESSION_START as it goes out, property by property: the platform
    record, then [timeSinceLastSession]. *)
Definition startEvent (diff : val) : EventRecord :=
  {| ev_type := "SESSION_START";
     ev_data := [("$info", infoObject this); ("timeSinceLastSession", diff)];
     ev_environment := environment (this_config this);
     ev_appToken := this_token this |}.

(** The whole seconds from the second an instant was printed to until
    two minutes and [d] milliseconds after that instant. *)
Lemma two_minutes_and_later t d :
  0 <= d ->
  DateFns.differenceInSeconds (t + 120000 + d) (1000 * (t / 1000))
  = 120 + (t mod 1000 + d) / 1000.
Proof.
  intros Hd. unfold DateFns.differenceInSeconds.
  pose proof (Z.div_mod t 1000) as Ht.
  pose proof (Z.mod_pos_bound t 1000) as Hm.
  replace (t + 120000 + d - 1000 * (t / 1000))
    with (120 * 1000 + (t mod 1000 + d)) by lia.
  rewrite Z.quot_div_nonneg by lia.
  rewrite Z.div_add_l by lia. reflexivity.
Qed.

(** C8, amended: [startSession()] sets [sessionStartTime] to the instant
    of the call and, once the read of the end-of-last-session key has
    completed ([d] milliseconds later), sends one SESSION_START event.
    Its [timeSinceLastSession] is [null] when nothing is stored under the
    key, and otherwise the difference in whole seconds between the
    instant the read completes, where the code takes [new Date()] again,
    and the stored instant. A session ended at [T] (the store holds [T]
    to the second) and a session started 120 seconds later give
    [120 + (T mod 1000 + d) / 1000] whole seconds: 120 when the read
    completes less than [1000 - T mod 1000] milliseconds after the start,
    and more otherwise. *)
Theorem session_start_reports_time_since_last m t0 d :
  (exists s0,
     play this [ICall (startSession this)] (boot this m t0) = Some s0
     /\ cur_sessionStartTime s0 = t0
     /\ events s0 = [])
  /\ (m !! key = None ->
      exists s1,
        play this [ICall (startSession this); ITick d; IComplete 1 FromStore]
          (boot this m t0) = Some s1
        /\ cur_sessionStartTime s1 = t0
        /\ events s1 = [startEvent VNull])
  /\ (forall s last,
        m !! key = Some s ->
        dateParse s = Some last ->
        exists s1,
          play this [ICall (startSession this); ITick d; IComplete 1 FromStore]
            (boot this m t0) = Some s1
          /\ cur_sessionStartTime s1 = t0
          /\ events s1 =
               [startEvent
                  (VNum (DateFns.differenceInSeconds (t0 + Z.of_N d) last))])
  /\ (exists s2,
        play this [ICall (endSession this Done); IComplete 5 FromStore;
                   ITick 120000; ICall (startSession this);
                   ITick d; IComplete 7 FromStore] (boot this m t0) = Some s2
        /\ store s2 !! key = Some (dateToString t0)
        /\ cur_sessionStartTime s2 = t0 + 120000
        /\ last (events s2)
           = Some (startEvent (VNum (120 + (t0 mod 1000 + Z.of_N d) / 1000)))
        /\ (120 + (t0 mod 1000 + Z.of_N d) / 1000 = 120
            <-> t0 mod 1000 + Z.of_N d < 1000)).
Proof.
  unfold boot. subst key. split; [|split; [|split]].
  - play_all. eexists. repeat split; reflexivity.
  - intros Hm.
    change (AsyncStorage.getItem (endOfLastSession (this_asyncStorageKeys this)) m
            = None) in Hm.
    play_with ltac:(rewrite ?Hm).
    eexists. repeat split; reflexivity.
  - intros s last Hm Hp.
    change (AsyncStorage.getItem (endOfLastSession (this_asyncStorageKeys this)) m
            = Some s) in Hm.
    pose proof (Cadence.parsed_nonempty s last Hp) as Hs.
    play_with ltac:(rewrite ?Hm; rewrite ?Hs).
    eexists. split; [reflexivity|]. split; [reflexivity|].
    simpl. unfold secondsSince. rewrite Hp. reflexivity.
  - play_with ltac:(rewrite ?AsyncStorage.getItem_setItem;
                    rewrite ?nonempty_toString).
    eexists. split; [reflexivity|]. split; [apply lookup_insert_eq|].
    split; [reflexivity|]. split.
    + simpl. rewrite secondsSince_toString.
      change (t0 + Z.of_N 120000)%Z with (t0 + 120000)%Z.
      rewrite two_minutes_and_later by lia. reflexivity.
    + pose proof (Z.mod_pos_bound t0 1000) as Hm.
      split; intros Hd.
      * assert ((t0 mod 1000 + Z.of_N d) / 1000 = 0) as Hz by lia.
        apply Z.div_small_iff in Hz; lia.
      * rewrite Z.div_small by lia. lia.
Qed.
End Session.

(** C8 as stated, at a given instance and instant: a session ended at
    [t0] and the next started 120 seconds later, its read of the stored
    end completing [d] milliseconds after the start. *)
Definition twoMinutesClaim `{Host} (this : Lumin) (t0 : Z) (d : N) : Prop :=
  forall s2,
    play this [ICall (endSession this Done); IComplete 5 FromStore;
               ITick 120000; ICall (startSession this);
               ITick d; IComplete 7 FromStore] (boot this ∅ t0) = Some s2 ->
    last (events s2) = Some (startEvent this (VNum 120)).

(** C8, as stated, fails: a session ended 900 ms after a full second and
    a read that takes 150 ms give [timeSinceLastSession = 121]. *)
Lemma two_minutes_with_latency_counterexample :
  ~ @twoMinutesClaim ExampleHost.host (ExampleHost.lumin emptyConfig) 900 150.
Proof.
  intros Hc.
  specialize (Hc _ ltac:(vm_compute; reflexivity)).
  vm_compute in Hc. discriminate Hc.
Qed.

(** The same scenario through the lifecycle signal, on the example host:
    the app is launched, goes to the background at [T] (the end of the
    session is stored) and comes back 120 seconds later. *)
Example foreground_after_two_minutes :
  let this := ExampleHost.lumin emptyConfig in
  (fun s => last (events s)) <$>
    @play ExampleHost.host this
      [ICall (init this);
       IComplete 1 FromStore; IComplete 4 FromStore;
       IComplete 6 FromStore; IComplete 8 FromStore; IComplete 10 FromStore;
       IComplete 12 FromStore; IAppState background; IComplete 51 FromStore;
       ITick 120000; IAppState active; IComplete 62 FromStore]
      (boot this ∅ 1700000000123)
  = Some (Some (startEvent this (VNum 120))).
Proof. vm_compute. reflexivity. Qed.

End Session.

(** * The cadence evaluation on a store without markers *)

Module Reset.

Import Machine.

Section Reset.
Context `{Host}.
Variable this : Lumin.

Let keys := this_asyncStorageKeys this.

Lemma marker_in_allKeys p : markerKey this p ∈ allKeys keys.
Proof.
  destruct p; unfold markerKey, allKeys;
    repeat first [apply list_elem_of_here|apply list_elem_of_further].
Qed.

(** A <PERIOD>_ACTIVE_USER event as it goes out, property by property:
    the platform record is all its data. *)
Definition activeUserEvent (p : period) : EventRecord :=
  {| ev_type := eventName p;
     ev_data := [("$info", infoObject this)];
     ev_environment := environment (this_config this);
     ev_appToken := this_token this |}.

(** What one cadence evaluation sends when the four markers are absent. *)
Definition cadenceEvents : list EventRecord :=
  [activeUserEvent Daily; activeUserEvent Weekly;
   activeUserEvent Monthly; activeUserEvent Yearly].

Lemma cadence_without_markers m0 now :
  (forall p, AsyncStorage.getItem (markerKey this p) m0 = None) ->
  exists s,
    play this
      [ICall (trackActiveUser this Done);
       IComplete 2 FromStore; IComplete 4 FromStore;
       IComplete 6 FromStore; IComplete 8 FromStore]
      (boot this m0 now) = Some s
    /\ events s = cadenceEvents.
Proof.
  intros Hm.
  pose proof (Hm Daily) as Hd. pose proof (Hm Weekly) as Hw.
  pose proof (Hm Monthly) as Hmo. pose proof (Hm Yearly) as Hy.
  unfold boot.
  play_with ltac:(rewrite ?Hd, ?Hw, ?Hmo, ?Hy).
  eexists. split; reflexivity.
Qed.

End Reset.

End Reset.

(** * First open *)

Module FirstOpen.

Import Machine.

Local Open Scope nat_scope.

Section Check.
Context `{Host}.
Variable this : Lumin.

Let k := firstOpenTime (this_asyncStorageKeys this).

Definition firstOpen : EventRecord := eventRecord this "FIRST_OPEN" [].

(** The write of the first-open check, by the number the process gives
    it: the cadence reads of [init()] take numbers too. *)
Definition checkWrite : pid :=
  if truthyB (automaticallyTrackActiveUsers (this_config this)) then 13
  else 5.

(** When nothing is stored under the first-open key, the callback of the
    first-open check of [init()] asks the store to write the current
    instant under that key and only then starts the send of FIRST_OPEN,
    both in the same run: nothing has been sent when the write is asked
    for, and the store is as it was when the send is started. Once the
    write has completed the store holds the instant. *)
Lemma write_then_send m now :
  m !! k = None ->
  (exists s,
     play this [ICall (init this); IComplete 1 FromStore] (boot this m now)
     = Some s
     /\ store s = m
     /\ exists before f,
          trace s =
            before
            ++ [Completed 1 (Fulfilled VNull);
                Issued checkWrite (RqSetItem k (dateToString now));
                Issued f (RqFetch (eventRequest this "FIRST_OPEN" []))]
          /\ omap fetchOf before = [])
  /\ (exists s',
        play this [ICall (init this); IComplete 1 FromStore;
                   IComplete checkWrite FromStore] (boot this m now)
        = Some s'
        /\ store s' = AsyncStorage.setItem k (dateToString now) m).
Proof.
  intros Hm. subst k.
  change (m !! firstOpenTime (this_asyncStorageKeys this))
    with (AsyncStorage.getItem (firstOpenTime (this_asyncStorageKeys this)) m) in Hm.
  unfold boot, init, checkWrite.
  split.
  - destruct (truthyB (automaticallyTrackActiveUsers (this_config this)));
      play_with ltac:(rewrite ?Hm);
      (eexists; split; [reflexivity|]; split; [reflexivity|]);
      simpl trace;
      match goal with
      | |- exists before f, ?l = _ /\ _ => exists (take (length l - 3) l)
      end;
      eexists; split; reflexivity.
  - destruct (truthyB (automaticallyTrackActiveUsers (this_config this)));
      play_with ltac:(rewrite ?Hm);
      eexists; split; reflexivity.
Qed.
End Check.

(** ** One launch, under every schedule

    The first-open check is followed through every run of a launched
    process: whatever the order in which the host completes the requests,
    delivers microtasks, lets time pass and signals foreground and
    background. What the rest of the class does is bounded by what its code
    can name ([safe]); what is tracked of a state is its [view]. *)

Section Launch.
Context `{Host}.
Variable this : Lumin.
Hypothesis keys_distinct : NoDup (allKeys (this_asyncStorageKeys this)).

Let k := firstOpenTime (this_asyncStorageKeys this).

Definition isFirstOpen (c : option kont) : bool :=
  match c with Some KFirstOpen => true | _ => false end.

Definition firstOpenReaction (r : reaction) : bool :=
  match r with
  | RThen f g _ => isFirstOpen f || isFirstOpen g
  | RAwait c _ => isFirstOpen (Some c)
  | RAll _ => false
  end.

(** The promise a reaction settles in the end. *)
Definition target (r : reaction) : pid :=
  match r with RThen _ _ d => d | RAwait _ fr => fr | RAll d => d end.

(** A request that writes or deletes the first-open key. *)
Definition touches (rq : request) : bool :=
  match rq with
  | RqSetItem key _ | RqRemoveItem key => bool_decide (key = k)
  | _ => false
  end.

Definition sendsFirstOpen (rq : request) : bool :=
  match rq with
  | RqFetch r => bool_decide (ev_type (req_body r) = "FIRST_OPEN")
  | _ => false
  end.

(** The outstanding requests that matter: the read of the check, which is
    request 1 of a launch, and the writes of the key. *)
Definition special (x : pid * request) : bool := Nat.eqb x.1 1 || touches x.2.

(** The actions that matter: asking for a write of the key, starting a
    send of FIRST_OPEN. *)
Definition notable (a : action) : bool :=
  match a with
  | Issued _ rq => touches rq || sendsFirstOpen rq
  | _ => false
  end.

Definition isFirstOpenSend (a : action) : bool :=
  match a with Issued _ rq => sendsFirstOpen rq | _ => false end.

(** What is followed of a state. *)
Record View := {
  v_clock : Z;
  v_read : option pstate;
  v_marker : option string;
  v_marks : list action;
  v_jobs : list (reaction * settled);
  v_requests : list (pid * request);
}.

Definition view (s : state) : View :=
  {| v_clock := clock s;
     v_read := promises s !! 1;
     v_marker := store s !! k;
     v_marks := List.filter notable (trace s);
     v_jobs := List.filter (fun j => firstOpenReaction j.1) (jobs s);
     v_requests := List.filter special (pending s) |}.

Definition tame (r : reaction) : Prop :=
  firstOpenReaction r = false /\ target r <> 1.

Definition tamePromise (x : pstate) : Prop :=
  match x with Pending _ rs => Forall tame rs | Settled _ => True end.

Record good (s : state) : Prop := {
  good_size : 2 <= length (promises s);
  good_table : forall (p : pid) x, p <> 1 -> promises s !! p = Some x -> tamePromise x;
  good_jobs : Forall (fun j => target j.1 <> 1) (jobs s);
  good_listeners : Forall (fun h => h <> KFirstOpen) (listeners s);
}.

(** [s'] is as good as [s] and looks the same. *)
Definition keeps (s s' : state) : Prop := good s' /\ view s' = view s.

Lemma keeps_refl s : good s -> keeps s s.
Proof. intros Hg. split; [exact Hg|reflexivity]. Qed.

Lemma keeps_trans s s' s'' : keeps s s' -> keeps s' s'' -> keeps s s''.
Proof. intros [_ H1] [Hg H2]. split; [exact Hg|congruence]. Qed.

Lemma fresh_not_1 s : good s -> fresh s <> 1.
Proof. intros [Hs _ _ _]. unfold fresh. lia. Qed.

Lemma filter_app_single {A} (f : A -> bool) l x :
  f x = false -> List.filter f (l ++ [x]) = List.filter f l.
Proof.
  intros Hx. rewrite List.filter_app. simpl. rewrite Hx. apply app_nil_r.
Qed.

(** Reads the fields of a state that is given field by field. *)
Ltac fields :=
  cbn [store clock promises pending jobs trace listeners cur_appState
       cur_sessionStartTime with_promises with_jobs with_pending with_store
       with_clock with_listeners with_appState with_sessionStartTime record
       alloc fresh] in *.

Lemma alloc_keeps n s : good s -> keeps s (alloc n s).
Proof.
  intros [Hs Ht Hj Hl]. destruct s as [m t ps pd js tr ls a st]. fields.
  split; [split; fields|].
  - rewrite length_app. lia.
  - intros p x Hp Hx. apply lookup_app_Some in Hx as [Hx|[_ Hx]].
    + exact (Ht p x Hp Hx).
    + apply list_lookup_singleton_Some in Hx as [_ <-]. constructor.
  - exact Hj.
  - exact Hl.
  - unfold view. fields. rewrite lookup_app_l by lia. reflexivity.
Qed.

Lemma subscribe_keeps (p : pid) r s :
  good s -> p <> 1 -> tame r -> keeps s (subscribe p r s).
Proof.
  intros [Hs Ht Hj Hl] Hp Hr. destruct s as [m t ps pd js tr ls a st].
  unfold subscribe. fields.
  destruct (ps !! p) as [[n rs|o]|] eqn:Hlook.
  - split; [split; fields|].
    + rewrite length_insert. exact Hs.
    + intros q x Hq Hx.
      destruct (decide (p = q)) as [<-|Hne].
      * rewrite list_lookup_insert_eq in Hx by (eapply lookup_lt_Some; eauto).
        injection Hx as <-. simpl. apply Forall_app. split.
        -- exact (Ht p _ Hp Hlook).
        -- constructor; [exact Hr|constructor].
      * rewrite list_lookup_insert_ne in Hx by exact Hne. exact (Ht q x Hq Hx).
    + exact Hj.
    + exact Hl.
    + unfold view. fields.
      rewrite list_lookup_insert_ne by exact Hp. reflexivity.
  - split; [split; fields|]; try assumption.
    + apply Forall_app. split; [exact Hj|].
      constructor; [exact (proj2 Hr)|constructor].
    + unfold view. fields.
      rewrite filter_app_single by exact (proj1 Hr). reflexivity.
  - split; [split; fields; assumption|reflexivity].
Qed.

Lemma filter_map_tame (o : settled) rs :
  Forall tame rs ->
  List.filter (fun j : reaction * settled => firstOpenReaction j.1)
    (map (fun r => (r, o)) rs) = [].
Proof.
  induction 1 as [|r rs [Hr _] _ IH]; simpl; [reflexivity|].
  rewrite Hr. exact IH.
Qed.

Lemma settle_keeps (p : pid) o s : good s -> p <> 1 -> keeps s (settle p o s).
Proof.
  intros [Hs Ht Hj Hl] Hp. destruct s as [m t ps pd js tr ls a st].
  unfold settle. fields.
  destruct (ps !! p) as [[n rs|o']|] eqn:Hlook;
    try (split; [split; fields; assumption|reflexivity]).
  pose proof (Ht p _ Hp Hlook) as Hrs. simpl in Hrs.
  split; [split; fields|].
  - rewrite length_insert. exact Hs.
  - intros q x Hq Hx.
    destruct (decide (p = q)) as [<-|Hne].
    + rewrite list_lookup_insert_eq in Hx by (eapply lookup_lt_Some; eauto).
      injection Hx as <-. exact I.
    + rewrite list_lookup_insert_ne in Hx by exact Hne. exact (Ht q x Hq Hx).
  - apply Forall_app. split; [exact Hj|].
    apply Forall_map. simpl. eapply Forall_impl; [exact Hrs|].
    intros r [_ Hr]. exact Hr.
  - exact Hl.
  - unfold view. fields.
    rewrite list_lookup_insert_ne by exact Hp.
    rewrite List.filter_app, filter_map_tame by exact Hrs.
    rewrite app_nil_r. reflexivity.
Qed.

Lemma countdown_keeps (d : pid) s : good s -> d <> 1 -> keeps s (countdown d s).
Proof.
  intros Hg Hd. unfold countdown.
  destruct (promises s !! d) as [[[|[|n]] rs|o]|] eqn:Hlook;
    try (apply keeps_refl; exact Hg).
  - apply settle_keeps; assumption.
  - destruct Hg as [Hs Ht Hj Hl]. destruct s as [m t ps pd js tr ls a st].
    fields. split; [split; fields|].
    + rewrite length_insert. exact Hs.
    + intros q x Hq Hx.
      destruct (decide (d = q)) as [<-|Hne].
      * rewrite list_lookup_insert_eq in Hx by (eapply lookup_lt_Some; eauto).
        injection Hx as <-. exact (Ht d _ Hd Hlook).
      * rewrite list_lookup_insert_ne in Hx by exact Hne. exact (Ht q x Hq Hx).
    + exact Hj.
    + exact Hl.
    + unfold view. fields.
      rewrite list_lookup_insert_ne by exact Hd. reflexivity.
Qed.

(** What issuing a request adds to the view. *)
Definition noted (p : pid) (rq : request) (v : View) : View :=
  {| v_clock := v_clock v;
     v_read := v_read v;
     v_marker := v_marker v;
     v_marks := v_marks v ++ List.filter notable [Issued p rq];
     v_jobs := v_jobs v;
     v_requests := v_requests v ++ List.filter special [(p, rq)] |}.

Lemma issue_good rq s : good s -> good (issue rq s).
Proof.
  intros [Hs Ht Hj Hl]. destruct s as [m t ps pd js tr ls a st].
  unfold issue. fields. split; fields.
  - rewrite length_app. lia.
  - intros p x Hp Hx. apply lookup_app_Some in Hx as [Hx|[_ Hx]].
    + exact (Ht p x Hp Hx).
    + apply list_lookup_singleton_Some in Hx as [_ <-]. constructor.
  - exact Hj.
  - exact Hl.
Qed.

Lemma issue_view rq s :
  good s -> view (issue rq s) = noted (fresh s) rq (view s).
Proof.
  intros [Hs _ _ _]. destruct s as [m t ps pd js tr ls a st].
  unfold issue, view, noted. fields.
  rewrite lookup_app_l by lia. rewrite !List.filter_app. reflexivity.
Qed.

(** A request that neither writes the key nor sends FIRST_OPEN. *)
Definition quiet (rq : request) : Prop :=
  touches rq = false /\ sendsFirstOpen rq = false.

Lemma issue_keeps rq s : good s -> quiet rq -> keeps s (issue rq s).
Proof.
  intros Hg [Ht Hf]. split; [apply issue_good; exact Hg|].
  rewrite issue_view by exact Hg.
  pose proof (fresh_not_1 s Hg) as Hp. apply Nat.eqb_neq in Hp.
  unfold noted, special. cbn [List.filter notable fst snd].
  rewrite Ht, Hf, Hp. cbn [orb]. rewrite !app_nil_r.
  destruct (view s); reflexivity.
Qed.

Lemma record_keeps a s : good s -> notable a = false -> keeps s (record a s).
Proof.
  intros [Hs Ht Hj Hl] Ha. destruct s as [m t ps pd js tr ls a0 st].
  split; [split; fields; assumption|].
  unfold view. fields. rewrite filter_app_single by exact Ha. reflexivity.
Qed.

Lemma with_appState_keeps a s : good s -> keeps s (with_appState a s).
Proof.
  intros [Hs Ht Hj Hl]. destruct s as [m t ps pd js tr ls a0 st].
  split; [split; fields; assumption|reflexivity].
Qed.

Lemma with_sessionStartTime_keeps t' s :
  good s -> keeps s (with_sessionStartTime t' s).
Proof.
  intros [Hs Ht Hj Hl]. destruct s as [m t ps pd js tr ls a0 st].
  split; [split; fields; assumption|reflexivity].
Qed.

Lemma with_listeners_keeps h s :
  good s -> h <> KFirstOpen -> keeps s (with_listeners (listeners s ++ [h]) s).
Proof.
  intros [Hs Ht Hj Hl] Hh. destruct s as [m t ps pd js tr ls a0 st].
  split; [split; fields; try assumption|reflexivity].
  apply Forall_app. split; [exact Hl|]. constructor; [exact Hh|constructor].
Qed.

(** ** Code that leaves the first-open check alone

    It issues quiet requests only, reacts to promises other than the read
    of the check, and registers no first-open callback. Identifiers it
    gets from the machine are never 1. *)

Inductive safe : code -> Prop :=
| safe_Return v : safe (Return v)
| safe_Throw e : safe (Throw e)
| safe_NewDate c : (forall t, safe (c t)) -> safe (NewDate c)
| safe_ReadAppState c : (forall a, safe (c a)) -> safe (ReadAppState c)
| safe_WriteAppState a c : safe c -> safe (WriteAppState a c)
| safe_ReadSessionStartTime c :
    (forall t, safe (c t)) -> safe (ReadSessionStartTime c)
| safe_WriteSessionStartTime t c : safe c -> safe (WriteSessionStartTime t c)
| safe_Issue rq c :
    quiet rq -> (forall p : pid, p <> 1 -> safe (c p)) -> safe (Issue rq c)
| safe_Then (p : pid) f g c :
    p <> 1 -> isFirstOpen f = false -> isFirstOpen g = false ->
    (forall q : pid, q <> 1 -> safe (c q)) -> safe (Then p f g c)
| safe_PromiseAll (l : list pid) c :
    Forall (fun p => p <> 1) l ->
    (forall d : pid, d <> 1 -> safe (c d)) -> safe (PromiseAll l c)
| safe_Await (p : pid) h : p <> 1 -> h <> KFirstOpen -> safe (Await p h)
| safe_Async body c :
    safe body -> (forall q : pid, q <> 1 -> safe (c q)) -> safe (Async body c)
| safe_ConsoleLog v c : safe c -> safe (ConsoleLog v c)
| safe_AddEventListener h c :
    h <> KFirstOpen -> safe c -> safe (AddEventListener h c).

Section Equations.
Variables (fr : pid) (s : state).

Lemma exec_Return v : exec (Return v) fr s = settle fr (Fulfilled v) s.
Proof. destruct s; reflexivity. Qed.

Lemma exec_Throw e : exec (Throw e) fr s = settle fr (Rejected e) s.
Proof. destruct s; reflexivity. Qed.

Lemma exec_NewDate c : exec (NewDate c) fr s = exec (c (clock s)) fr s.
Proof. destruct s; reflexivity. Qed.

Lemma exec_ReadAppState c :
  exec (ReadAppState c) fr s = exec (c (cur_appState s)) fr s.
Proof. destruct s; reflexivity. Qed.

Lemma exec_WriteAppState a c :
  exec (WriteAppState a c) fr s = exec c fr (with_appState a s).
Proof. destruct s; reflexivity. Qed.

Lemma exec_ReadSessionStartTime c :
  exec (ReadSessionStartTime c) fr s = exec (c (cur_sessionStartTime s)) fr s.
Proof. destruct s; reflexivity. Qed.

Lemma exec_WriteSessionStartTime t c :
  exec (WriteSessionStartTime t c) fr s
  = exec c fr (with_sessionStartTime t s).
Proof. destruct s; reflexivity. Qed.

Lemma exec_Issue rq c :
  exec (Issue rq c) fr s = exec (c (fresh s)) fr (issue rq s).
Proof. destruct s; reflexivity. Qed.

Lemma exec_Then p f g c :
  exec (Then p f g c) fr s
  = exec (c (fresh s)) fr (subscribe p (RThen f g (fresh s)) (alloc 0 s)).
Proof. destruct s; reflexivity. Qed.

Lemma exec_PromiseAll l c :
  exec (PromiseAll l c) fr s
  = let d := fresh s in
    let s1 := foldl (fun s' p => subscribe p (RAll d) s')
                (alloc (length l) s) l in
    exec (c d) fr
      (match l with [] => settle d (Fulfilled VUndefined) s1 | _ => s1 end).
Proof. destruct s; reflexivity. Qed.

Lemma exec_Await p h : exec (Await p h) fr s = subscribe p (RAwait h fr) s.
Proof. destruct s; reflexivity. Qed.

Lemma exec_Async body c :
  exec (Async body c) fr s
  = exec (c (fresh s)) fr (exec body (fresh s) (alloc 0 s)).
Proof. destruct s; reflexivity. Qed.

Lemma exec_ConsoleLog v c :
  exec (ConsoleLog v c) fr s = exec c fr (record (Logged v) s).
Proof. destruct s; reflexivity. Qed.

Lemma exec_AddEventListener h c :
  exec (AddEventListener h c) fr s
  = exec c fr (with_listeners (listeners s ++ [h]) s).
Proof. destruct s; reflexivity. Qed.
End Equations.

Lemma subscribe_all_keeps (d : pid) (l : list pid) s :
  good s -> d <> 1 -> Forall (fun p => p <> 1) l ->
  keeps s (foldl (fun s' p => subscribe p (RAll d) s') s l).
Proof.
  intros Hg Hd Hl. revert s Hg.
  induction Hl as [|p l Hp _ IH]; intros s Hg; [apply keeps_refl; exact Hg|].
  simpl. eapply keeps_trans.
  - apply (subscribe_keeps p (RAll d)); [exact Hg|exact Hp|].
    split; [reflexivity|exact Hd].
  - apply IH. apply subscribe_keeps; [exact Hg|exact Hp|].
    split; [reflexivity|exact Hd].
Qed.

(** Safe code, run for a promise other than the read, changes nothing
    that is followed. *)
Lemma exec_safe c :
  safe c -> forall (fr : pid) s, fr <> 1 -> good s -> keeps s (exec c fr s).
Proof.
  induction 1 as
    [v|e|c _ IH|c _ IH|a c _ IH|c _ IH|t c _ IH|rq c Hq _ IH
    |p f g c Hp Hf Hgk _ IH|l c Hl _ IH|p h Hp Hh|body c _ IHb _ IH
    |v c _ IH|h c Hh _ IH];
    intros fr s Hfr Hg.
  - rewrite exec_Return. apply settle_keeps; assumption.
  - rewrite exec_Throw. apply settle_keeps; assumption.
  - rewrite exec_NewDate. apply IH; assumption.
  - rewrite exec_ReadAppState. apply IH; assumption.
  - rewrite exec_WriteAppState.
    pose proof (with_appState_keeps a s Hg) as Hk.
    eapply keeps_trans; [exact Hk|]. apply IH; [exact Hfr|exact (proj1 Hk)].
  - rewrite exec_ReadSessionStartTime. apply IH; assumption.
  - rewrite exec_WriteSessionStartTime.
    pose proof (with_sessionStartTime_keeps t s Hg) as Hk.
    eapply keeps_trans; [exact Hk|]. apply IH; [exact Hfr|exact (proj1 Hk)].
  - rewrite exec_Issue.
    pose proof (issue_keeps rq s Hg Hq) as Hk.
    eapply keeps_trans; [exact Hk|].
    apply IH; [apply fresh_not_1; exact Hg|exact Hfr|exact (proj1 Hk)].
  - rewrite exec_Then.
    pose proof (alloc_keeps 0 s Hg) as Hk1.
    assert (tame (RThen f g (fresh s))) as Htame.
    { split; [simpl; rewrite Hf, Hgk; reflexivity|].
      apply fresh_not_1; exact Hg. }
    pose proof (subscribe_keeps p _ _ (proj1 Hk1) Hp Htame) as Hk2.
    eapply keeps_trans; [exact Hk1|].
    eapply keeps_trans; [exact Hk2|].
    apply IH; [apply fresh_not_1; exact Hg|exact Hfr|exact (proj1 Hk2)].
  - rewrite exec_PromiseAll. cbv zeta.
    pose proof (fresh_not_1 s Hg) as Hd.
    pose proof (alloc_keeps (length l) s Hg) as Hk1.
    pose proof (subscribe_all_keeps (fresh s) l _ (proj1 Hk1) Hd Hl) as Hk2.
    eapply keeps_trans; [exact Hk1|].
    eapply keeps_trans; [exact Hk2|].
    destruct l as [|p l].
    + pose proof (settle_keeps (fresh s) (Fulfilled VUndefined) _
                    (proj1 Hk2) Hd) as Hk3.
      eapply keeps_trans; [exact Hk3|].
      apply IH; [exact Hd|exact Hfr|exact (proj1 Hk3)].
    + apply IH; [exact Hd|exact Hfr|exact (proj1 Hk2)].
  - rewrite exec_Await. apply subscribe_keeps; [exact Hg|exact Hp|].
    split; [|exact Hfr]. simpl. destruct h; try reflexivity. contradiction.
  - rewrite exec_Async.
    pose proof (fresh_not_1 s Hg) as Hd.
    pose proof (alloc_keeps 0 s Hg) as Hk1.
    pose proof (IHb (fresh s) _ Hd (proj1 Hk1)) as Hk2.
    eapply keeps_trans; [exact Hk1|].
    eapply keeps_trans; [exact Hk2|].
    apply IH; [exact Hd|exact Hfr|exact (proj1 Hk2)].
  - rewrite exec_ConsoleLog.
    pose proof (record_keeps (Logged v) s Hg eq_refl) as Hk.
    eapply keeps_trans; [exact Hk|]. apply IH; [exact Hfr|exact (proj1 Hk)].
  - rewrite exec_AddEventListener.
    pose proof (with_listeners_keeps h s Hg Hh) as Hk.
    eapply keeps_trans; [exact Hk|]. apply IH; [exact Hfr|exact (proj1 Hk)].
Qed.

Lemma call_keeps c s : safe c -> good s -> keeps s (call c s).
Proof.
  intros Hc Hg. unfold call.
  pose proof (alloc_keeps 0 s Hg) as Hk.
  eapply keeps_trans; [exact Hk|].
  apply exec_safe; [exact Hc|apply fresh_not_1; exact Hg|exact (proj1 Hk)].
Qed.

(** ** The rest of the class is safe *)

Lemma other_keys :
  endOfLastSession (this_asyncStorageKeys this) <> k
  /\ forall p, markerKey this p <> k.
Proof.
  unfold allKeys in keys_distinct.
  apply NoDup_cons in keys_distinct as [Hk _].
  rewrite !not_elem_of_cons in Hk.
  destruct Hk as (H1 & H2 & H3 & H4 & H5 & _).
  unfold k. split; [congruence|]. intros []; simpl; congruence.
Qed.

Lemma quiet_getItem key : quiet (RqGetItem key).
Proof. split; reflexivity. Qed.

Lemma quiet_setItem key v : key <> k -> quiet (RqSetItem key v).
Proof.
  intros Hk. split; [|reflexivity]. simpl. apply bool_decide_eq_false. exact Hk.
Qed.

Lemma quiet_json res : quiet (RqJson res).
Proof. split; reflexivity. Qed.

Lemma quiet_fetch event data :
  event <> "FIRST_OPEN" -> quiet (RqFetch (eventRequest this event data)).
Proof.
  intros He. split; [reflexivity|]. unfold eventRequest. simpl.
  apply bool_decide_eq_false. exact He.
Qed.

Lemma Done_safe : safe Done.
Proof. constructor. Qed.

Lemma track_safe event data :
  event <> "FIRST_OPEN" -> safe (track this event data).
Proof.
  intros He. unfold track, Fetch.
  constructor; [apply quiet_fetch; exact He|]. intros p1 Hp1.
  constructor; [exact Hp1|reflexivity|reflexivity|]. intros p2 Hp2.
  constructor; [exact Hp2|reflexivity|reflexivity|]. intros _ _.
  apply Done_safe.
Qed.

Lemma send_safe event data :
  event <> "FIRST_OPEN" ->
  safe (Async (track this event data) (fun _ => Done)).
Proof.
  intros He. constructor; [apply track_safe; exact He|].
  intros _ _. apply Done_safe.
Qed.

Lemma startSession_safe : safe (startSession this).
Proof.
  unfold startSession, GetItem. constructor. intros now. constructor.
  constructor; [apply quiet_getItem|]. intros p Hp.
  constructor; [exact Hp|discriminate].
Qed.

Lemma afterStartSession_safe v : safe (afterStartSession this v).
Proof.
  unfold afterStartSession.
  destruct v; try (apply send_safe; discriminate).
  destruct (JsString.nonempty _); [|apply send_safe; discriminate].
  constructor. intros now. apply send_safe; discriminate.
Qed.

Lemma endSession_safe c : safe c -> safe (endSession this c).
Proof.
  intros Hc. unfold endSession, SetItem.
  constructor. intros now. constructor. intros start.
  constructor; [apply track_safe; discriminate|]. intros _ _.
  constructor. intros now'.
  constructor; [apply quiet_setItem; exact (proj1 other_keys)|].
  intros _ _. exact Hc.
Qed.

Lemma eventName_other p : eventName p <> "FIRST_OPEN".
Proof. destruct p; discriminate. Qed.

Lemma trackThenMark_safe p : safe (trackThenMark this p).
Proof.
  unfold trackThenMark.
  constructor; [apply track_safe; apply eventName_other|]. intros q Hq.
  constructor; [exact Hq|reflexivity|reflexivity|]. intros _ _.
  apply Done_safe.
Qed.

Lemma onTracked_safe p : safe (onTracked this p).
Proof.
  unfold onTracked, SetItem. constructor. intros now.
  constructor; [apply quiet_setItem; exact (proj2 other_keys p)|].
  intros _ _. apply Done_safe.
Qed.

Lemma trackPeriodActiveUser_safe p : safe (trackPeriodActiveUser this p).
Proof.
  unfold trackPeriodActiveUser, GetItem.
  constructor; [apply quiet_getItem|]. intros r Hr.
  constructor; [exact Hr|discriminate].
Qed.

Lemma afterCadenceRead_safe p v : safe (afterCadenceRead this p v).
Proof.
  unfold afterCadenceRead.
  destruct v; try apply trackThenMark_safe.
  destruct (JsString.nonempty _); [|apply trackThenMark_safe].
  constructor. intros now.
  destruct (timeCondition _ _ _ _); [apply trackThenMark_safe|apply Done_safe].
Qed.

Lemma trackActiveUser_safe c : safe c -> safe (trackActiveUser this c).
Proof.
  intros Hc. unfold trackActiveUser, trackDailyActiveUser,
    trackWeeklyActiveUser, trackMonthlyActiveUser, trackYearlyActiveUser.
  repeat (constructor; [apply trackPeriodActiveUser_safe|]; intros _ _).
  exact Hc.
Qed.

Lemma onAppStateChange_safe next : safe (onAppStateChange this next).
Proof.
  unfold onAppStateChange. constructor. intros a1.
  assert (safe (ReadAppState (fun a2 =>
            (if bool_decide (a2 = active) && matchInactiveBackground next
             then endSession this else fun c => c)
              (WriteAppState next Done)))) as Hrest.
  { constructor. intros a2.
    destruct (bool_decide (a2 = active) && matchInactiveBackground next).
    - apply endSession_safe. constructor. apply Done_safe.
    - constructor. apply Done_safe. }
  destruct (matchInactiveBackground a1 && bool_decide (next = active));
    [|exact Hrest].
  assert (safe (Async (startSession this) (fun _ =>
            ReadAppState (fun a2 =>
            (if bool_decide (a2 = active) && matchInactiveBackground next
             then endSession this else fun c => c)
              (WriteAppState next Done))))) as Hstart.
  { constructor; [apply startSession_safe|]. intros _ _. exact Hrest. }
  destruct (truthyB (automaticallyTrackActiveUsers (this_config this)));
    [apply trackActiveUser_safe|]; exact Hstart.
Qed.

Lemma onFetchThen_safe res : safe (onFetchThen res).
Proof.
  unfold onFetchThen, ResJson. constructor; [apply quiet_json|]. intros p Hp.
  constructor; [exact Hp|reflexivity|reflexivity|]. intros _ _.
  apply Done_safe.
Qed.

Lemma onJsonThen_safe json : safe (onJsonThen this json).
Proof.
  unfold onJsonThen. destruct (truthyB _); [constructor|]; apply Done_safe.
Qed.

Lemma onFetchCatch_safe err : safe (onFetchCatch this err).
Proof.
  unfold onFetchCatch. destruct (truthyB _); repeat constructor.
Qed.

(** Every callback of the class but the first-open one is safe. *)
Lemma handler_safe h v : h <> KFirstOpen -> safe (handler this h v).
Proof.
  intros Hh. destruct h; simpl.
  - destruct v; try apply Done_safe. apply onAppStateChange_safe.
  - apply afterStartSession_safe.
  - contradiction.
  - apply afterCadenceRead_safe.
  - apply onTracked_safe.
  - apply onFetchThen_safe.
  - apply onJsonThen_safe.
  - apply onFetchCatch_safe.
  - apply Done_safe.
Qed.

(** What [init()] does after it has started the first-open check. *)
Definition afterCheck : code :=
  (if truthyB (automaticallyTrackActiveUsers (this_config this))
   then trackActiveUser this else fun c => c)
    (Async (startSession this) (fun _ => Done)).

Lemma afterCheck_safe : safe afterCheck.
Proof.
  unfold afterCheck.
  assert (safe (Async (startSession this) (fun _ => Done))) as Hs.
  { constructor; [apply startSession_safe|]. intros _ _. apply Done_safe. }
  destruct (truthyB _); [apply trackActiveUser_safe|]; exact Hs.
Qed.

(** ** The phases of the check *)

(** What [getItem] resolves with. *)
Definition asked (v0 : option string) : val :=
  match v0 with Some v => VStr v | None => VNull end.

(** The callback [setFirstOpenTime()] registers on the read. *)
Definition checkReaction : reaction := RThen (Some KFirstOpen) None 2.

Definition firstOpenWrite (w : pid) (t : Z) : action :=
  Issued w (RqSetItem k (dateToString t)).

Definition firstOpenSend (f : pid) : action :=
  Issued f (RqFetch (eventRequest this "FIRST_OPEN" [])).

Inductive phase :=
| Waiting                        (* the read is outstanding *)
| Queued                         (* the callback is in the microtask queue *)
| Present                        (* the callback found a marker *)
| Writing (w f : pid) (t : Z)    (* it found none: write outstanding *)
| Written (w f : pid) (t : Z).   (* the write has reached the store *)

(** The view in each phase, for a launch that found [v0] under the key. *)
Definition expect (v0 : option string) (ph : phase) (c : Z) : View :=
  match ph with
  | Waiting =>
      {| v_clock := c;
         v_read := Some (Pending 0 [checkReaction]);
         v_marker := v0;
         v_marks := [];
         v_jobs := [];
         v_requests := [(1, RqGetItem k)] |}
  | Queued =>
      {| v_clock := c;
         v_read := Some (Settled (Fulfilled (asked v0)));
         v_marker := v0;
         v_marks := [];
         v_jobs := [(checkReaction, Fulfilled (asked v0))];
         v_requests := [] |}
  | Present =>
      {| v_clock := c;
         v_read := Some (Settled (Fulfilled (asked v0)));
         v_marker := v0;
         v_marks := [];
         v_jobs := [];
         v_requests := [] |}
  | Writing w f t =>
      {| v_clock := c;
         v_read := Some (Settled (Fulfilled (asked v0)));
         v_marker := v0;
         v_marks := [firstOpenWrite w t; firstOpenSend f];
         v_jobs := [];
         v_requests := [(w, RqSetItem k (dateToString t))] |}
  | Written w f t =>
      {| v_clock := c;
         v_read := Some (Settled (Fulfilled (asked v0)));
         v_marker := Some (dateToString t);
         v_marks := [firstOpenWrite w t; firstOpenSend f];
         v_jobs := [];
         v_requests := [] |}
  end.

Definition side (t0 : Z) (v0 : option string) (ph : phase) (c : Z) : Prop :=
  (t0 <= c)%Z /\
  match ph with
  | Waiting | Queued => True
  | Present => truthy (asked v0) = true
  | Writing w _ t | Written w _ t =>
      truthy (asked v0) = false /\ (t0 <= t <= c)%Z /\ w <> 1
  end.

Definition looks (t0 : Z) (v0 : option string) (ph : phase) (s : state) : Prop :=
  view s = expect v0 ph (clock s) /\ side t0 v0 ph (clock s).

(** The invariant of a launch at [t0] that found [v0] under the key. *)
Definition inv (t0 : Z) (v0 : option string) (s : state) : Prop :=
  good s /\ exists ph, looks t0 v0 ph s.

Lemma keeps_clock s s' : keeps s s' -> clock s' = clock s.
Proof. intros [_ Hv]. exact (f_equal v_clock Hv). Qed.

Lemma keeps_looks t0 v0 ph s s' :
  keeps s s' -> looks t0 v0 ph s -> looks t0 v0 ph s'.
Proof.
  intros Hk [Hv Hs]. unfold looks.
  rewrite (keeps_clock _ _ Hk), (proj2 Hk). split; assumption.
Qed.

Lemma keeps_inv t0 v0 s s' : keeps s s' -> inv t0 v0 s -> inv t0 v0 s'.
Proof.
  intros Hk [_ [ph Hl]]. split; [exact (proj1 Hk)|].
  exists ph. exact (keeps_looks _ _ _ _ _ Hk Hl).
Qed.

(** *** Microtasks *)

Lemma run_job_keeps j s :
  good s -> firstOpenReaction j.1 = false -> target j.1 <> 1 ->
  keeps s (run_job this j s).
Proof.
  intros Hg Hfo Ht.
  assert (forall h v (d : pid), isFirstOpen (Some h) = false -> d <> 1 ->
            keeps s (exec (handler this h v) d s)) as Hrun.
  { intros h v d Hh Hd. apply exec_safe; [|exact Hd|exact Hg].
    apply handler_safe. intros ->. discriminate. }
  destruct j as [[[h|] [h'|] d|h fr|d] [v|e]]; cbn [fst target] in Hfo, Ht;
    cbn [run_job]; cbn [firstOpenReaction] in Hfo;
    try apply orb_false_elim in Hfo as [Hf Hf'];
    first [ apply settle_keeps; assumption
          | apply countdown_keeps; assumption
          | apply Hrun; assumption ].
Qed.

Lemma afterFetch_safe (p1 : pid) :
  p1 <> 1 ->
  safe (Then p1 (Some KFetchThen) None (fun p2 =>
        Then p2 None (Some KFetchCatch) (fun _ => Done))).
Proof.
  intros Hp1. constructor; [exact Hp1|reflexivity|reflexivity|].
  intros p2 Hp2. constructor; [exact Hp2|reflexivity|reflexivity|].
  intros _ _. apply Done_safe.
Qed.

Lemma noted_write (w : pid) t v :
  noted w (RqSetItem k (dateToString t)) v
  = {| v_clock := v_clock v;
       v_read := v_read v;
       v_marker := v_marker v;
       v_marks := v_marks v ++ [firstOpenWrite w t];
       v_jobs := v_jobs v;
       v_requests := v_requests v ++ [(w, RqSetItem k (dateToString t))] |}.
Proof.
  unfold noted, special. cbn [List.filter notable touches fst snd].
  rewrite bool_decide_eq_true_2 by reflexivity.
  rewrite orb_true_r. reflexivity.
Qed.

Lemma noted_send (f : pid) v :
  f <> 1 ->
  noted f (RqFetch (eventRequest this "FIRST_OPEN" [])) v
  = {| v_clock := v_clock v;
       v_read := v_read v;
       v_marker := v_marker v;
       v_marks := v_marks v ++ [firstOpenSend f];
       v_jobs := v_jobs v;
       v_requests := v_requests v |}.
Proof.
  intros Hf. apply Nat.eqb_neq in Hf.
  unfold noted, special. cbn [List.filter notable touches fst snd].
  rewrite Hf. unfold sendsFirstOpen, eventRequest.
  cbn [req_body eventRecord ev_type orb]. 
  rewrite bool_decide_eq_true_2 by reflexivity.
  rewrite app_nil_r. reflexivity.
Qed.

(** The callback of the check, run on a state whose view is [v]: either
    nothing changes, or the write and the send are issued, in this
    order. *)
Lemma check_runs v0 s :
  good s ->
  exists s',
    exec (onFirstOpenTime this (asked v0)) 2 s = s' /\ good s'
    /\ (if truthy (asked v0) then view s' = view s
        else exists w f : pid,
          w <> 1 /\
          view s' =
            {| v_clock := v_clock (view s);
               v_read := v_read (view s);
               v_marker := v_marker (view s);
               v_marks := v_marks (view s)
                            ++ [firstOpenWrite w (clock s); firstOpenSend f];
               v_jobs := v_jobs (view s);
               v_requests := v_requests (view s)
                            ++ [(w, RqSetItem k (dateToString (clock s)))] |}).
Proof.
  intros Hg. eexists. split; [reflexivity|]. unfold onFirstOpenTime, Done.
  destruct (truthy (asked v0)).
  - rewrite exec_Return.
    exact (settle_keeps 2 _ s Hg ltac:(discriminate)).
  - unfold SetItem. rewrite exec_NewDate, exec_Issue, exec_Async.
    fold k.
    set (s1 := issue (RqSetItem k (dateToString (clock s))) s).
    pose proof (issue_good (RqSetItem k (dateToString (clock s))) s Hg) as Hg1.
    pose proof (issue_view (RqSetItem k (dateToString (clock s))) s Hg) as Hv1.
    fold s1 in Hg1, Hv1.
    pose proof (alloc_keeps 0 s1 Hg1) as [Hg2 Hv2].
    set (s2 := alloc 0 s1) in *.
    unfold track, Fetch. rewrite exec_Issue.
    pose proof (issue_good (RqFetch (eventRequest this "FIRST_OPEN" [])) s2 Hg2)
      as Hg3.
    pose proof (issue_view (RqFetch (eventRequest this "FIRST_OPEN" [])) s2 Hg2)
      as Hv3.
    set (s3 := issue (RqFetch (eventRequest this "FIRST_OPEN" [])) s2) in *.
    pose proof (exec_safe _ (afterFetch_safe (fresh s2) (fresh_not_1 s2 Hg2))
                  (fresh s1) s3 (fresh_not_1 s1 Hg1) Hg3) as [Hg4 Hv4].
    match goal with
    | |- context [exec (Return VUndefined) 2 ?x] => set (s4 := x) in *
    end.
    rewrite exec_Return.
    pose proof (settle_keeps 2 (Fulfilled VUndefined) s4 Hg4 ltac:(discriminate))
      as [Hg5 Hv5].
    split; [exact Hg5|].
    exists (fresh s), (fresh s2). split; [apply fresh_not_1; exact Hg|].
    rewrite Hv5, Hv4, Hv3, Hv2, Hv1.
    rewrite noted_write, noted_send by (apply fresh_not_1; exact Hg2).
    cbn [v_clock v_read v_marker v_marks v_jobs v_requests].
    rewrite <- app_assoc. reflexivity.
Qed.

Lemma looks_intro t0 v0 ph c s :
  view s = expect v0 ph c -> side t0 v0 ph c -> looks t0 v0 ph s.
Proof.
  intros Hv Hs.
  assert (clock s = c) as <-; [|split; assumption].
  change (v_clock (view s) = c). rewrite Hv. destruct ph; reflexivity.
Qed.

Definition with_v_jobs (js : list (reaction * settled)) (v : View) : View :=
  {| v_clock := v_clock v;
     v_read := v_read v;
     v_marker := v_marker v;
     v_marks := v_marks v;
     v_jobs := js;
     v_requests := v_requests v |}.

Definition with_v_clock (c : Z) (v : View) : View :=
  {| v_clock := c;
     v_read := v_read v;
     v_marker := v_marker v;
     v_marks := v_marks v;
     v_jobs := v_jobs v;
     v_requests := v_requests v |}.

Lemma job_inv t0 v0 s j js :
  inv t0 v0 s -> jobs s = j :: js ->
  inv t0 v0 (run_job this j (with_jobs js s)).
Proof.
  intros [Hg [ph [Hv Hs]]] Hjobs.
  assert (good (with_jobs js s)) as Hg'.
  { destruct Hg as [H1 H2 H3 H4]. destruct s. fields. subst.
    split; fields; try assumption. exact (Forall_inv_tail H3). }
  assert (target j.1 <> 1) as Ht.
  { destruct Hg as [_ _ H3 _]. rewrite Hjobs in H3. exact (Forall_inv H3). }
  assert (view (with_jobs js s)
          = with_v_jobs (List.filter (fun j => firstOpenReaction j.1) js) (view s))
    as Hpop.
  { destruct s. reflexivity. }
  assert (v_jobs (view s)
          = List.filter (fun j => firstOpenReaction j.1) (j :: js)) as Hjs.
  { destruct s. fields. subst. reflexivity. }
  cbn [List.filter] in Hjs.
  destruct (firstOpenReaction j.1) eqn:Hfo.
  - (* the callback of the check *)
    rewrite Hv in Hjs, Hpop.
    destruct ph; cbn [expect v_jobs] in Hjs; try discriminate.
    injection Hjs as <- Hjs. rewrite <- Hjs in Hpop.
    change (inv t0 v0 (exec (onFirstOpenTime this (asked v0)) 2 (with_jobs js s))).
    destruct (check_runs v0 _ Hg') as (s' & -> & Hg'' & Hout).
    split; [exact Hg''|]. destruct Hs as [Ht0 _].
    assert (clock (with_jobs js s) = clock s) as Hc by (destruct s; reflexivity).
    destruct (truthy (asked v0)) eqn:Htr.
    + exists Present. apply (looks_intro _ _ _ (clock s)).
      * rewrite Hout, Hpop. reflexivity.
      * split; [exact Ht0|exact Htr].
    + destruct Hout as (w & f & Hw & Hout).
      exists (Writing w f (clock s)). apply (looks_intro _ _ _ (clock s)).
      * rewrite Hout, Hpop, Hc. reflexivity.
      * split; [exact Ht0|]. split; [exact Htr|]. split; [lia|exact Hw].
  - assert (keeps s (with_jobs js s)) as Hk.
    { split; [exact Hg'|]. rewrite Hpop, <- Hjs. destruct (view s); reflexivity. }
    apply (keeps_inv _ _ s); [|split; [exact Hg|exists ph; split; assumption]].
    eapply keeps_trans; [exact Hk|].
    apply run_job_keeps; assumption.
Qed.

(** *** Completions *)

Lemma take_request_split (p : pid) pd rq rest :
  take_request p pd = Some (rq, rest) ->
  exists l1 l2, pd = l1 ++ (p, rq) :: l2 /\ rest = l1 ++ l2.
Proof.
  revert rest. induction pd as [|[q rq'] pd IH]; intros rest Hq; [discriminate|].
  simpl in Hq. destruct (Nat.eqb p q) eqn:E.
  - apply Nat.eqb_eq in E as ->. injection Hq as -> ->.
    exists [], rest. split; reflexivity.
  - destruct (take_request p pd) as [[rq'' r']|]; [|discriminate].
    injection Hq as -> <-. destruct (IH _ eq_refl) as (l1 & l2 & -> & ->).
    exists ((q, rq') :: l1), l2. split; reflexivity.
Qed.

Lemma app_cons_single {A} (l1 l2 : list A) x y :
  l1 ++ x :: l2 = [y] -> l1 = [] /\ x = y /\ l2 = [].
Proof.
  destruct l1 as [|z l1]; simpl; intros Heq.
  - injection Heq as -> ->. auto.
  - injection Heq as _ Heq. destruct l1; discriminate.
Qed.

Lemma perform_other rq a s s1 r :
  touches rq = false -> perform rq a s = Some (s1, r) ->
  good s -> good s1 /\ view s1 = view s.
Proof.
  intros Ht Hp [H1 H2 H3 H4]. destruct s as [m t ps pd js tr ls a0 st].
  destruct rq, a; simpl in Hp; try discriminate; injection Hp as <- <-;
    (split; [split; fields; assumption|]); try reflexivity;
    simpl in Ht; apply bool_decide_eq_false in Ht;
    unfold view; fields; f_equal.
  - unfold AsyncStorage.setItem. apply lookup_insert_ne. exact Ht.
  - unfold AsyncStorage.removeItem. apply lookup_delete_ne. exact Ht.
Qed.

Lemma settle_pending (p : pid) o s n rs :
  promises s !! p = Some (Pending n rs) ->
  settle p o s
  = with_jobs (jobs s ++ map (fun r => (r, o)) rs)
      (with_promises (<[p := Settled o]> (promises s)) s).
Proof. unfold settle. intros ->. reflexivity. Qed.

(** The store carries out what it is asked. *)
Definition carriedOut (a : answer) : Prop :=
  match a with StoreFails _ => False | _ => True end.

Lemma complete_inv t0 v0 (p : pid) a s s' :
  carriedOut a -> inv t0 v0 s -> complete p a s = Some s' -> inv t0 v0 s'.
Proof.
  intros Ha [Hg [ph [Hv Hs]]] Hc. unfold complete in Hc.
  destruct (take_request p (pending s)) as [[rq rest]|] eqn:Htake;
    [|discriminate].
  destruct (perform rq a (with_pending rest s)) as [[s1 r]|] eqn:Hperf;
    [|discriminate].
  injection Hc as <-.
  destruct (take_request_split _ _ _ _ Htake) as (l1 & l2 & Hpd & ->).
  assert (good (with_pending (l1 ++ l2) s)) as Hg0.
  { destruct Hg as [H1 H2 H3 H4]. destruct s. split; fields; assumption. }
  assert (v_requests (view s)
          = List.filter special l1
            ++ (if special (p, rq) then [(p, rq)] else [])
            ++ List.filter special l2) as Hrq.
  { destruct s. fields. subst. unfold view. fields.
    rewrite List.filter_app. cbn [List.filter].
    destruct (special (p, rq)); reflexivity. }
  destruct (special (p, rq)) eqn:Hsp.
  - (* the read or the write of the check *)
    rewrite Hv in Hrq.
    destruct ph; cbn [expect v_requests] in Hrq;
      try (symmetry in Hrq; apply app_cons_single in Hrq as (Hl1 & Hx & Hl2));
      try (destruct (List.filter special l1); discriminate).
    + (* the read completes *)
      injection Hx as -> ->.
      destruct a; simpl in Hperf; [|contradiction|discriminate].
      injection Hperf as <- <-.
      destruct Hg as [H1 H2 H3 H4]. destruct Hs as [Ht0 _].
      destruct s as [m t ps pd js tr ls a0 st]. fields. subst pd.
      unfold view in Hv. fields. cbn [expect] in Hv.
      injection Hv as Hread Hmark Hmarks Hjobs Hreqs.
      rewrite (settle_pending 1 _ _ 0 [checkReaction]) by exact Hread.
      fields. cbn [map].
      unfold AsyncStorage.getItem. fold k. rewrite Hmark. fold (asked v0).
      split.
      * split; fields.
        -- rewrite length_insert. exact H1.
        -- intros q x Hq Hx. rewrite list_lookup_insert_ne in Hx by congruence.
           exact (H2 q x Hq Hx).
        -- apply Forall_app. split; [exact H3|].
           constructor; [discriminate|constructor].
        -- exact H4.
      * exists Queued. apply (looks_intro _ _ _ t); [|split; [exact Ht0|exact I]].
        unfold view. fields. cbn [expect].
        rewrite list_lookup_insert_eq by lia.
        rewrite filter_app_single by reflexivity.
        rewrite !List.filter_app, Hl1, Hl2, Hjobs, Hmarks, Hmark.
        reflexivity.
    + (* the write completes *)
      injection Hx as -> ->.
      destruct a; simpl in Hperf; [|contradiction|discriminate].
      injection Hperf as <- <-.
      destruct Hs as (Ht0 & Htr & Ht & Hw).
      set (s1 := with_store _ _).
      assert (good s1) as Hg1.
      { destruct Hg0 as [H1 H2 H3 H4]. subst s1. destruct s.
        split; fields; assumption. }
      assert (view s1 = expect v0 (Written w f t) (clock s)) as Hv1.
      { subst s1. destruct s as [m c ps pd js tr ls a0 st]. fields. subst pd.
        unfold view in Hv |- *. fields. cbn [expect] in Hv |- *.
        injection Hv as Hread Hmark Hmarks Hjobs Hreqs.
        rewrite Hread, Hmarks, Hjobs, List.filter_app, Hl1, Hl2.
        unfold AsyncStorage.setItem. rewrite lookup_insert_eq. reflexivity. }
      pose proof (record_keeps (Completed w (Fulfilled VNull)) s1 Hg1 eq_refl)
        as Hk1.
      pose proof (settle_keeps w (Fulfilled VNull) _ (proj1 Hk1) Hw) as Hk2.
      split; [exact (proj1 Hk2)|]. exists (Written w f t).
      apply (looks_intro _ _ _ (clock s)).
      * rewrite (proj2 Hk2), (proj2 Hk1). exact Hv1.
      * split; [exact Ht0|]. split; [exact Htr|]. split; [exact Ht|exact Hw].
  - (* any other request *)
    apply (keeps_inv _ _ s); [|split; [exact Hg|exists ph; split; assumption]].
    assert (view (with_pending (l1 ++ l2) s) = view s) as Hv0.
    { destruct s. fields. subst. unfold view. fields.
      rewrite !List.filter_app. cbn [List.filter]. rewrite Hsp. reflexivity. }
    unfold special in Hsp. cbn [fst snd] in Hsp.
    apply orb_false_elim in Hsp as [Hp Ht]. apply Nat.eqb_neq in Hp.
    destruct (perform_other _ _ _ _ _ Ht Hperf Hg0) as [Hg1 Hv1].
    pose proof (record_keeps (Completed p r) s1 Hg1 eq_refl) as Hk1.
    pose proof (settle_keeps p r _ (proj1 Hk1) Hp) as Hk2.
    split; [exact (proj1 Hk2)|].
    rewrite (proj2 Hk2), (proj2 Hk1), Hv1, Hv0. reflexivity.
Qed.

(** *** Time, signals, calls *)

Lemma view_with_clock c s : view (with_clock c s) = with_v_clock c (view s).
Proof. destruct s. reflexivity. Qed.

Lemma tick_inv t0 v0 (ms : N) s :
  inv t0 v0 s -> inv t0 v0 (with_clock (clock s + Z.of_N ms) s).
Proof.
  intros [Hg [ph [Hv Hs]]]. split.
  - destruct Hg as [H1 H2 H3 H4]. destruct s. split; fields; assumption.
  - exists ph. apply (looks_intro _ _ _ (clock s + Z.of_N ms)%Z).
    + rewrite view_with_clock, Hv. destruct ph; reflexivity.
    + destruct Hs as [Ht0 Hs]. split; [lia|].
      destruct ph; try exact Hs;
        destruct Hs as (Htr & Ht & Hw); (split; [exact Htr|split; [lia|exact Hw]]).
Qed.

Lemma listeners_keep next (l : list kont) s :
  Forall (fun h => h <> KFirstOpen) l -> good s ->
  keeps s (foldl (fun s' h => call (handler this h (VAppState next)) s') s l).
Proof.
  intros Hl. revert s.
  induction Hl as [|h l Hh _ IH]; intros s Hg; [apply keeps_refl; exact Hg|].
  simpl.
  pose proof (call_keeps _ s (handler_safe h (VAppState next) Hh) Hg) as Hk.
  eapply keeps_trans; [exact Hk|]. apply IH. exact (proj1 Hk).
Qed.

Lemma signal_keeps next s : good s -> keeps s (signal this next s).
Proof. intros Hg. apply listeners_keep; [apply Hg|exact Hg]. Qed.

(** What may happen in a launch besides: the application calls code that
    is safe, and the store carries out what it is asked. *)
Definition allowed (i : input) : Prop :=
  match i with
  | ICall c => safe c
  | IComplete _ a => carriedOut a
  | _ => True
  end.

(** Every step keeps the invariant. *)
Lemma step_inv t0 v0 i s s' :
  allowed i -> inv t0 v0 s -> step this i s = Some s' -> inv t0 v0 s'.
Proof.
  intros Hi Hinv Hstep. unfold step in Hstep.
  destruct i as [|p a|ms|next|c], (jobs s) as [|j js] eqn:Hjobs;
    try discriminate.
  - injection Hstep as <-. apply job_inv; assumption.
  - exact (complete_inv _ _ _ _ _ _ Hi Hinv Hstep).
  - injection Hstep as <-. apply tick_inv. exact Hinv.
  - injection Hstep as <-.
    exact (keeps_inv _ _ _ _ (signal_keeps next s (proj1 Hinv)) Hinv).
  - injection Hstep as <-.
    exact (keeps_inv _ _ _ _ (call_keeps c s Hi (proj1 Hinv)) Hinv).
Qed.

Lemma run_inv t0 v0 ins s s' :
  Forall allowed ins -> inv t0 v0 s -> run this ins s = Some s' -> inv t0 v0 s'.
Proof.
  intros Hins. revert s.
  induction Hins as [|i ins Hi _ IH]; intros s Hinv Hrun; simpl in Hrun.
  - injection Hrun as <-. exact Hinv.
  - destruct (step this i s) as [s1|] eqn:Hstep; [|discriminate].
    exact (IH s1 (step_inv _ _ _ _ _ Hi Hinv Hstep) Hrun).
Qed.

(** *** The launch *)

(** The process once [init()] has returned, launched at [t] on store [m]. *)
Definition launched (m : gmap string string) (t : Z) : state :=
  call (init this) (boot this m t).

Definition checking (m : gmap string string) (t : Z) : state :=
  {| store := m;
     clock := t;
     promises := [Pending 0 []; Pending 0 [checkReaction]; Pending 0 []];
     pending := [(1, RqGetItem k)];
     jobs := [];
     trace := [Issued 1 (RqGetItem k)];
     listeners := [KListener];
     cur_appState := this_appState this;
     cur_sessionStartTime := this_sessionStartTime this |}.

Lemma launched_checking m t : launched m t = exec afterCheck 0 (checking m t).
Proof. reflexivity. Qed.

Lemma launch_inv m t : inv t (m !! k) (launched m t).
Proof.
  rewrite launched_checking.
  assert (good (checking m t)) as Hg.
  { split; simpl.
    - lia.
    - intros [|[|[|p]]] x Hp Hx; try discriminate; try contradiction;
        injection Hx as <-; constructor.
    - constructor.
    - constructor; [discriminate|constructor]. }
  apply (keeps_inv _ _ (checking m t)).
  - apply exec_safe; [apply afterCheck_safe|discriminate|exact Hg].
  - split; [exact Hg|]. exists Waiting. split; [reflexivity|].
    split; [simpl; lia|exact I].
Qed.

Lemma reach_inv m t ins s :
  Forall allowed ins -> run this ins (launched m t) = Some s ->
  inv t (m !! k) s.
Proof. intros Hins. apply run_inv; [exact Hins|apply launch_inv]. Qed.

(** *** What is observed of a launch *)

(** The FIRST_OPEN events sent so far. *)
Definition firstOpens (s : state) : nat :=
  length (List.filter (fun e => bool_decide (e = "FIRST_OPEN")) (emissions s)).

(** A marker: a string under the key that [!firstOpenTime] lets pass. The
    class writes date strings there, which are never empty. *)
Definition marked (m : gmap string string) : bool :=
  match m !! k with Some v => JsString.nonempty v | None => false end.

Definition isStorage (rq : request) : bool :=
  match rq with
  | RqGetItem _ | RqSetItem _ _ | RqRemoveItem _ => true
  | _ => false
  end.

(** No microtask is queued and the store has answered every request. *)
Definition idle (s : state) : bool :=
  match jobs s with
  | [] => forallb (fun x => negb (isStorage x.2)) (pending s)
  | _ :: _ => false
  end.

(** A write of the key is outstanding. *)
Definition writing (s : state) : bool :=
  existsb (fun x => touches x.2) (pending s).

(** What the process has asked for that concerns the check, in order. *)
Definition asks (s : state) : list action := List.filter notable (trace s).

Lemma marked_asked m : marked m = truthy (asked (m !! k)).
Proof. unfold marked. destruct (m !! k); reflexivity. Qed.

Lemma firstOpens_asks s :
  firstOpens s = length (List.filter isFirstOpenSend (asks s)).
Proof.
  unfold firstOpens, emissions, asks.
  induction (trace s) as [|a l IH]; [reflexivity|].
  cbn [omap list_omap List.filter].
  destruct a as [p [key|key v|key|r|res]|p o|v]; cbn [fetchOf fmap option_fmap
    option_map notable isFirstOpenSend touches sendsFirstOpen orb];
    try exact IH.
  - destruct (bool_decide (key = k)); cbn [List.filter isFirstOpenSend
      sendsFirstOpen]; exact IH.
  - destruct (bool_decide (key = k)); cbn [List.filter isFirstOpenSend
      sendsFirstOpen]; exact IH.
  - cbn [List.filter]. destruct (bool_decide (ev_type (req_body r) = "FIRST_OPEN"))
      eqn:E; cbn [List.filter isFirstOpenSend sendsFirstOpen]; rewrite ?E;
      cbn [length]; rewrite IH; reflexivity.
Qed.

Lemma writing_requests s :
  writing s = existsb (fun x => touches x.2) (v_requests (view s)).
Proof.
  unfold writing, view. cbn [v_requests].
  induction (pending s) as [|x l IH]; [reflexivity|].
  cbn [existsb List.filter]. unfold special at 1.
  destruct (touches x.2) eqn:E.
  - rewrite orb_true_r. cbn [existsb]. rewrite E. reflexivity.
  - rewrite orb_false_r. destruct (Nat.eqb x.1 1); cbn [existsb orb];
      rewrite ?E; exact IH.
Qed.

Lemma busy_request x s :
  In x (v_requests (view s)) -> isStorage x.2 = true -> idle s = false.
Proof.
  unfold view, idle. cbn [v_requests]. intros Hx Hst.
  apply List.filter_In in Hx as [Hx _].
  destruct (jobs s); [|reflexivity].
  destruct (forallb _ (pending s)) eqn:E; [|reflexivity].
  rewrite forallb_forall in E. specialize (E x Hx). rewrite Hst in E.
  discriminate.
Qed.

Lemma busy_job s : v_jobs (view s) <> [] -> idle s = false.
Proof.
  unfold view, idle. cbn [v_jobs].
  destruct (jobs s); [intros Hn; contradiction Hn; reflexivity|reflexivity].
Qed.

(** What a launch on store [m] at [t] has come to when it is in state [s]:
    with a marker it has done nothing about the key; without one it is
    either still about to run the check, or it has asked for the write of
    an instant of its lifetime and then for the send, once, and the write
    is outstanding or has reached the store. *)
Definition outcome (m : gmap string string) (t : Z) (s : state) : Prop :=
  if marked m
  then firstOpens s = 0 /\ asks s = [] /\ store s !! k = m !! k
  else
    (firstOpens s = 0 /\ asks s = [] /\ store s !! k = m !! k
     /\ idle s = false)
    \/ (firstOpens s = 1
        /\ exists (w f : pid) t',
             (t <= t' <= clock s)%Z
             /\ asks s = [firstOpenWrite w t'; firstOpenSend f]
             /\ if writing s
                then store s !! k = m !! k /\ idle s = false
                else store s !! k = Some (dateToString t')).

Lemma firstOpens_pair (w f : pid) t s :
  asks s = [firstOpenWrite w t; firstOpenSend f] -> firstOpens s = 1.
Proof.
  intros Ha. rewrite firstOpens_asks, Ha. unfold firstOpenSend, eventRequest.
  reflexivity.
Qed.

Lemma firstOpens_none s : asks s = [] -> firstOpens s = 0.
Proof. intros Ha. rewrite firstOpens_asks, Ha. reflexivity. Qed.

Lemma inv_outcome m t s : inv t (m !! k) s -> outcome m t s.
Proof.
  intros [_ [ph [Hv Hs]]]. unfold outcome. rewrite marked_asked.
  pose proof (f_equal v_marks Hv) as Hasks.
  pose proof (f_equal v_marker Hv) as Hmark.
  pose proof (f_equal v_requests Hv) as Hreq.
  pose proof (f_equal v_jobs Hv) as Hjobs.
  change (v_marks (view s)) with (asks s) in Hasks.
  change (v_marker (view s)) with (store s !! k) in Hmark.
  destruct Hs as [Ht0 Hs].
  destruct ph as [| | |w f t'|w f t']; cbn [expect v_marks v_marker v_requests
    v_jobs] in Hasks, Hmark, Hreq, Hjobs.
  - assert (idle s = false) as Hidle.
    { apply (busy_request (1, RqGetItem k)); [|reflexivity].
      rewrite Hreq. left. reflexivity. }
    destruct (truthy _);
      [|left]; repeat split; auto using firstOpens_none.
  - assert (idle s = false) as Hidle.
    { apply busy_job. rewrite Hjobs. discriminate. }
    destruct (truthy _);
      [|left]; repeat split; auto using firstOpens_none.
  - rewrite Hs. repeat split; auto using firstOpens_none.
  - destruct Hs as (-> & Ht & Hw). right.
    split; [exact (firstOpens_pair w f t' s Hasks)|].
    exists w, f, t'. split; [exact Ht|]. split; [exact Hasks|].
    rewrite writing_requests, Hreq. cbn [existsb touches snd].
    rewrite bool_decide_eq_true_2 by reflexivity. cbn [orb].
    split; [exact Hmark|].
    apply (busy_request (w, RqSetItem k (dateToString t'))); [|reflexivity].
    rewrite Hreq. left. reflexivity.
  - destruct Hs as (-> & Ht & Hw). right.
    split; [exact (firstOpens_pair w f t' s Hasks)|].
    exists w, f, t'. split; [exact Ht|]. split; [exact Hasks|].
    rewrite writing_requests, Hreq. exact Hmark.
Qed.

(** One launch, any schedule. *)
Lemma launch_outcome m t ins s :
  Forall allowed ins -> run this ins (launched m t) = Some s -> outcome m t s.
Proof. intros Hins Hrun. apply inv_outcome. exact (reach_inv _ _ _ _ Hins Hrun). Qed.

End Launch.

(** ** Launch after launch

    An installation: the application is launched again and again with the
    same token, each time on the store the process before left behind.
    Each launch builds its instance with a configuration of its own, calls
    [init()] and lives through a schedule of its own. *)

Lemma append_cancel (p a b : string) : p +:+ a = p +:+ b -> a = b.
Proof.
  induction p as [|c p IH]; simpl; intros Heq; [exact Heq|].
  injection Heq as Heq. exact (IH Heq).
Qed.

Lemma keysFor_distinct appId : NoDup (allKeys (keysFor appId)).
Proof.
  change (NoDup ((fun sfx => "lumin_" +:+ appId +:+ sfx)
                   <$> ["_first_open_time"; "_end_of_last_session";
                        "_last_dau_tracked"; "_last_wau_tracked";
                        "_last_mau_tracked"; "_last_yau_tracked"])).
  apply NoDup_fmap_2.
  - intros a b Heq. apply (append_cancel appId).
    apply (append_cancel "lumin_"). exact Heq.
  - apply (bool_decide_unpack _). reflexivity.
Qed.

(** The application id [new Lumin(token, ...)] takes from the token. *)
Definition appIdOf (token : string) : string :=
  default EmptyString (JsString.split colon (JsString.trim token) !! 0).

Record launch := {
  l_config : LuminConfig;
  l_appState : AppStateStatus;
  l_time : Z;
  l_schedule : list input;
}.

(** The life of one process: its instance, when it began, the store it
    found and the state it ended in. *)
Record lifetime := {
  self : Lumin;
  began : Z;
  found : gmap string string;
  final : state;
}.

Section Install.
Context `{Host}.
Variable token : string.

Let key := firstOpenTime (keysFor (appIdOf token)).

Fixpoint relaunch (ls : list launch) (m : gmap string string)
  : option (list lifetime) :=
  match ls with
  | [] => Some []
  | l :: r =>
      match constructor token (l_config l) (l_appState l) (l_time l) with
      | inl _ => None
      | inr this =>
          match run this (l_schedule l) (launched this m (l_time l)) with
          | None => None
          | Some s =>
              match relaunch r (store s) with
              | None => None
              | Some h =>
                  Some ({| self := this; began := l_time l;
                           found := m; final := s |} :: h)
              end
          end
      end
  end.

(** Besides [init()], the application calls safe code only. *)
Definition proper (l : launch) : Prop :=
  match constructor token (l_config l) (l_appState l) (l_time l) with
  | inl _ => True
  | inr this => Forall (allowed this) (l_schedule l)
  end.

(** The FIRST_OPEN events of all the processes together. *)
Definition firstOpensOf (hist : list lifetime) : nat :=
  foldr (fun x n => firstOpens (final x) + n) 0 hist.

Lemma constructor_keys cfg a t this :
  constructor token cfg a t = inr this ->
  this_asyncStorageKeys this = keysFor (appIdOf token).
Proof.
  unfold constructor. destruct (_ || _); [discriminate|].
  intros [= <-]. reflexivity.
Qed.

Lemma relaunch_sound ls : forall m hist,
  Forall proper ls ->
  relaunch ls m = Some hist ->
  Forall (fun x => writing (self x) (final x) = false) hist ->
  (firstOpensOf hist <= 1
   /\ (match m !! key with Some v => JsString.nonempty v | None => false end
       = true -> firstOpensOf hist = 0))
  /\ Forall (fun x => outcome (self x) (found x) (began x) (final x)) hist.
Proof.
  induction ls as [|l ls IH]; intros m hist Hp Hr Hw.
  - injection Hr as <-. simpl. repeat split; auto.
  - apply Forall_cons in Hp as [Hl Hp]. simpl in Hr. unfold proper in Hl.
    destruct (constructor token (l_config l) (l_appState l) (l_time l))
      as [|this] eqn:Hc; [discriminate|].
    destruct (run this (l_schedule l) (launched this m (l_time l)))
      as [s|] eqn:Hrun; [|discriminate].
    destruct (relaunch ls (store s)) as [h|] eqn:Hrest; [|discriminate].
    injection Hr as <-. apply Forall_cons in Hw as [Hws Hw]. simpl in Hws.
    destruct (IH _ _ Hp Hrest Hw) as [[Hle Hzero] Hall].
    pose proof (constructor_keys _ _ _ _ Hc) as Hkeys.
    assert (NoDup (allKeys (this_asyncStorageKeys this))) as Hnd
      by (rewrite Hkeys; apply keysFor_distinct).
    pose proof (launch_outcome this Hnd m (l_time l) _ s Hl Hrun) as Hout.
    split; [|constructor; [exact Hout|exact Hall]].
    unfold outcome, marked in Hout. rewrite Hkeys in Hout. fold key in Hout.
    cbn [firstOpensOf foldr final]. fold (firstOpensOf h).
    destruct (match m !! key with Some v => JsString.nonempty v | None => false end)
      eqn:Hm.
    + destruct Hout as (H0 & _ & Hs). rewrite Hs, Hm in Hzero.
      rewrite H0, (Hzero eq_refl). split; [lia|reflexivity].
    + split; [|discriminate].
      destruct Hout as [(H0 & _ & Hs & _)|(H1 & w & f & t' & _ & _ & Hs)].
      * rewrite H0. simpl. exact Hle.
      * rewrite Hws in Hs. rewrite Hs in Hzero.
        assert (JsString.nonempty (dateToString t') = true) as Hne.
        { pose proof (dateToString_nonempty t') as Hn.
          destruct (dateToString t'); [contradiction Hn; reflexivity|reflexivity]. }
        rewrite H1, (Hzero Hne). lia.
Qed.

Lemma outcome_idle this m t s :
  outcome this m t s -> idle s = true ->
  (firstOpens s = 1 <-> marked this m = false).
Proof.
  unfold outcome. intros Hout Hidle. destruct (marked this m).
  - destruct Hout as (-> & _). split; discriminate.
  - split; [reflexivity|intros _].
    destruct Hout as [(_ & _ & _ & Hb)|(H1 & _)]; [congruence|exact H1].
Qed.

(** C5, amended: an installation is a sequence of launches with one
    token, each on the store the one before left behind; each launch
    builds its instance with any configuration (the
    [automaticallyTrackActiveUsers] flag set, cleared or left out), calls
    [init()] and then lives through any schedule of microtasks,
    completions the store carries out, passing time, app-state signals
    and calls of safe code, ending at any point but while its write of the
    first-open key is outstanding. Then all the processes together send
    FIRST_OPEN at most once. Each of them, if it found a marker, sends none
    and asks nothing about the key, which keeps its value; if it found
    none, it has, once its check is through, asked for the write of an
    instant of its lifetime under the key and then for one send of
    FIRST_OPEN; a process that ends idle has sent FIRST_OPEN exactly when
    it found no marker. *)
Theorem first_open_at_most_once ls m hist :
  Forall proper ls ->
  relaunch ls m = Some hist ->
  Forall (fun x => writing (self x) (final x) = false) hist ->
  firstOpensOf hist <= 1
  /\ Forall (fun x => outcome (self x) (found x) (began x) (final x)) hist
  /\ Forall (fun x => idle (final x) = true ->
                      (firstOpens (final x) = 1
                       <-> marked (self x) (found x) = false)) hist.
Proof.
  intros Hp Hr Hw.
  destruct (relaunch_sound ls m hist Hp Hr Hw) as [[Hle _] Hall].
  split; [exact Hle|]. split; [exact Hall|].
  eapply Forall_impl; [exact Hall|].
  intros x Hx. exact (outcome_idle _ _ _ _ Hx).
Qed.

(** On a store that holds a marker no launch sends FIRST_OPEN, wherever
    each of them ends. *)
Lemma relaunch_marked ls : forall m hist,
  Forall proper ls ->
  relaunch ls m = Some hist ->
  match m !! key with Some v => JsString.nonempty v | None => false end = true ->
  firstOpensOf hist = 0.
Proof.
  induction ls as [|l ls IH]; intros m hist Hp Hr Hm.
  - injection Hr as <-. reflexivity.
  - apply Forall_cons in Hp as [Hl Hp]. simpl in Hr. unfold proper in Hl.
    destruct (constructor token (l_config l) (l_appState l) (l_time l))
      as [|this] eqn:Hc; [discriminate|].
    destruct (run this (l_schedule l) (launched this m (l_time l)))
      as [s|] eqn:Hrun; [|discriminate].
    destruct (relaunch ls (store s)) as [h|] eqn:Hrest; [|discriminate].
    injection Hr as <-.
    pose proof (constructor_keys _ _ _ _ Hc) as Hkeys.
    assert (NoDup (allKeys (this_asyncStorageKeys this))) as Hnd
      by (rewrite Hkeys; apply keysFor_distinct).
    pose proof (launch_outcome this Hnd m (l_time l) _ s Hl Hrun) as Hout.
    unfold outcome, marked in Hout. rewrite Hkeys in Hout. fold key in Hout.
    rewrite Hm in Hout. destruct Hout as (H0 & _ & Hs).
    cbn [firstOpensOf foldr final]. fold (firstOpensOf h).
    rewrite H0, (IH _ _ Hp Hrest); [reflexivity|]. rewrite Hs. exact Hm.
Qed.

(** C10, amended: when nothing is stored under the first-open key, the
    callback of the first-open check of [init()] asks the store to write
    the current instant under that key and only then starts the send of
    FIRST_OPEN, in the same run and without waiting for the write; the
    cadence check does it the other way round (send first, write in a
    later microtask). Nothing has been sent when the write is asked for,
    so a process that dies between the two steps has sent nothing. What
    follows depends on the write it leaves behind. If the write reaches
    the store, no later launch sends FIRST_OPEN, wherever each of them
    ends: the event is suppressed for good and never duplicated. If the
    write is lost, the store is as the process found it, and the next
    launch that runs its check to the end sends FIRST_OPEN. *)
Theorem first_open_write_precedes_send cfg a now this m (p : period) :
  constructor token cfg a now = inr this ->
  m !! key = None ->
  (exists s,
     play this [ICall (init this); IComplete 1 FromStore] (boot this m now)
     = Some s
     /\ store s = m
     /\ exists before f,
          trace s =
            before
            ++ [Completed 1 (Fulfilled VNull);
                Issued (checkWrite this) (RqSetItem key (dateToString now));
                Issued f (RqFetch (eventRequest this "FIRST_OPEN" []))]
          /\ omap fetchOf before = [])
  /\ (exists s,
        Cadence.evaluate this p ∅ now = Some s
        /\ trace s =
             [Issued 1 (RqGetItem (markerKey this p));
              Completed 1 (Fulfilled VNull);
              Issued 3 (RqFetch (eventRequest this (eventName p) []));
              Issued 7 (RqSetItem (markerKey this p) (dateToString now))])
  /\ (exists s',
        play this [ICall (init this); IComplete 1 FromStore;
                   IComplete (checkWrite this) FromStore] (boot this m now)
        = Some s'
        /\ store s' = AsyncStorage.setItem key (dateToString now) m
        /\ forall ls hist,
             Forall proper ls ->
             relaunch ls (store s') = Some hist ->
             firstOpensOf hist = 0)
  /\ (forall cfg' a' t' this' ins s',
        constructor token cfg' a' t' = inr this' ->
        Forall (allowed this') ins ->
        run this' ins (launched this' m t') = Some s' ->
        idle s' = true ->
        firstOpens s' = 1).
Proof.
  intros Hc Hm.
  pose proof (constructor_keys _ _ _ _ Hc) as Hkeys.
  assert (firstOpenTime (this_asyncStorageKeys this) = key) as Hk
    by (rewrite Hkeys; reflexivity).
  assert (m !! firstOpenTime (this_asyncStorageKeys this) = None) as Hm'
    by (rewrite Hk; exact Hm).
  destruct (write_then_send this m now Hm') as [Hfirst (s' & Hs' & Hst)].
  rewrite Hk in Hfirst, Hst.
  split; [exact Hfirst|]. split; [exact (Cadence.send_precedes_write this p now)|].
  split.
  - exists s'. split; [exact Hs'|]. split; [exact Hst|].
    intros ls hist Hp Hr. apply (relaunch_marked ls _ hist Hp Hr).
    rewrite Hst. unfold AsyncStorage.setItem. rewrite lookup_insert_eq.
    pose proof (dateToString_nonempty now) as Hn.
    destruct (dateToString now); [contradiction Hn; reflexivity|reflexivity].
  - intros cfg' a' t' this' ins s1 Hc' Hins Hrun Hidle.
    pose proof (constructor_keys _ _ _ _ Hc') as Hkeys'.
    assert (NoDup (allKeys (this_asyncStorageKeys this'))) as Hnd
      by (rewrite Hkeys'; apply keysFor_distinct).
    pose proof (launch_outcome this' Hnd m t' _ s1 Hins Hrun) as Hout.
    apply (outcome_idle _ _ _ _ Hout Hidle).
    unfold marked. rewrite Hkeys'. fold key. rewrite Hm. reflexivity.
Qed.

End Install.

(** ** An installation on the example host *)

Definition flagOff : LuminConfig :=
  {| environment := None; automaticallyTrackActiveUsers := Some false;
     trackingIntervals := None; url := None;
     logResponse := None; logError := None |}.

(** A first launch with the flag cleared, run until nothing is left to do;
    a second one the day after with the default configuration, sent to the
    background after five seconds and followed to the end of its check. *)
Definition twoLaunches : list launch :=
  [ {| l_config := flagOff;
       l_appState := active;
       l_time := ExampleHost.noon 1;
       l_schedule := [IComplete 1 FromStore; IJob; IComplete 4 FromStore;
                      IJob; IComplete 5 FromStore] |};
    {| l_config := emptyConfig;
       l_appState := active;
       l_time := ExampleHost.noon 2;
       l_schedule := [ITick 5000; IAppState background;
                      IComplete 1 FromStore; IJob] |} ].

Lemma first_open_at_most_once_witness :
  exists hist,
    @relaunch ExampleHost.host "abc:def" twoLaunches ∅ = Some hist
    /\ Forall (fun x => writing (self x) (final x) = false) hist
    /\ (fun x => firstOpens (final x)) <$> hist = [1; 0]
    /\ firstOpensOf hist <= 1.
Proof.
  eexists. split; [vm_compute; reflexivity|].
  assert (Forall (@proper ExampleHost.host "abc:def") twoLaunches) as Hp.
  { repeat (apply List.Forall_cons; [vm_compute; repeat constructor|]).
    apply List.Forall_nil. }
  match goal with
  | |- Forall ?P ?h /\ _ => assert (Forall P h) as Hw
  end.
  { repeat (apply List.Forall_cons; [vm_compute; reflexivity|]).
    apply List.Forall_nil. }
  split; [exact Hw|]. split; [vm_compute; reflexivity|].
  refine (proj1 (@first_open_at_most_once ExampleHost.host "abc:def"
                   twoLaunches ∅ _ Hp _ Hw)).
  vm_compute. reflexivity.
Defined.

(** A first launch on the example host: nothing is stored. Once its
    write has reached the store, a second launch, run to the end of its
    check, sends nothing. *)
Lemma first_open_write_precedes_send_witness :
  @constructor ExampleHost.host "abc:def" emptyConfig active 0
  = inr (ExampleHost.lumin emptyConfig)
  /\ (∅ : gmap string string) !! "lumin_abc_first_open_time" = None
  /\ exists s',
       @play ExampleHost.host (ExampleHost.lumin emptyConfig)
         [ICall (init (ExampleHost.lumin emptyConfig));
          IComplete 1 FromStore; IComplete 13 FromStore]
         (boot (ExampleHost.lumin emptyConfig) ∅ 0)
       = Some s'
       /\ forall hist,
            @relaunch ExampleHost.host "abc:def"
              [ {| l_config := emptyConfig; l_appState := active;
                   l_time := ExampleHost.noon 2;
                   l_schedule := [IComplete 1 FromStore; IJob] |} ]
              (store s') = Some hist ->
            firstOpensOf hist = 0.
Proof.
  split; [reflexivity|]. split; [apply lookup_empty|].
  destruct (@first_open_write_precedes_send ExampleHost.host "abc:def"
              emptyConfig active 0 (ExampleHost.lumin emptyConfig) ∅ Daily
              eq_refl (lookup_empty _)) as (_ & _ & (s' & Hs' & _ & Hnone) & _).
  exists s'. split; [exact Hs'|].
  intros hist Hr. refine (Hnone _ hist _ Hr).
  apply List.Forall_cons; [|apply List.Forall_nil].
  vm_compute. repeat constructor.
Defined.

(** Two launches, each cut short once its check has run: the read has
    been answered and the callback has asked for the write and for the
    send, and neither has completed. *)
Definition cutShort (t : Z) : launch :=
  {| l_config := emptyConfig;
     l_appState := active;
     l_time := t;
     l_schedule := [IComplete 1 FromStore; IJob] |}.

(** C5 as stated, at a given token, sequence of launches and store. *)
Definition onceClaim `{Host} (token : string) (ls : list launch)
    (m : gmap string string) : Prop :=
  forall hist,
    Forall (proper token) ls ->
    relaunch token ls m = Some hist ->
    firstOpensOf hist <= 1.

(** C5, as stated, fails: a process that ends while its write of the
    first-open key is outstanding leaves no marker, and the next launch
    sends FIRST_OPEN again. *)
Lemma two_cut_launches_counterexample :
  ~ @onceClaim ExampleHost.host "abc:def"
      [cutShort (ExampleHost.noon 1); cutShort (ExampleHost.noon 2)] ∅.
Proof.
  intros Hc.
  assert (Forall (@proper ExampleHost.host "abc:def")
            [cutShort (ExampleHost.noon 1); cutShort (ExampleHost.noon 2)])
    as Hp.
  { repeat (apply List.Forall_cons; [vm_compute; repeat constructor|]).
    apply List.Forall_nil. }
  specialize (Hc _ Hp ltac:(vm_compute; reflexivity)).
  vm_compute in Hc. lia.
Qed.

(** A store that fails the write has the same effect, although the
    process lives on after it: the first launch sees its write rejected,
    no marker is left, and the second launch sends FIRST_OPEN again. *)
Example failed_write_sends_again :
  firstOpensOf
    <$> @relaunch ExampleHost.host "abc:def"
          [ {| l_config := emptyConfig;
               l_appState := active;
               l_time := ExampleHost.noon 1;
               l_schedule := [IComplete 1 FromStore; IJob;
                              IComplete 13 (StoreFails (VStr "disk full"))] |};
            cutShort (ExampleHost.noon 2) ] ∅
  = Some 2.
Proof. vm_compute. reflexivity. Qed.

(** C10's consequence as stated, at a given token, launch, later launches
    and store: once a process has asked for the write of the first-open
    key, wherever it dies, the launches after it send no FIRST_OPEN. *)
Definition crashClaim `{Host} (token : string) (l : launch)
    (ls : list launch) (m : gmap string string) : Prop :=
  forall x hist,
    relaunch token [l] m = Some [x] ->
    writing (self x) (final x) = true ->
    relaunch token ls (store (final x)) = Some hist ->
    firstOpensOf hist = 0.

(** C10, as stated, fails: the write is not waited for, so a process
    that dies while it is outstanding leaves no marker, and the next
    launch sends FIRST_OPEN. *)
Lemma lost_write_counterexample :
  ~ @crashClaim ExampleHost.host "abc:def"
      (cutShort (ExampleHost.noon 1)) [cutShort (ExampleHost.noon 2)] ∅.
Proof.
  intros Hc.
  specialize (Hc _ _ ltac:(vm_compute; reflexivity)
                ltac:(vm_compute; reflexivity) ltac:(vm_compute; reflexivity)).
  vm_compute in Hc. discriminate Hc.
Qed.

(** Launches, not calls: within one process a second [init()] whose read
    is answered before the write of the first has reached the store finds
    no marker either, and FIRST_OPEN is sent twice. *)
Example second_init_in_one_process :
  firstOpens
    <$> @run ExampleHost.host (ExampleHost.lumin flagOff)
          [ICall (init (ExampleHost.lumin flagOff));
           IComplete 1 FromStore; IJob; IComplete 6 FromStore; IJob]
          (launched (ExampleHost.lumin flagOff) ∅
             (ExampleHost.noon 1))
  = Some 2.
Proof. vm_compute. reflexivity. Qed.

End FirstOpen.

(** * What synchronous code does to a state *)

Module Frame.

Import Machine.

Local Open Scope nat_scope.

(** The part of a state that synchronous code reads and writes without
    looking at a promise: of the promise table only its size. *)
Record frame := {
  f_store : gmap string string;
  f_clock : Z;
  f_fresh : pid;
  f_pending : list (pid * request);
  f_trace : list action;
  f_listeners : list kont;
  f_appState : AppStateStatus;
  f_sessionStartTime : Z;
}.

Definition frameOf (s : state) : frame :=
  {| f_store := store s;
     f_clock := clock s;
     f_fresh := fresh s;
     f_pending := pending s;
     f_trace := trace s;
     f_listeners := listeners s;
     f_appState := cur_appState s;
     f_sessionStartTime := cur_sessionStartTime s |}.

(** A promise is created. *)
Definition bump (f : frame) : frame :=
  let '(Build_frame m t n pd tr ls a st) := f in
  Build_frame m t (S n) pd tr ls a st.

(** A request is issued. *)
Definition asking (rq : request) (f : frame) : frame :=
  let '(Build_frame m t n pd tr ls a st) := f in
  Build_frame m t (S n) (pd ++ [(n, rq)]) (tr ++ [Issued n rq]) ls a st.

Definition logging (v : val) (f : frame) : frame :=
  let '(Build_frame m t n pd tr ls a st) := f in
  Build_frame m t n pd (tr ++ [Logged v]) ls a st.

Definition listening (h : kont) (f : frame) : frame :=
  let '(Build_frame m t n pd tr ls a st) := f in
  Build_frame m t n pd tr (ls ++ [h]) a st.

Definition inAppState (a' : AppStateStatus) (f : frame) : frame :=
  let '(Build_frame m t n pd tr ls a st) := f in
  Build_frame m t n pd tr ls a' st.

Definition startedAt (t' : Z) (f : frame) : frame :=
  let '(Build_frame m t n pd tr ls a st) := f in
  Build_frame m t n pd tr ls a t'.

(** The frame once code [c] has run, up to its first [await]. *)
Fixpoint after (c : code) (f0 : frame) : frame :=
  let '(Build_frame m t n pd tr ls a st) := f0 in
  let f := Build_frame m t n pd tr ls a st in
  match c with
  | Return _ | Throw _ => f
  | NewDate k => after (k t) f
  | ReadAppState k => after (k a) f
  | WriteAppState a' k => after k (inAppState a' f)
  | ReadSessionStartTime k => after (k st) f
  | WriteSessionStartTime t' k => after k (startedAt t' f)
  | Issue rq k => after (k n) (asking rq f)
  | Then _ _ _ k => after (k n) (bump f)
  | PromiseAll _ k => after (k n) (bump f)
  | Await _ _ => f
  | Async body k => after (k n) (after body (bump f))
  | ConsoleLog v k => after k (logging v f)
  | AddEventListener h k => after k (listening h f)
  end.

Lemma frameOf_alloc n s : frameOf (alloc n s) = bump (frameOf s).
Proof.
  destruct s. unfold frameOf, bump, alloc, fresh. simpl.
  rewrite length_app. simpl. f_equal. lia.
Qed.

Lemma frameOf_settle (p : pid) o s : frameOf (settle p o s) = frameOf s.
Proof.
  destruct s as [m t ps pd js tr ls a st]. unfold settle. simpl.
  destruct (ps !! p) as [[n rs|o']|]; try reflexivity.
  unfold frameOf, fresh. simpl. rewrite length_insert. reflexivity.
Qed.

Lemma frameOf_subscribe (p : pid) r s : frameOf (subscribe p r s) = frameOf s.
Proof.
  destruct s as [m t ps pd js tr ls a st]. unfold subscribe. simpl.
  destruct (ps !! p) as [[n rs|o']|]; try reflexivity.
  unfold frameOf, fresh. simpl. rewrite length_insert. reflexivity.
Qed.

Lemma frameOf_countdown (d : pid) s : frameOf (countdown d s) = frameOf s.
Proof.
  unfold countdown.
  destruct (promises s !! d) as [[[|[|n]] rs|o]|]; try reflexivity.
  - apply frameOf_settle.
  - destruct s. unfold frameOf, fresh. simpl. rewrite length_insert. reflexivity.
Qed.

Lemma frameOf_issue rq s : frameOf (issue rq s) = asking rq (frameOf s).
Proof.
  destruct s. unfold frameOf, asking, issue, alloc, fresh. simpl.
  rewrite length_app. simpl. f_equal. lia.
Qed.

Lemma frameOf_record_logged v s :
  frameOf (record (Logged v) s) = logging v (frameOf s).
Proof. destruct s. reflexivity. Qed.

Lemma frameOf_with_listeners h s :
  frameOf (with_listeners (listeners s ++ [h]) s) = listening h (frameOf s).
Proof. destruct s. reflexivity. Qed.

Lemma frameOf_with_appState a s :
  frameOf (with_appState a s) = inAppState a (frameOf s).
Proof. destruct s. reflexivity. Qed.

Lemma frameOf_with_sessionStartTime t s :
  frameOf (with_sessionStartTime t s) = startedAt t (frameOf s).
Proof. destruct s. reflexivity. Qed.

Lemma frameOf_subscribe_all (d : pid) (l : list pid) s :
  frameOf (foldl (fun s' p => subscribe p (RAll d) s') s l) = frameOf s.
Proof.
  revert s. induction l as [|p l IH]; intros s; [reflexivity|].
  simpl. rewrite IH. apply frameOf_subscribe.
Qed.

(** Running code changes the frame as [after] says, whatever the promise
    table and the microtask queue hold. *)
Section Equations.
Variable f : frame.

Lemma after_Return v : after (Return v) f = f.
Proof. destruct f; reflexivity. Qed.

Lemma after_Throw e : after (Throw e) f = f.
Proof. destruct f; reflexivity. Qed.

Lemma after_NewDate k : after (NewDate k) f = after (k (f_clock f)) f.
Proof. destruct f; reflexivity. Qed.

Lemma after_ReadAppState k :
  after (ReadAppState k) f = after (k (f_appState f)) f.
Proof. destruct f; reflexivity. Qed.

Lemma after_WriteAppState a k :
  after (WriteAppState a k) f = after k (inAppState a f).
Proof. destruct f; reflexivity. Qed.

Lemma after_ReadSessionStartTime k :
  after (ReadSessionStartTime k) f = after (k (f_sessionStartTime f)) f.
Proof. destruct f; reflexivity. Qed.

Lemma after_WriteSessionStartTime t k :
  after (WriteSessionStartTime t k) f = after k (startedAt t f).
Proof. destruct f; reflexivity. Qed.

Lemma after_Issue rq k : after (Issue rq k) f = after (k (f_fresh f)) (asking rq f).
Proof. destruct f; reflexivity. Qed.

Lemma after_Then p g h k : after (Then p g h k) f = after (k (f_fresh f)) (bump f).
Proof. destruct f; reflexivity. Qed.

Lemma after_PromiseAll l k :
  after (PromiseAll l k) f = after (k (f_fresh f)) (bump f).
Proof. destruct f; reflexivity. Qed.

Lemma after_Await p h : after (Await p h) f = f.
Proof. destruct f; reflexivity. Qed.

Lemma after_Async body k :
  after (Async body k) f = after (k (f_fresh f)) (after body (bump f)).
Proof. destruct f; reflexivity. Qed.

Lemma after_ConsoleLog v k : after (ConsoleLog v k) f = after k (logging v f).
Proof. destruct f; reflexivity. Qed.

Lemma after_AddEventListener h k :
  after (AddEventListener h k) f = after k (listening h f).
Proof. destruct f; reflexivity. Qed.
End Equations.

(** Running code changes the frame as [after] says, whatever the promise
    table and the microtask queue hold. *)
Lemma frameOf_exec c : forall (fr : pid) s,
  frameOf (exec c fr s) = after c (frameOf s).
Proof.
  induction c as [v|e|k IH|k IH|a k IH|k IH|t k IH|rq k IH|p f g k IH
                 |l k IH|p h|body IHb k IH|v k IH|h k IH]; intros fr s.
  - rewrite FirstOpen.exec_Return, after_Return. apply frameOf_settle.
  - rewrite FirstOpen.exec_Throw, after_Throw. apply frameOf_settle.
  - rewrite FirstOpen.exec_NewDate, after_NewDate. apply IH.
  - rewrite FirstOpen.exec_ReadAppState, after_ReadAppState. apply IH.
  - rewrite FirstOpen.exec_WriteAppState, after_WriteAppState, IH,
      frameOf_with_appState. reflexivity.
  - rewrite FirstOpen.exec_ReadSessionStartTime, after_ReadSessionStartTime.
    apply IH.
  - rewrite FirstOpen.exec_WriteSessionStartTime, after_WriteSessionStartTime,
      IH, frameOf_with_sessionStartTime. reflexivity.
  - rewrite FirstOpen.exec_Issue, after_Issue, IH, frameOf_issue. reflexivity.
  - rewrite FirstOpen.exec_Then, after_Then, IH, frameOf_subscribe,
      frameOf_alloc. reflexivity.
  - rewrite FirstOpen.exec_PromiseAll, after_PromiseAll. cbv zeta. rewrite IH.
    destruct l; [rewrite frameOf_settle|];
      rewrite frameOf_subscribe_all, frameOf_alloc; reflexivity.
  - rewrite FirstOpen.exec_Await, after_Await. apply frameOf_subscribe.
  - rewrite FirstOpen.exec_Async, after_Async, IH, IHb, frameOf_alloc.
    reflexivity.
  - rewrite FirstOpen.exec_ConsoleLog, after_ConsoleLog, IH,
      frameOf_record_logged. reflexivity.
  - rewrite FirstOpen.exec_AddEventListener, after_AddEventListener, IH,
      frameOf_with_listeners. reflexivity.
Qed.

Lemma frameOf_call c s : frameOf (call c s) = after c (bump (frameOf s)).
Proof. unfold call. rewrite frameOf_exec, frameOf_alloc. reflexivity. Qed.

End Frame.

Module Lifecycle.

Import Machine Frame.

Definition requestOf (a : action) : option request :=
  match a with Issued _ rq => Some rq | _ => None end.

(** The requests a process has issued so far, in order. *)
Definition issued (s : state) : list request := omap requestOf (trace s).

Lemma omap_snoc {A B} (f : A -> option B) l x :
  omap f (l ++ [x]) = omap f l ++ match f x with Some y => [y] | None => [] end.
Proof. rewrite omap_app. simpl. destruct (f x); reflexivity. Qed.

Section Lifecycle.
Context `{Host}.
Variable this : Lumin.

Let keys := this_asyncStorageKeys this.
Let config := this_config this.

(** The reads of the four cadence checks, in the order [trackActiveUser]
    starts them. *)
Definition cadenceReads : list request :=
  (fun p => RqGetItem (markerKey this p)) <$> allPeriods.

Definition sessionRead : request := RqGetItem (endOfLastSession keys).

(** What [init()] reads. *)
Definition initReads : list request :=
  RqGetItem (firstOpenTime keys)
  :: (if truthyB (automaticallyTrackActiveUsers config)
      then cadenceReads else [])
  ++ [sessionRead].

Ltac through_frame s' :=
  change (trace s') with (f_trace (frameOf s'));
  change (pending s') with (f_pending (frameOf s'));
  change (store s') with (f_store (frameOf s'));
  change (clock s') with (f_clock (frameOf s'));
  change (listeners s') with (f_listeners (frameOf s'));
  change (cur_sessionStartTime s') with (f_sessionStartTime (frameOf s'));
  change (cur_appState s') with (f_appState (frameOf s')).

(** [init()], called in any state, registers the listener, sets the start
    of the session to the current instant and asks the store for the
    first-open key, for the four markers when
    [automaticallyTrackActiveUsers] is set, and for the end of the last
    session, in this order. It sends nothing and writes nothing: whatever
    else it leads to waits for the store. *)
Theorem init_only_reads s :
  let s' := call (init this) s in
  issued s' = issued s ++ initReads
  /\ (pending s').*2 = (pending s).*2 ++ initReads
  /\ store s' = store s
  /\ listeners s' = listeners s ++ [KListener]
  /\ cur_sessionStartTime s' = clock s
  /\ cur_appState s' = cur_appState s.
Proof.
  cbv zeta. unfold issued. through_frame (call (init this) s).
  rewrite frameOf_call. unfold init, initReads, config, keys.
  destruct (truthyB (automaticallyTrackActiveUsers (this_config this))); cbn;
    rewrite !omap_snoc, !fmap_app; cbn; rewrite <- !app_assoc;
    repeat split; reflexivity.
Qed.

(** The two transitions the listener acts on. *)
Definition toForeground (prev next : AppStateStatus) : bool :=
  matchInactiveBackground prev && bool_decide (next = active).

Definition toBackground (prev next : AppStateStatus) : bool :=
  bool_decide (prev = active) && matchInactiveBackground next.

Definition sessionEnd (now start : Z) : request :=
  RqFetch (eventRequest this "SESSION_END"
             [("duration", VNum (DateFns.differenceInSeconds now start))]).

(** What the listener asks for on a change from [prev] to [next] at [now],
    the session having started at [start]. *)
Definition onChange (prev next : AppStateStatus) (now start : Z)
  : list request :=
  if toForeground prev next then
    (if truthyB (automaticallyTrackActiveUsers config)
     then cadenceReads else [])
    ++ [sessionRead]
  else if toBackground prev next then
    [sessionEnd now start;
     RqSetItem (endOfLastSession keys) (dateToString now)]
  else [].

(** One run of the listener, in any state. *)
Lemma change_once next s :
  let prev := cur_appState s in
  let s' := call (onAppStateChange this next) s in
  cur_appState s' = next
  /\ issued s'
     = issued s ++ onChange prev next (clock s) (cur_sessionStartTime s)
  /\ cur_sessionStartTime s'
     = (if toForeground prev next then clock s else cur_sessionStartTime s)
  /\ store s' = store s
  /\ clock s' = clock s
  /\ listeners s' = listeners s.
Proof.
  cbv zeta.
  unfold issued. through_frame (call (onAppStateChange this next) s).
  rewrite frameOf_call. unfold onAppStateChange, onChange, config, keys.
  cbn [after bump frameOf f_appState f_clock f_sessionStartTime].
  destruct (cur_appState s) eqn:Hprev, next;
    destruct (truthyB (automaticallyTrackActiveUsers (this_config this)));
    unfold toForeground, toBackground.
  all: do 3 (cbn; rewrite ?Hprev;
             rewrite ?bool_decide_eq_true_2 by (reflexivity);
             rewrite ?bool_decide_eq_false_2 by (discriminate)).
  all: rewrite ?omap_snoc, ?fmap_app; cbn.
  all: rewrite <- ?app_assoc, ?app_nil_r.
  all: repeat split; reflexivity.
Qed.

(** A change to the status the object already holds asks for nothing. *)
Lemma onChange_same a now start : onChange a a now start = [].
Proof. destruct a; reflexivity. Qed.

Lemma toForeground_same a : toForeground a a = false.
Proof. destruct a; reflexivity. Qed.

(** The listeners that run after the first find the new status in place. *)
Lemma change_again next (n : nat) : forall s,
  cur_appState s = next ->
  let s' := foldl (fun s' h => call (handler this h (VAppState next)) s') s
              (replicate n KListener) in
  cur_appState s' = next
  /\ issued s' = issued s
  /\ cur_sessionStartTime s' = cur_sessionStartTime s
  /\ store s' = store s
  /\ clock s' = clock s
  /\ listeners s' = listeners s.
Proof.
  induction n as [|n IH]; intros s Ha; cbv zeta.
  - repeat split; assumption || reflexivity.
  - cbn [replicate foldl handler].
    destruct (change_once next s) as (Ha1 & Hi1 & Hs1 & Hm1 & Hc1 & Hl1).
    rewrite Ha, onChange_same, app_nil_r in Hi1.
    rewrite Ha, toForeground_same in Hs1.
    destruct (IH (call (onAppStateChange this next) s) Ha1) as
      (Ha2 & Hi2 & Hs2 & Hm2 & Hc2 & Hl2).
    repeat split; congruence.
Qed.

(** In a process where [init()] has been called, once or more often, an
    AppState change to [next] always leaves [this.appState] at [next], and
    it is acted on once, however many listeners there are: the first one
    to run puts the new status in place and the others find nothing to
    do. Coming from [inactive] or [background] to [active] the change
    starts a session: the start is set to the current instant and the
    store is asked for the markers (when the flag is set) and the end of
    the last session. Going from [active] to [inactive] or [background]
    it ends the session: SESSION_END is sent with the whole seconds since
    the start of the session, and then the store is asked to write the
    current instant as the end of the session. Every other change
    (between [inactive] and [background], from or to [unknown] or
    [extension], to the same status) asks for nothing. The store itself
    is not changed by the signal. *)
Theorem listener_transitions next (n : nat) s :
  listeners s = replicate (S n) KListener ->
  let prev := cur_appState s in
  let s' := signal this next s in
  cur_appState s' = next
  /\ issued s'
     = issued s ++ onChange prev next (clock s) (cur_sessionStartTime s)
  /\ cur_sessionStartTime s'
     = (if toForeground prev next then clock s else cur_sessionStartTime s)
  /\ store s' = store s
  /\ clock s' = clock s
  /\ listeners s' = listeners s.
Proof.
  intros Hl. cbv zeta.
  assert (signal this next s
          = foldl (fun s' h => call (handler this h (VAppState next)) s')
              (call (onAppStateChange this next) s) (replicate n KListener))
    as ->.
  { unfold signal. rewrite Hl. reflexivity. }
  destruct (change_once next s) as (Ha1 & Hi1 & Hs1 & Hm1 & Hc1 & Hl1).
  destruct (change_again next n (call (onAppStateChange this next) s) Ha1)
    as (Ha2 & Hi2 & Hs2 & Hm2 & Hc2 & Hl2).
  repeat split; congruence.
Qed.
End Lifecycle.
End Lifecycle.

(** * What the class asks of the store and of the network *)

Module Footprint.

Import Machine Frame Lifecycle.

Local Open Scope nat_scope.

Section Tidy.
Context `{Host}.
Variable this : Lumin.

(** The requests that are let through, and what is to hold of the store. *)
Variable P : request -> Prop.
Variable Q : gmap string string -> Prop.

(** Code all of whose requests are let through, whatever it is given. *)
Inductive tidy : code -> Prop :=
| tidy_Return v : tidy (Return v)
| tidy_Throw e : tidy (Throw e)
| tidy_NewDate k : (forall t, tidy (k t)) -> tidy (NewDate k)
| tidy_ReadAppState k : (forall a, tidy (k a)) -> tidy (ReadAppState k)
| tidy_WriteAppState a k : tidy k -> tidy (WriteAppState a k)
| tidy_ReadSessionStartTime k :
    (forall t, tidy (k t)) -> tidy (ReadSessionStartTime k)
| tidy_WriteSessionStartTime t k : tidy k -> tidy (WriteSessionStartTime t k)
| tidy_Issue rq k : P rq -> (forall p, tidy (k p)) -> tidy (Issue rq k)
| tidy_Then p f g k : (forall q, tidy (k q)) -> tidy (Then p f g k)
| tidy_PromiseAll l k : (forall d, tidy (k d)) -> tidy (PromiseAll l k)
| tidy_Await p h : tidy (Await p h)
| tidy_Async body k : tidy body -> (forall q, tidy (k q)) -> tidy (Async body k)
| tidy_ConsoleLog v k : tidy k -> tidy (ConsoleLog v k)
| tidy_AddEventListener h k : tidy k -> tidy (AddEventListener h k).

(** The callbacks that are let through. *)
Variable K : kont -> Prop.

Definition letK (f : option kont) : Prop :=
  match f with Some k => K k | None => True end.

(** Code that registers only callbacks that are let through. *)
Inductive among : code -> Prop :=
| among_Return v : among (Return v)
| among_Throw e : among (Throw e)
| among_NewDate k : (forall t, among (k t)) -> among (NewDate k)
| among_ReadAppState k : (forall a, among (k a)) -> among (ReadAppState k)
| among_WriteAppState a k : among k -> among (WriteAppState a k)
| among_ReadSessionStartTime k :
    (forall t, among (k t)) -> among (ReadSessionStartTime k)
| among_WriteSessionStartTime t k : among k -> among (WriteSessionStartTime t k)
| among_Issue rq k : (forall p, among (k p)) -> among (Issue rq k)
| among_Then p f g k :
    letK f -> letK g -> (forall q, among (k q)) -> among (Then p f g k)
| among_PromiseAll l k : (forall d, among (k d)) -> among (PromiseAll l k)
| among_Await p h : K h -> among (Await p h)
| among_Async body k : among body -> (forall q, among (k q)) -> among (Async body k)
| among_ConsoleLog v k : among k -> among (ConsoleLog v k)
| among_AddEventListener h k : K h -> among k -> among (AddEventListener h k).

Definition letR (r : reaction) : Prop :=
  match r with
  | RThen f g _ => letK f /\ letK g
  | RAwait k _ => K k
  | RAll _ => True
  end.

Definition letS (p : pstate) : Prop :=
  match p with Pending _ rs => Forall letR rs | Settled _ => True end.

(** Every callback that waits on a promise, is queued or listens was let
    through. *)
Definition calm (s : state) : Prop :=
  Forall letS (promises s)
  /\ Forall (fun j => letR j.1) (jobs s)
  /\ Forall K (listeners s).

Lemma alloc_calm n s : calm s -> calm (alloc n s).
Proof.
  destruct s. intros (Hp & Hj & Hl). repeat split; simpl in *; try assumption.
  apply Forall_app. split; [assumption|]. repeat constructor.
Qed.

Lemma settle_calm (p : pid) o s : calm s -> calm (settle p o s).
Proof.
  intros (Hp & Hj & Hl). unfold settle.
  destruct (promises s !! p) as [[n rs|o']|] eqn:Hlook;
    [|repeat split; assumption..].
  assert (Forall letR rs) as Hrs by exact (Forall_lookup_1 _ _ _ _ Hp Hlook).
  destruct s. simpl in *. repeat split; simpl.
  - apply Forall_insert; [assumption|exact I].
  - apply Forall_app. split; [assumption|].
    apply List.Forall_map. exact Hrs.
  - assumption.
Qed.

Lemma subscribe_calm (p : pid) r s : letR r -> calm s -> calm (subscribe p r s).
Proof.
  intros Hr (Hp & Hj & Hl). unfold subscribe.
  destruct (promises s !! p) as [[n rs|o']|] eqn:Hlook;
    [| |repeat split; assumption].
  - assert (Forall letR rs) as Hrs by exact (Forall_lookup_1 _ _ _ _ Hp Hlook).
    destruct s. simpl in *. repeat split; simpl; try assumption.
    apply Forall_insert; [assumption|]. simpl.
    apply Forall_app. split; [assumption|]. repeat constructor. exact Hr.
  - destruct s. simpl in *. repeat split; simpl; try assumption.
    apply Forall_app. split; [assumption|]. repeat constructor. exact Hr.
Qed.

Lemma countdown_calm (d : pid) s : calm s -> calm (countdown d s).
Proof.
  intros Hs. unfold countdown.
  destruct (promises s !! d) as [[[|[|n]] rs|o']|] eqn:Hlook; try exact Hs.
  - apply settle_calm, Hs.
  - destruct Hs as (Hp & Hj & Hl).
    assert (Forall letR rs) as Hrs by exact (Forall_lookup_1 _ _ _ _ Hp Hlook).
    destruct s. simpl in *. repeat split; simpl; try assumption.
    apply Forall_insert; assumption.
Qed.

Lemma issue_calm rq s : calm s -> calm (issue rq s).
Proof.
  destruct s. intros (Hp & Hj & Hl). repeat split; simpl in *; try assumption.
  apply Forall_app. split; [assumption|]. repeat constructor.
Qed.

Lemma subscribe_all_calm (d : pid) (l : list pid) : forall s,
  calm s -> calm (foldl (fun s' p => subscribe p (RAll d) s') s l).
Proof.
  induction l as [|p l IH]; intros s Hs; [exact Hs|].
  simpl. apply IH, subscribe_calm; [exact I|exact Hs].
Qed.

Lemma exec_calm c : among c -> forall (fr : pid) s, calm s -> calm (exec c fr s).
Proof.
  induction 1 as [v|e|k _ IH|k _ IH|a k _ IH|k _ IH|t k _ IH|rq k _ IH
                 |p g h k Hg Hh _ IH|l k _ IH|p h Hh|body k _ IHb _ IH|v k _ IH
                 |h k Hh _ IH]; intros fr s Hs.
  - rewrite FirstOpen.exec_Return. apply settle_calm, Hs.
  - rewrite FirstOpen.exec_Throw. apply settle_calm, Hs.
  - rewrite FirstOpen.exec_NewDate. apply IH, Hs.
  - rewrite FirstOpen.exec_ReadAppState. apply IH, Hs.
  - rewrite FirstOpen.exec_WriteAppState. apply IH. destruct s. exact Hs.
  - rewrite FirstOpen.exec_ReadSessionStartTime. apply IH, Hs.
  - rewrite FirstOpen.exec_WriteSessionStartTime. apply IH. destruct s. exact Hs.
  - rewrite FirstOpen.exec_Issue. apply IH, issue_calm, Hs.
  - rewrite FirstOpen.exec_Then. apply IH, subscribe_calm; [split; assumption|].
    apply alloc_calm, Hs.
  - rewrite FirstOpen.exec_PromiseAll. cbv zeta. apply IH.
    destruct l; [apply settle_calm|]; apply subscribe_all_calm, alloc_calm, Hs.
  - rewrite FirstOpen.exec_Await. apply subscribe_calm; [exact Hh|exact Hs].
  - rewrite FirstOpen.exec_Async. apply IH, IHb, alloc_calm, Hs.
  - rewrite FirstOpen.exec_ConsoleLog. apply IH. destruct s. exact Hs.
  - rewrite FirstOpen.exec_AddEventListener. apply IH.
    destruct s, Hs as (Hp & Hj & Hl). repeat split; simpl in *; try assumption.
    apply Forall_app. split; [assumption|]. repeat constructor. exact Hh.
Qed.

Lemma call_calm c s : among c -> calm s -> calm (call c s).
Proof. intros Hc Hs. apply exec_calm; [exact Hc|]. apply alloc_calm, Hs. Qed.

Definition letThrough (a : action) : Prop :=
  match a with Issued _ rq => P rq | _ => True end.

(** Every request issued so far, and so every outstanding one, was let
    through. *)
Definition cleanF (f : frame) : Prop :=
  Forall letThrough (f_trace f) /\ Forall (fun x => P x.2) (f_pending f).

Definition clean (s : state) : Prop := cleanF (frameOf s).

Lemma after_tidy c : tidy c -> forall f, cleanF f -> cleanF (after c f).
Proof.
  induction 1 as [v|e|k _ IH|k _ IH|a k _ IH|k _ IH|t k _ IH|rq k Hrq _ IH
                 |p g h k _ IH|l k _ IH|p h|body k _ IHb _ IH|v k _ IH
                 |h k _ IH]; intros f Hf.
  - rewrite after_Return. exact Hf.
  - rewrite after_Throw. exact Hf.
  - rewrite after_NewDate. apply IH, Hf.
  - rewrite after_ReadAppState. apply IH, Hf.
  - rewrite after_WriteAppState. apply IH. destruct f. exact Hf.
  - rewrite after_ReadSessionStartTime. apply IH, Hf.
  - rewrite after_WriteSessionStartTime. apply IH. destruct f. exact Hf.
  - rewrite after_Issue. apply IH. destruct f, Hf as [Ht Hp].
    split; simpl in *; (apply Forall_app; split; [assumption|]);
      (constructor; [exact Hrq|constructor]).
  - rewrite after_Then. apply IH. destruct f. exact Hf.
  - rewrite after_PromiseAll. apply IH. destruct f. exact Hf.
  - rewrite after_Await. exact Hf.
  - rewrite after_Async. apply IH, IHb. destruct f. exact Hf.
  - rewrite after_ConsoleLog. apply IH. destruct f, Hf as [Ht Hp].
    split; simpl in *; [|exact Hp].
    apply Forall_app. split; [exact Ht|]. constructor; [exact I|constructor].
  - rewrite after_AddEventListener. apply IH. destruct f. exact Hf.
Qed.

Lemma exec_clean c (fr : pid) s : tidy c -> clean s -> clean (exec c fr s).
Proof. intros Hc Hs. unfold clean. rewrite frameOf_exec. exact (after_tidy c Hc _ Hs). Qed.

Lemma call_clean c s : tidy c -> clean s -> clean (call c s).
Proof.
  intros Hc Hs. unfold clean. rewrite frameOf_call.
  apply (after_tidy c Hc). unfold clean in Hs. destruct (frameOf s). exact Hs.
Qed.

Lemma settle_clean (p : pid) o s : clean s -> clean (settle p o s).
Proof. unfold clean. rewrite frameOf_settle. tauto. Qed.

Lemma countdown_clean (d : pid) s : clean s -> clean (countdown d s).
Proof. unfold clean. rewrite frameOf_countdown. tauto. Qed.

Lemma after_store c : forall f, f_store (after c f) = f_store f.
Proof.
  induction c as [v|e|k IH|k IH|a k IH|k IH|t k IH|rq k IH|p f g k IH
                 |l k IH|p h|body IHb k IH|v k IH|h k IH]; intros f0.
  - rewrite after_Return. reflexivity.
  - rewrite after_Throw. reflexivity.
  - rewrite after_NewDate. apply IH.
  - rewrite after_ReadAppState. apply IH.
  - rewrite after_WriteAppState, IH. destruct f0. reflexivity.
  - rewrite after_ReadSessionStartTime. apply IH.
  - rewrite after_WriteSessionStartTime, IH. destruct f0. reflexivity.
  - rewrite after_Issue, IH. destruct f0. reflexivity.
  - rewrite after_Then, IH. destruct f0. reflexivity.
  - rewrite after_PromiseAll, IH. destruct f0. reflexivity.
  - rewrite after_Await. reflexivity.
  - rewrite after_Async, IH, IHb. destruct f0. reflexivity.
  - rewrite after_ConsoleLog, IH. destruct f0. reflexivity.
  - rewrite after_AddEventListener, IH. destruct f0. reflexivity.
Qed.

Lemma exec_store c (fr : pid) s : store (exec c fr s) = store s.
Proof.
  change (f_store (frameOf (exec c fr s)) = f_store (frameOf s)).
  rewrite frameOf_exec. apply after_store.
Qed.

Lemma call_store c s : store (call c s) = store s.
Proof.
  change (f_store (frameOf (call c s)) = f_store (frameOf s)).
  rewrite frameOf_call, after_store. destruct (frameOf s). reflexivity.
Qed.

(** The invariant of a run. *)
Definition kept (s : state) : Prop := clean s /\ Q (store s) /\ calm s.

Hypothesis handlers_tidy : forall k v, K k -> tidy (handler this k v).
Hypothesis handlers_among : forall k v, K k -> among (handler this k v).
Hypothesis perform_keeps : forall rq a s s1 r,
  P rq -> Q (store s) -> perform rq a s = Some (s1, r) -> Q (store s1).

Lemma exec_kept c (fr : pid) s :
  tidy c -> among c -> kept s -> kept (exec c fr s).
Proof.
  intros Hc Ha (Hs & Hq & Hk). split; [apply exec_clean; assumption|].
  split; [rewrite exec_store; exact Hq|apply exec_calm; assumption].
Qed.

Lemma settle_kept (p : pid) o s : kept s -> kept (settle p o s).
Proof.
  intros (Hs & Hq & Hk). split; [apply settle_clean, Hs|].
  split; [|apply settle_calm, Hk].
  change (Q (f_store (frameOf (settle p o s)))).
  rewrite frameOf_settle. exact Hq.
Qed.

Lemma run_job_kept j js s :
  jobs s = j :: js -> kept s -> kept (run_job this j (with_jobs js s)).
Proof.
  intros Hjobs (Hc & Hq & Hp & Hj & Hl).
  rewrite Hjobs in Hj. apply Forall_cons in Hj as [Hr Hj].
  assert (kept (with_jobs js s)) as Hk.
  { destruct s. repeat split; simpl in *; try assumption; apply Hc. }
  clear Hc Hq Hp Hl Hjobs.
  destruct j as [[[h|] [h'|] d|h fr|d] [v|e]]; cbn [run_job]; simpl in Hr;
    first [apply settle_kept, Hk
          |apply exec_kept;
           [apply handlers_tidy; tauto|apply handlers_among; tauto|exact Hk]
          |idtac].
  destruct Hk as (Hc & Hq & Hk).
  split; [apply countdown_clean; exact Hc|]. split; [|apply countdown_calm, Hk].
  change (Q (f_store (frameOf (countdown d (with_jobs js s))))).
  rewrite frameOf_countdown. exact Hq.
Qed.

Lemma perform_frame rq a s s1 r :
  perform rq a s = Some (s1, r) ->
  trace s1 = trace s /\ pending s1 = pending s
  /\ promises s1 = promises s /\ jobs s1 = jobs s /\ listeners s1 = listeners s.
Proof.
  destruct s. destruct rq, a; simpl; intros [= <- <-] || discriminate;
    repeat split; reflexivity.
Qed.

Lemma complete_kept (p : pid) a s s' :
  kept s -> complete p a s = Some s' -> kept s'.
Proof.
  intros ([Ht Hp] & Hq & Hk) Hc. unfold complete in Hc.
  destruct (take_request p (pending s)) as [[rq rest]|] eqn:Htake;
    [|discriminate].
  destruct (perform rq a (with_pending rest s)) as [[s1 r]|] eqn:Hperf;
    [|discriminate].
  injection Hc as <-.
  destruct (FirstOpen.take_request_split _ _ _ _ Htake) as (l1 & l2 & Hpd & ->).
  change (f_pending (frameOf s)) with (pending s) in Hp.
  change (f_trace (frameOf s)) with (trace s) in Ht.
  rewrite Hpd in Hp. apply Forall_app in Hp as [Hp1 Hp2].
  apply Forall_cons in Hp2 as [Hrq Hp2].
  destruct (perform_frame _ _ _ _ _ Hperf) as (Htr & Hpe & Hpr & Hjo & Hli).
  assert (Q (store s1)) as Hq1.
  { apply (perform_keeps _ _ _ _ _ Hrq) in Hperf; [exact Hperf|].
    destruct s. exact Hq. }
  assert (trace (with_pending (l1 ++ l2) s) = trace s
          /\ pending (with_pending (l1 ++ l2) s) = l1 ++ l2
          /\ promises (with_pending (l1 ++ l2) s) = promises s
          /\ jobs (with_pending (l1 ++ l2) s) = jobs s
          /\ listeners (with_pending (l1 ++ l2) s) = listeners s)
    as (Htr0 & Hpe0 & Hpr0 & Hjo0 & Hli0)
    by (destruct s; repeat split; reflexivity).
  rewrite Htr0 in Htr. rewrite Hpe0 in Hpe. rewrite Hpr0 in Hpr.
  rewrite Hjo0 in Hjo. rewrite Hli0 in Hli.
  assert (trace (record (Completed p r) s1) = trace s1 ++ [Completed p r]
          /\ pending (record (Completed p r) s1) = pending s1
          /\ store (record (Completed p r) s1) = store s1
          /\ promises (record (Completed p r) s1) = promises s1
          /\ jobs (record (Completed p r) s1) = jobs s1
          /\ listeners (record (Completed p r) s1) = listeners s1)
    as (Htr1 & Hpe1 & Hst1 & Hpr1 & Hjo1 & Hli1)
    by (destruct s1; repeat split; reflexivity).
  apply settle_kept. split; [|split].
  - split.
    + change (Forall letThrough (trace (record (Completed p r) s1))).
      rewrite Htr1, Htr. apply Forall_app. split; [exact Ht|].
      constructor; [exact I|constructor].
    + change (Forall (fun x => P x.2) (pending (record (Completed p r) s1))).
      rewrite Hpe1, Hpe. apply Forall_app. split; assumption.
  - rewrite Hst1. exact Hq1.
  - unfold calm. rewrite Hpr1, Hjo1, Hli1, Hpr, Hjo, Hli. exact Hk.
Qed.

Lemma listeners_kept next (l : list kont) s :
  Forall K l -> kept s ->
  kept (foldl (fun s' h => call (handler this h (VAppState next)) s') s l).
Proof.
  revert s. induction l as [|h l IH]; intros s Hl Hk; [exact Hk|].
  apply Forall_cons in Hl as [Hh Hl].
  simpl. apply IH; [exact Hl|]. destruct Hk as (Hc & Hq & Hk).
  split; [apply call_clean; [apply handlers_tidy, Hh|exact Hc]|].
  split; [rewrite call_store; exact Hq|].
  apply call_calm; [apply handlers_among, Hh|exact Hk].
Qed.

(** What the application may call: tidy code. *)
Definition tidyCall (i : input) : Prop :=
  match i with ICall c => tidy c /\ among c | _ => True end.

Lemma step_kept i s s' :
  tidyCall i -> kept s -> step this i s = Some s' -> kept s'.
Proof.
  intros Hi Hk Hstep. unfold step in Hstep.
  destruct i as [|p a|ms|next|c], (jobs s) as [|j js] eqn:Hjobs;
    try discriminate.
  - injection Hstep as <-. exact (run_job_kept _ _ _ Hjobs Hk).
  - exact (complete_kept _ _ _ _ Hk Hstep).
  - injection Hstep as <-. destruct s. exact Hk.
  - injection Hstep as <-. apply listeners_kept; [apply Hk|exact Hk].
  - injection Hstep as <-. destruct Hi as [Hi Ha], Hk as (Hc & Hq & Hk).
    split; [apply call_clean; assumption|].
    split; [rewrite call_store; exact Hq|apply call_calm; assumption].
Qed.

Lemma run_kept ins : forall s s',
  Forall tidyCall ins -> kept s -> run this ins s = Some s' -> kept s'.
Proof.
  induction ins as [|i ins IH]; intros s s' Hins Hk Hrun; simpl in Hrun.
  - injection Hrun as <-. exact Hk.
  - apply Forall_cons in Hins as [Hi Hins].
    destruct (step this i s) as [s1|] eqn:Hstep; [|discriminate].
    exact (IH s1 s' Hins (step_kept _ _ _ Hi Hk Hstep) Hrun).
Qed.

End Tidy.

Lemma tidy_mono (P P' : request -> Prop) c :
  (forall rq, P rq -> P' rq) -> tidy P c -> tidy P' c.
Proof. intros HP. induction 1; constructor; auto. Qed.

(** With every callback let through there is nothing to check. *)
Definition anyKont (_ : kont) : Prop := True.

Lemma among_any c : among anyKont c.
Proof.
  induction c as [v|e|k IH|k IH|a k IH|k IH|t k IH|rq k IH|p f g k IH
                 |l k IH|p h|body IHb k IH|v k IH|h k IH];
    constructor; try assumption; try exact I;
    try (destruct f; exact I); try (destruct g; exact I).
Qed.

Lemma boot_kept `{Host} (this : Lumin) P (Q : gmap string string -> Prop) K m t :
  Q m -> kept P Q K (boot this m t).
Proof.
  intros Hq. split; [split; constructor|]. split; [exact Hq|].
  repeat split; constructor.
Qed.

Section Own.
Context `{Host}.
Variable this : Lumin.

Let keys := this_asyncStorageKeys this.
Let config := this_config this.

(** The address every event is posted to. *)
Definition endpoint : string :=
  default "undefined" (url config) +:+ "/api/events/create".

(** The requests of the class: reads, writes of a date string and deletes
    under its six keys, posts of an event with its token and environment
    to its endpoint, and the parsing of a response. *)
Definition own (rq : request) : Prop :=
  match rq with
  | RqGetItem key | RqRemoveItem key => key ∈ allKeys keys
  | RqSetItem key v => key ∈ allKeys keys /\ exists t, v = dateToString t
  | RqFetch r =>
      req_url r = endpoint
      /\ req_method r = "POST"
      /\ req_contentType r = "application/json"
      /\ ev_appToken (req_body r) = this_token this
      /\ ev_environment (req_body r) = environment config
  | RqJson _ => True
  end.

(** The same without the deletes. *)
Definition ownKeeping (rq : request) : Prop :=
  match rq with RqRemoveItem _ => False | _ => own rq end.

Lemma ownKeeping_own rq : ownKeeping rq -> own rq.
Proof. destruct rq; simpl; tauto. Qed.

Ltac key_in :=
  unfold markerKey, allKeys;
  repeat first [apply list_elem_of_here|apply list_elem_of_further].

Lemma reads_own key : key ∈ allKeys keys -> ownKeeping (RqGetItem key).
Proof. intros Hk. exact Hk. Qed.

Lemma writes_own key t :
  key ∈ allKeys keys -> ownKeeping (RqSetItem key (dateToString t)).
Proof. intros Hk. split; [exact Hk|]. exists t. reflexivity. Qed.

Lemma sends_own event data : ownKeeping (RqFetch (eventRequest this event data)).
Proof. unfold eventRequest. repeat split. Qed.

Lemma track_tidy event data : tidy ownKeeping (track this event data).
Proof.
  unfold track, Fetch. constructor; [apply sends_own|]. intros p1.
  constructor. intros p2. constructor. intros _. constructor.
Qed.

Lemma markerKey_own p : markerKey this p ∈ allKeys keys.
Proof. destruct p; key_in. Qed.

Lemma sessionKey_own : endOfLastSession keys ∈ allKeys keys.
Proof. key_in. Qed.

Lemma firstOpenKey_own : firstOpenTime keys ∈ allKeys keys.
Proof. key_in. Qed.

Lemma startSession_tidy : tidy ownKeeping (startSession this).
Proof.
  unfold startSession, GetItem. constructor. intros now. constructor.
  constructor; [apply reads_own, sessionKey_own|]. intros p. constructor.
Qed.

Lemma endSession_tidy c : tidy ownKeeping c -> tidy ownKeeping (endSession this c).
Proof.
  intros Hc. unfold endSession, SetItem. constructor. intros now.
  constructor. intros start. constructor; [apply track_tidy|]. intros _.
  constructor. intros now'.
  constructor; [apply writes_own, sessionKey_own|]. intros _. exact Hc.
Qed.

Lemma setFirstOpenTime_tidy c :
  tidy ownKeeping c -> tidy ownKeeping (setFirstOpenTime this c).
Proof.
  intros Hc. unfold setFirstOpenTime, GetItem.
  constructor; [apply reads_own, firstOpenKey_own|]. intros p.
  constructor. intros _. exact Hc.
Qed.

Lemma trackPeriodActiveUser_tidy p :
  tidy ownKeeping (trackPeriodActiveUser this p).
Proof.
  unfold trackPeriodActiveUser, GetItem.
  constructor; [apply reads_own, markerKey_own|]. intros r. constructor.
Qed.

Lemma trackActiveUser_tidy c :
  tidy ownKeeping c -> tidy ownKeeping (trackActiveUser this c).
Proof.
  intros Hc. unfold trackActiveUser, trackDailyActiveUser,
    trackWeeklyActiveUser, trackMonthlyActiveUser, trackYearlyActiveUser.
  repeat (constructor; [apply trackPeriodActiveUser_tidy|]; intros _).
  exact Hc.
Qed.

Lemma trackThenMark_tidy p : tidy ownKeeping (trackThenMark this p).
Proof.
  unfold trackThenMark. constructor; [apply track_tidy|]. intros q.
  constructor. intros _. constructor.
Qed.

Lemma init_tidy : tidy ownKeeping (init this).
Proof.
  unfold init. constructor. apply setFirstOpenTime_tidy.
  assert (tidy ownKeeping (Async (startSession this) (fun _ => Done))) as Hs.
  { constructor; [apply startSession_tidy|]. intros _. constructor. }
  destruct (truthyB _); [apply trackActiveUser_tidy|]; exact Hs.
Qed.

Lemma trackCustomEvent_tidy event data :
  tidy ownKeeping (trackCustomEvent this event data).
Proof.
  unfold trackCustomEvent. constructor; [apply track_tidy|].
  intros _. constructor.
Qed.

Lemma clear_tidy : tidy own (clearLuminItemsFromAsyncStorage this).
Proof.
  unfold clearLuminItemsFromAsyncStorage, RemoveItem.
  repeat (constructor; [simpl; key_in|]; intros ?).
  constructor. intros d. constructor.
Qed.

(** Every callback of the class is tidy, and deletes nothing. *)
Lemma handler_tidy k v : tidy ownKeeping (handler this k v).
Proof.
  destruct k; simpl.
  - destruct v; try constructor. unfold onAppStateChange.
    intros a1.
    assert (tidy ownKeeping (ReadAppState (fun a2 =>
              (if bool_decide (a2 = active) && matchInactiveBackground a
               then endSession this else fun c => c)
                (WriteAppState a Done)))) as Hrest.
    { constructor. intros a2.
      destruct (bool_decide (a2 = active) && matchInactiveBackground a).
      - apply endSession_tidy. repeat constructor.
      - repeat constructor. }
    destruct (matchInactiveBackground a1 && bool_decide (a = active));
      [|exact Hrest].
    assert (tidy ownKeeping (Async (startSession this) (fun _ =>
              ReadAppState (fun a2 =>
              (if bool_decide (a2 = active) && matchInactiveBackground a
               then endSession this else fun c => c)
                (WriteAppState a Done))))) as Hstart.
    { constructor; [apply startSession_tidy|]. intros _. exact Hrest. }
    destruct (truthyB (automaticallyTrackActiveUsers (this_config this)));
      [apply trackActiveUser_tidy|]; exact Hstart.
  - unfold afterStartSession.
    assert (forall diff, tidy ownKeeping
              (Async (track this "SESSION_START"
                        [("timeSinceLastSession", diff)]) (fun _ => Done)))
      as Hsend.
    { intros diff. constructor; [apply track_tidy|]. intros _. constructor. }
    destruct v; try apply Hsend.
    destruct (JsString.nonempty _); [|apply Hsend].
    constructor. intros now. apply Hsend.
  - unfold onFirstOpenTime. destruct (truthy v); [constructor|].
    unfold SetItem. constructor. intros now.
    constructor; [apply writes_own, firstOpenKey_own|]. intros _.
    constructor; [apply track_tidy|]. intros _. constructor.
  - unfold afterCadenceRead.
    destruct v; try apply trackThenMark_tidy.
    destruct (JsString.nonempty _); [|apply trackThenMark_tidy].
    constructor. intros now.
    destruct (timeCondition _ _ _ _); [apply trackThenMark_tidy|constructor].
  - unfold onTracked, SetItem. constructor. intros now.
    constructor; [apply writes_own, markerKey_own|]. intros _. constructor.
  - unfold onFetchThen, ResJson. constructor; [exact I|]. intros q.
    constructor. intros _. constructor.
  - unfold onJsonThen. destruct (truthyB _); repeat constructor.
  - unfold onFetchCatch. destruct (truthyB _); repeat constructor.
  - constructor.
Qed.

(** The methods of the class. *)
Inductive method :=
| Minit
| MstartSession
| MendSession
| MsetFirstOpenTime
| MtrackActiveUser
| MtrackPeriodActiveUser (p : period)
| Mtrack (event : string) (data : list (string * val))
| MtrackCustomEvent (event : string) (data : list (string * val))
| MclearLuminItemsFromAsyncStorage.

Definition body (m : method) : code :=
  match m with
  | Minit => init this
  | MstartSession => startSession this
  | MendSession => endSession this Done
  | MsetFirstOpenTime => setFirstOpenTime this Done
  | MtrackActiveUser => trackActiveUser this Done
  | MtrackPeriodActiveUser p => trackPeriodActiveUser this p
  | Mtrack event data => track this event data
  | MtrackCustomEvent event data => trackCustomEvent this event data
  | MclearLuminItemsFromAsyncStorage => clearLuminItemsFromAsyncStorage this
  end.

Definition isClear (m : method) : bool :=
  match m with MclearLuminItemsFromAsyncStorage => true | _ => false end.

Lemma body_tidy m : isClear m = false -> tidy ownKeeping (body m).
Proof.
  destruct m; simpl; intros Hm; try discriminate.
  - apply init_tidy.
  - apply startSession_tidy.
  - apply endSession_tidy. constructor.
  - apply setFirstOpenTime_tidy. constructor.
  - apply trackActiveUser_tidy. constructor.
  - apply trackPeriodActiveUser_tidy.
  - apply track_tidy.
  - apply trackCustomEvent_tidy.
Qed.

Lemma body_own m : tidy own (body m).
Proof.
  destruct (isClear m) eqn:Hm.
  - destruct m; try discriminate. apply clear_tidy.
  - exact (tidy_mono _ _ _ ownKeeping_own (body_tidy m Hm)).
Qed.

(** An input of a process in which the application calls methods of the
    class, and one in which it does not call the reset. *)
Definition fromClass (i : input) : Prop :=
  match i with ICall c => exists m, c = body m | _ => True end.

Definition keeping (i : input) : Prop :=
  match i with
  | ICall c => exists m, c = body m /\ isClear m = false
  | _ => True
  end.

Lemma letThrough_issued (P : request -> Prop) tr :
  Forall (letThrough P) tr -> Forall P (omap requestOf tr).
Proof.
  induction 1 as [|a tr Ha _ IH]; [constructor|].
  cbn [omap list_omap]. destruct a; simpl in *; try exact IH.
  constructor; assumption.
Qed.

(** What the writes and deletes of the class leave of a store that held
    [m]: the keys that are not its own as they were, and under every key
    the value of [m] or a date string. *)
Definition within (m m' : gmap string string) : Prop :=
  (forall key, key ∉ allKeys keys -> m' !! key = m !! key)
  /\ (forall key v, m' !! key = Some v ->
        m !! key = Some v \/ exists t, v = dateToString t).

Lemma perform_within m rq a s s1 r :
  own rq -> within m (store s) -> perform rq a s = Some (s1, r) ->
  within m (store s1).
Proof.
  intros Hrq [Hout Hval] Hp. destruct s as [m0 t ps pd js tr ls a0 st].
  simpl in *.
  destruct rq as [key|key v|key|rq|res], a; simpl in Hp; try discriminate;
    injection Hp as <- <-; simpl; try (split; assumption).
  - destruct Hrq as [Hk [t' ->]]. unfold AsyncStorage.setItem. split.
    + intros key' Hk'. rewrite lookup_insert_ne; [apply Hout, Hk'|].
      intros ->. contradiction.
    + intros key' v'. destruct (decide (key = key')) as [->|Hne].
      * rewrite lookup_insert_eq. intros [= <-]. right. exists t'. reflexivity.
      * rewrite lookup_insert_ne by exact Hne. apply Hval.
  - unfold AsyncStorage.removeItem. split.
    + intros key' Hk'. rewrite lookup_delete_ne; [apply Hout, Hk'|].
      intros ->. contradiction.
    + intros key' v' Hl. apply lookup_delete_Some in Hl as [_ Hl].
      exact (Hval _ _ Hl).
Qed.

Lemma fromClass_tidy i : fromClass i -> tidyCall own anyKont i.
Proof.
  destruct i; simpl; auto. intros [m ->].
  split; [apply body_own|apply among_any].
Qed.

Lemma keeping_tidy i : keeping i -> tidyCall ownKeeping anyKont i.
Proof.
  destruct i; simpl; auto. intros [m [-> Hm]].
  split; [exact (body_tidy m Hm)|apply among_any].
Qed.

(** Whatever the application calls of the class and whatever the host
    does, in any order: every request the process issues is one of the
    class's own (a read, a write of a date string or a delete under one of
    its six keys, an event posted to its endpoint with its token and
    environment, the parsing of a response); the keys of the store that are
    not its own keep their values; and what is found under any key is what
    was there at the launch or a date string. *)
Theorem requests_are_own m t ins s :
  Forall fromClass ins ->
  run this ins (boot this m t) = Some s ->
  Forall own (issued s)
  /\ (forall key, key ∉ allKeys keys -> store s !! key = m !! key)
  /\ (forall key v, store s !! key = Some v ->
        m !! key = Some v \/ exists t', v = dateToString t').
Proof.
  intros Hins Hrun.
  assert (kept own (within m) anyKont (boot this m t)) as Hk0.
  { apply boot_kept. split; auto. }
  pose proof (run_kept this own (within m) anyKont
                (fun k v _ => tidy_mono _ _ _ ownKeeping_own (handler_tidy k v))
                (fun k v _ => among_any _)
                (perform_within m) ins _ _
                (Forall_impl _ _ _ Hins fromClass_tidy) Hk0 Hrun)
    as ([Htr _] & [Hout Hval] & _).
  split; [exact (letThrough_issued own _ Htr)|]. split; assumption.
Qed.

(** As long as the application does not call
    [clearLuminItemsFromAsyncStorage], nothing is ever deleted: no delete
    is issued and a key that held a value at the launch holds one later. *)
Theorem nothing_deleted_without_reset m t ins s :
  Forall keeping ins ->
  run this ins (boot this m t) = Some s ->
  Forall ownKeeping (issued s)
  /\ (forall key, is_Some (m !! key) -> is_Some (store s !! key)).
Proof.
  intros Hins Hrun.
  assert (kept ownKeeping (fun m' => forall key, is_Some (m !! key) ->
                                                   is_Some (m' !! key))
            anyKont (boot this m t)) as Hk0.
  { apply boot_kept. auto. }
  assert (forall rq a s0 s1 r,
            ownKeeping rq ->
            (forall key, is_Some (m !! key) -> is_Some (store s0 !! key)) ->
            perform rq a s0 = Some (s1, r) ->
            forall key, is_Some (m !! key) -> is_Some (store s1 !! key))
    as Hperf.
  { intros rq a s0 s1 r Hrq Hq Hp. destruct s0 as [m0 t0 ps pd js tr ls a0 st].
    simpl in *.
    destruct rq as [key|key v|key|rq|res], a; simpl in Hp; try discriminate;
      try contradiction; injection Hp as <- <-; simpl; try exact Hq.
    intros key' Hk'. unfold AsyncStorage.setItem.
    destruct (decide (key = key')) as [->|Hne].
    - rewrite lookup_insert_eq. eexists. reflexivity.
    - rewrite lookup_insert_ne by exact Hne. exact (Hq _ Hk'). }
  pose proof (run_kept this ownKeeping _ anyKont
                (fun k v _ => handler_tidy k v) (fun k v _ => among_any _)
                Hperf ins _ _
                (Forall_impl _ _ _ Hins keeping_tidy) Hk0 Hrun) as Hk.
  destruct Hk as ([Htr _] & Hq & _).
  split; [exact (letThrough_issued ownKeeping _ Htr)|exact Hq].
Qed.

End Own.
(** ** Opting out of the automatic counts *)

Section Manual.
Context `{Host}.
Variable this : Lumin.

Let keys := this_asyncStorageKeys this.
Let config := this_config this.

(** The callbacks other than those of the four cadence checks. *)
Definition noCadence (k : kont) : Prop :=
  match k with KCadence _ | KMark _ => False | _ => True end.

(** The calls other than those that start a cadence check. *)
Definition isCadence (m : method) : bool :=
  match m with
  | MtrackActiveUser | MtrackPeriodActiveUser _ => true
  | _ => false
  end.

Definition manual (i : input) : Prop :=
  match i with
  | ICall c => exists m, c = body this m /\ isCadence m = false
  | _ => True
  end.

(** The events the class sends of its own accord, the cadence events
    apart. *)
Definition builtin : list string := ["FIRST_OPEN"; "SESSION_START"; "SESSION_END"].

(** The events a schedule may lead to: the built-in ones and those the
    application tracks by name. *)
Definition sendable (ins : list input) (event : string) : Prop :=
  event ∈ builtin
  \/ exists data,
       ICall (track this event data) ∈ ins
       \/ ICall (trackCustomEvent this event data) ∈ ins.

(** The requests of a process that runs no cadence check: the store is
    read and written under the first-open key and the end-of-session key
    only. *)
Definition sparing (ins : list input) (rq : request) : Prop :=
  match rq with
  | RqGetItem key | RqSetItem key _ =>
      key = firstOpenTime keys \/ key = endOfLastSession keys
  | RqRemoveItem _ => True
  | RqFetch r => sendable ins (ev_type (req_body r))
  | RqJson _ => True
  end.

(** What such a process leaves of a store that held [m]: a key other than
    those two holds what it held, or nothing after a reset. *)
Definition spared (m m' : gmap string string) : Prop :=
  forall key,
    key <> firstOpenTime keys -> key <> endOfLastSession keys ->
    m' !! key = m !! key \/ m' !! key = None.

Section Schedule.
Variable ins : list input.
Hypothesis flag_off : truthyB (automaticallyTrackActiveUsers config) = false.

Let fine (c : code) : Prop := tidy (sparing ins) c /\ among noCadence c.

Lemma track_fine event data : sendable ins event -> fine (track this event data).
Proof.
  intros He. unfold track, Fetch. split.
  - constructor; [exact He|]. intros p1. constructor. intros p2.
    constructor. intros _. constructor.
  - constructor. intros p1. constructor; [exact I|exact I|]. intros p2.
    constructor; [exact I|exact I|]. intros _. constructor.
Qed.

Lemma builtin_fine event data : event ∈ builtin -> fine (track this event data).
Proof. intros He. apply track_fine. left. exact He. Qed.

Lemma async_fine body c : fine body -> fine c -> fine (Async body (fun _ => c)).
Proof.
  intros [Hb Hb'] [Hc Hc']. split; constructor; try assumption; intros _;
    assumption.
Qed.

Lemma done_fine : fine Done.
Proof. split; constructor. Qed.

Lemma startSession_fine : fine (startSession this).
Proof.
  unfold startSession, GetItem. split.
  - constructor. intros now. constructor.
    constructor; [right; reflexivity|]. intros p. constructor.
  - constructor. intros now. constructor. constructor. intros p.
    constructor. exact I.
Qed.

Lemma endSession_fine c : fine c -> fine (endSession this c).
Proof.
  intros [Hc Hc']. unfold endSession, SetItem.
  assert (forall now start,
            fine (track this "SESSION_END"
                    [("duration", VNum (DateFns.differenceInSeconds now start))]))
    as Hsend.
  { intros now start. apply builtin_fine. unfold builtin. set_solver. }
  split.
  - constructor. intros now. constructor. intros start.
    constructor; [apply Hsend|]. intros _. constructor. intros now'.
    constructor; [right; reflexivity|]. intros _. exact Hc.
  - constructor. intros now. constructor. intros start.
    constructor; [apply Hsend|]. intros _. constructor. intros now'.
    constructor. intros _. exact Hc'.
Qed.

Lemma setFirstOpenTime_fine c : fine c -> fine (setFirstOpenTime this c).
Proof.
  intros [Hc Hc']. unfold setFirstOpenTime, GetItem. split.
  - constructor; [left; reflexivity|]. intros p. constructor. intros _.
    exact Hc.
  - constructor. intros p. constructor; [exact I|exact I|]. intros _.
    exact Hc'.
Qed.

Lemma init_fine : fine (init this).
Proof.
  unfold init. fold config. rewrite flag_off.
  assert (fine (setFirstOpenTime this (Async (startSession this) (fun _ => Done))))
    as [Hc Hc'].
  { apply setFirstOpenTime_fine, async_fine;
      [apply startSession_fine|apply done_fine]. }
  split; constructor; try assumption. exact I.
Qed.

Lemma clear_fine : fine (clearLuminItemsFromAsyncStorage this).
Proof.
  unfold clearLuminItemsFromAsyncStorage, RemoveItem. split.
  - repeat (constructor; [exact I|]; intros ?).
    constructor. intros d. constructor.
  - repeat (constructor; intros ?). constructor. exact I.
Qed.

Lemma listener_fine next : fine (onAppStateChange this next).
Proof.
  unfold onAppStateChange. fold config. rewrite flag_off.
  assert (fine (ReadAppState (fun a2 =>
            (if bool_decide (a2 = active) && matchInactiveBackground next
             then endSession this else fun c => c)
              (WriteAppState next Done)))) as Hrest.
  { assert (fine (WriteAppState next Done)) as Hw
      by (split; repeat constructor).
    split; constructor; intros a2;
      destruct (bool_decide (a2 = active) && matchInactiveBackground next);
      try apply (endSession_fine _ Hw); apply Hw. }
  split; constructor; intros a1;
    destruct (matchInactiveBackground a1 && bool_decide (next = active));
    try apply Hrest; apply (async_fine _ _ startSession_fine Hrest).
Qed.

Lemma handler_fine k v : noCadence k -> fine (handler this k v).
Proof.
  destruct k; simpl; intros Hk; try contradiction.
  - destruct v; try apply done_fine. apply listener_fine.
  - unfold afterStartSession.
    assert (forall diff,
              fine (Async (track this "SESSION_START"
                             [("timeSinceLastSession", diff)]) (fun _ => Done)))
      as Hsend.
    { intros diff. apply async_fine; [|apply done_fine].
      apply builtin_fine. unfold builtin. set_solver. }
    destruct v; try apply Hsend.
    destruct (JsString.nonempty _); [|apply Hsend].
    split; constructor; intros now; apply Hsend.
  - unfold onFirstOpenTime. destruct (truthy v); [apply done_fine|].
    assert (fine (Async (track this "FIRST_OPEN" []) (fun _ => Done)))
      as [Hs Hs'].
    { apply async_fine; [|apply done_fine].
      apply builtin_fine. unfold builtin. set_solver. }
    unfold SetItem. split.
    + constructor. intros now. constructor; [left; reflexivity|].
      intros _. exact Hs.
    + constructor. intros now. constructor. intros _. exact Hs'.
  - unfold onFetchThen, ResJson. split.
    + constructor; [exact I|]. intros q. constructor. intros _. constructor.
    + constructor. intros q. constructor; [exact I|exact I|]. intros _.
      constructor.
  - unfold onJsonThen. destruct (truthyB (logResponse _)); split;
      repeat constructor.
  - unfold onFetchCatch. destruct (truthyB (logError _)); split;
      repeat constructor.
  - apply done_fine.
Qed.

Lemma manual_fine i : i ∈ ins -> manual i -> tidyCall (sparing ins) noCadence i.
Proof.
  destruct i as [|p a|ms|next|c]; simpl; auto. intros Hin [m [-> Hm]].
  destruct m; simpl in Hm; try discriminate; simpl in Hin |- *.
  - apply init_fine.
  - apply startSession_fine.
  - apply endSession_fine, done_fine.
  - apply setFirstOpenTime_fine, done_fine.
  - apply track_fine. right. exists data. left. exact Hin.
  - unfold trackCustomEvent. apply async_fine; [|apply done_fine].
    apply track_fine. right. exists data. right. exact Hin.
  - apply clear_fine.
Qed.

Lemma perform_spared m rq a s s1 r :
  sparing ins rq -> spared m (store s) -> perform rq a s = Some (s1, r) ->
  spared m (store s1).
Proof.
  intros Hrq Hs Hp. destruct s as [m0 t ps pd js tr ls a0 st]. simpl in *.
  destruct rq as [key|key v|key|rq|res], a; simpl in Hp; try discriminate;
    injection Hp as <- <-; simpl; try exact Hs.
  - intros key' H1 H2. unfold AsyncStorage.setItem.
    rewrite lookup_insert_ne; [exact (Hs key' H1 H2)|].
    intros ->. destruct Hrq; contradiction.
  - intros key' H1 H2. unfold AsyncStorage.removeItem.
    destruct (decide (key = key')) as [->|Hne].
    + right. apply lookup_delete_eq.
    + rewrite lookup_delete_ne by exact Hne. exact (Hs key' H1 H2).
Qed.

End Schedule.

(** With [automaticallyTrackActiveUsers] off and an application that does
    not start a cadence check itself, no cadence check ever runs, whatever
    else the application calls and whatever the host does, in any order:
    the store is read and written under the first-open key and the
    end-of-session key only, every event that is sent is FIRST_OPEN,
    SESSION_START, SESSION_END or one the application tracked by that
    name, and every other key of the store holds what it held at the
    launch, or nothing after a reset. *)
Theorem opting_out_stops_the_counts m t ins s :
  truthyB (automaticallyTrackActiveUsers config) = false ->
  Forall manual ins ->
  run this ins (boot this m t) = Some s ->
  Forall (sparing ins) (issued s) /\ spared m (store s).
Proof.
  intros Hflag Hins Hrun.
  assert (Forall (tidyCall (sparing ins) noCadence) ins) as Hcalls.
  { apply Forall_forall. intros i Hi.
    apply (manual_fine ins Hflag i Hi).
    exact (proj1 (Forall_forall _ _) Hins i Hi). }
  assert (kept (sparing ins) (spared m) noCadence (boot this m t)) as Hk0.
  { apply boot_kept. intros key _ _. left. reflexivity. }
  pose proof (run_kept this (sparing ins) (spared m) noCadence
                (fun k v Hk => proj1 (handler_fine ins Hflag k v Hk))
                (fun k v Hk => proj2 (handler_fine ins Hflag k v Hk))
                (perform_spared ins m) ins _ _ Hcalls Hk0 Hrun)
    as ([Htr _] & Hq & _).
  split; [exact (letThrough_issued _ _ Htr)|exact Hq].
Qed.

End Manual.
End Footprint.

(** * The events that are sent *)

Module Events.

Import Machine Frame Lifecycle.

Local Open Scope nat_scope.

Lemma obj_get_set k k' v o :
  obj_get k (obj_set k' v o)
  = if String.eqb k k' then Some v else obj_get k o.
Proof.
  induction o as [|[k0 v0] o IH]; simpl.
  - destruct (String.eqb k k'); reflexivity.
  - destruct (String.eqb_spec k' k0) as [->|Hne]; simpl.
    + destruct (String.eqb k k0); reflexivity.
    + rewrite IH. destruct (String.eqb_spec k k0) as [->|Hk]; [|reflexivity].
      destruct (String.eqb_spec k0 k') as [<-|_]; [contradiction|reflexivity].
Qed.

Lemma obj_get_app k a b :
  obj_get k (a ++ b)
  = match obj_get k a with Some v => Some v | None => obj_get k b end.
Proof.
  induction a as [|[k0 v0] a IH]; simpl; [reflexivity|].
  destruct (String.eqb k k0); [reflexivity|exact IH].
Qed.

(** In [{ ...a, ...b }] the last binding of [b] wins, then [a]. *)
Lemma obj_get_spread k b : forall a,
  obj_get k (obj_spread a b)
  = match obj_get k (reverse b) with
    | Some v => Some v
    | None => obj_get k a
    end.
Proof.
  unfold obj_spread. induction b as [|[k0 v0] b IH]; intros a; simpl.
  - reflexivity.
  - rewrite IH, reverse_cons, obj_get_app, obj_get_set. simpl.
    destruct (obj_get k (reverse b)); [reflexivity|].
    destruct (String.eqb k k0); reflexivity.
Qed.

Lemma obj_get_Some k v o :
  NoDup o.*1 -> (obj_get k o = Some v <-> (k, v) ∈ o).
Proof.
  induction o as [|[k0 v0] o IH]; simpl; intros Hnd.
  - split; [discriminate|]. intros Hx. apply elem_of_nil in Hx. destruct Hx.
  - apply NoDup_cons in Hnd as [Hk0 Hnd].
    destruct (String.eqb_spec k k0) as [->|Hne].
    + split.
      * intros [= ->]. apply list_elem_of_here.
      * intros Hx. apply elem_of_cons in Hx as [[= ->]|Hx]; [reflexivity|].
        contradiction Hk0. apply (list_elem_of_fmap_2 fst _ (k0, v)), Hx.
    + rewrite (IH Hnd). split.
      * intros Hx. apply list_elem_of_further, Hx.
      * intros Hx. apply elem_of_cons in Hx as [[= -> ->]|Hx];
          [contradiction|exact Hx].
Qed.

Lemma obj_get_reverse k o : NoDup o.*1 -> obj_get k (reverse o) = obj_get k o.
Proof.
  intros Hnd.
  assert (NoDup (reverse o).*1) as Hnd'.
  { rewrite fmap_reverse, reverse_Permutation. exact Hnd. }
  destruct (obj_get k o) as [v|] eqn:Ho.
  - apply (obj_get_Some k v _ Hnd'). rewrite elem_of_reverse.
    apply (obj_get_Some k v _ Hnd), Ho.
  - destruct (obj_get k (reverse o)) as [v|] eqn:Hr; [|reflexivity].
    apply (obj_get_Some k v _ Hnd') in Hr. rewrite elem_of_reverse in Hr.
    apply (obj_get_Some k v _ Hnd) in Hr. congruence.
Qed.

Lemma obj_set_key x k v o : x ∈ (obj_set k v o).*1 -> x = k \/ x ∈ o.*1.
Proof.
  induction o as [|[k0 v0] o IH]; simpl.
  - intros Hx. apply list_elem_of_singleton in Hx. left. exact Hx.
  - destruct (String.eqb_spec k k0) as [->|Hne]; simpl.
    + intros Hx. right. exact Hx.
    + intros Hx. apply elem_of_cons in Hx as [->|Hx].
      * right. apply list_elem_of_here.
      * destruct (IH Hx) as [->|Hx']; [left; reflexivity|].
        right. apply list_elem_of_further, Hx'.
Qed.

Lemma obj_set_NoDup k v o : NoDup o.*1 -> NoDup (obj_set k v o).*1.
Proof.
  induction o as [|[k0 v0] o IH]; simpl; intros Hnd.
  - apply NoDup_singleton.
  - apply NoDup_cons in Hnd as [Hk0 Hnd].
    destruct (String.eqb_spec k k0) as [->|Hne]; simpl.
    + apply NoDup_cons. split; assumption.
    + apply NoDup_cons. split; [|exact (IH Hnd)].
      intros Hx. apply obj_set_key in Hx as [->|Hx]; contradiction.
Qed.

Lemma obj_spread_NoDup b : forall a, NoDup a.*1 -> NoDup (obj_spread a b).*1.
Proof.
  unfold obj_spread. induction b as [|[k v] b IH]; intros a Ha; simpl.
  - exact Ha.
  - apply IH, obj_set_NoDup, Ha.
Qed.

Section Events.
Context `{Host}.
Variable this : Lumin.

(** [trackCustomEvent(event, data)], called in any state, issues one
    request, the post of the event. Of the data that goes out, a property
    of [data] is sent as given, also under the names [$custom] and [$info];
    [$custom] is [true] and [$info] is the platform record only when [data]
    does not say otherwise. *)
Theorem custom_event_data event data s :
  NoDup data.*1 ->
  exists r,
    issued (call (trackCustomEvent this event data) s) = issued s ++ [RqFetch r]
    /\ ev_type (req_body r) = event
    /\ forall key,
         obj_get key (ev_data (req_body r))
         = match obj_get key data with
           | Some v => Some v
           | None =>
               if String.eqb key "$custom" then Some (VBool true)
               else if String.eqb key "$info" then Some (infoObject this)
               else None
           end.
Proof.
  intros Hnd.
  exists (eventRequest this event (obj_spread [("$custom", VBool true)] data)).
  split; [|split].
  - unfold issued.
    change (trace (call (trackCustomEvent this event data) s))
      with (f_trace (frameOf (call (trackCustomEvent this event data) s))).
    rewrite frameOf_call. cbn. rewrite omap_snoc. reflexivity.
  - reflexivity.
  - intros key. unfold eventRequest, eventRecord. cbn [req_body ev_data].
    rewrite !obj_get_spread.
    assert (NoDup (obj_spread [("$custom", VBool true)] data).*1) as Hnd2.
    { apply obj_spread_NoDup. apply NoDup_singleton. }
    rewrite (obj_get_reverse _ _ Hnd2), obj_get_spread,
      (obj_get_reverse _ _ Hnd).
    destruct (obj_get key data); [reflexivity|]. simpl.
    destruct (String.eqb key "$custom"); reflexivity.
Qed.

(** The answer to a send. When the response arrives its body is parsed;
    the parsed body is logged when [logResponse] is set and dropped
    otherwise. When the body does not parse, nothing is logged, whatever
    [logError] says: the rejection stays on the promise of the inner
    [then], the handler of the [catch] does not run and the promise of the
    [catch] is fulfilled. *)
Theorem response_is_logged_on_request event data m now res (o : settled) :
  exists s,
    play this
      [ICall (track this event data);
       IComplete 1 (FromNetwork (Fulfilled res));
       IComplete 4 (FromNetwork o)]
      (boot this m now) = Some s
    /\ trace s =
         [Issued 1 (RqFetch (eventRequest this event data));
          Completed 1 (Fulfilled res);
          Issued 4 (RqJson res);
          Completed 4 o]
         ++ match o with
            | Fulfilled json =>
                if truthyB (logResponse (this_config this))
                then [Logged json] else []
            | Rejected _ => []
            end
    /\ promises s !! 3 = Some (Settled (Fulfilled VUndefined))
    /\ promises s !! 5
       = Some (Settled match o with
                       | Fulfilled _ => Fulfilled VUndefined
                       | Rejected e => Rejected e
                       end)
    /\ pending s = [] /\ jobs s = [].
Proof.
  unfold boot.
  destruct o as [json|e];
    destruct (truthyB (logResponse (this_config this))) eqn:E;
    play_with ltac:(try unfold onJsonThen; rewrite ?E);
    (eexists; repeat split; reflexivity).
Qed.
End Events.
End Events.

(** * Counting a device once per period *)

Module Recount.

Import Machine.

(** Linear arithmetic with divisions by constants. *)
Ltac dlia := Z.div_mod_to_equations; lia.

(** The first day of the month of a day is the day minus its day of the
    month, less one. *)
Lemma civil_month_start z :
  let '(y, m, d) := DateFns.civil_from_days z in
  1 <= d /\ 1 <= m <= 12 /\ DateFns.days_from_civil y m 1 = z - (d - 1).
Proof.
  unfold DateFns.civil_from_days, DateFns.days_from_civil.
  set (z' := z + 719468).
  set (era := z' / 146097).
  set (doe := z' - era * 146097).
  assert (Hdoe : 0 <= doe < 146097) by (subst doe era; dlia).
  assert (Hz : z = era * 146097 + doe - 719468) by (subst doe z'; lia).
  clearbody doe era. clear z'.
  set (yoe := (doe - doe / 1460 + doe / 36524 - doe / 146096) / 365).
  assert (Hyoe : 0 <= yoe <= 399) by (subst yoe; dlia).
  set (doy := doe - (365 * yoe + yoe / 4 - yoe / 100)).
  assert (Hdoy : 0 <= doy <= 365) by (subst doy yoe; dlia).
  assert (Hera : (yoe + era * 400) / 400 = era) by dlia.
  clearbody yoe.
  set (mp := (5 * doy + 2) / 153).
  assert (Hmp : 0 <= mp <= 11) by (subst mp; dlia).
  assert (Hd : (153 * mp + 2) / 5 <= doy) by (subst mp; dlia).
  clearbody mp.
  destruct (Z.ltb_spec mp 10).
  - destruct (Z.leb_spec (mp + 3) 2); [lia|].
    destruct (Z.ltb_spec 2 (mp + 3)); [|lia].
    replace (mp + 3 - 3) with mp by lia.
    rewrite Hera.
    split; [lia|]. split; [lia|]. subst doy. dlia.
  - destruct (Z.leb_spec (mp - 9) 2); [|lia].
    destruct (Z.ltb_spec 2 (mp - 9)); [lia|].
    replace (mp - 9 + 9) with mp by lia.
    replace (yoe + era * 400 + 1 - 1) with (yoe + era * 400) by lia.
    rewrite Hera.
    split; [lia|]. split; [lia|]. subst doy. dlia.
Qed.

(** The first day of the year of a day is not after it. *)
Lemma civil_year_start z :
  let '(y, _, _) := DateFns.civil_from_days z in
  DateFns.days_from_civil y 1 1 <= z.
Proof.
  unfold DateFns.civil_from_days, DateFns.days_from_civil.
  set (z' := z + 719468).
  set (era := z' / 146097).
  set (doe := z' - era * 146097).
  assert (Hdoe : 0 <= doe < 146097) by (subst doe era; dlia).
  assert (Hz : z = era * 146097 + doe - 719468) by (subst doe z'; lia).
  clearbody doe era. clear z'.
  set (yoe := (doe - doe / 1460 + doe / 36524 - doe / 146096) / 365).
  assert (Hyoe : 0 <= yoe <= 399) by (subst yoe; dlia).
  set (doy := doe - (365 * yoe + yoe / 4 - yoe / 100)).
  assert (Hdoy : 0 <= doy <= 365) by (subst doy yoe; dlia).
  assert (Hdoe' : doe = 365 * yoe + yoe / 4 - yoe / 100 + doy) by (subst doy; lia).
  clearbody doy. clearbody yoe.
  set (mp := (5 * doy + 2) / 153).
  assert (Hmp : 0 <= mp <= 11) by (subst mp; dlia).
  assert (Hmd : mp < 10 \/ 306 <= doy) by (subst mp; dlia).
  clearbody mp.
  change (1 <=? 2) with true. change (2 <? 1) with false. cbv iota.
  destruct (Z.ltb_spec mp 10).
  - destruct (Z.leb_spec (mp + 3) 2); [lia|]. dlia.
  - destruct (Z.leb_spec (mp - 9) 2); [|lia]. dlia.
Qed.

Section Recount.
Context `{Host}.
Variable this : Lumin.

Let config := this_config this.

(** The local day on which the current day, week, month or year began. *)
Definition firstDay (p : period) (now : Z) : Z :=
  let today := DateFns.localDay tzOffset now in
  match p with
  | Daily => today
  | Weekly => today - DateFns.getDay tzOffset now
  | Monthly =>
      let '(y, m, _) := DateFns.civil_from_days today in
      DateFns.days_from_civil y m 1
  | Yearly =>
      let '(y, _, _) := DateFns.civil_from_days today in
      DateFns.days_from_civil y 1 1
  end.

Lemma boundary_firstDay p now :
  boundary p now = DateFns.midnight tzOffset (firstDay p now).
Proof.
  destruct p; unfold boundary, firstDay; cbv zeta.
  - reflexivity.
  - unfold DateFns.startOfWeek, DateFns.startOfWeekOn. cbv zeta.
    assert (0 <= DateFns.getDay tzOffset now) as Hd.
    { unfold DateFns.getDay. apply Z.mod_pos_bound. lia. }
    destruct (Z.ltb_spec (DateFns.getDay tzOffset now) 0); [lia|].
    f_equal. lia.
  - unfold DateFns.startOfMonth.
    destruct (DateFns.civil_from_days _) as [[y m] d]. reflexivity.
  - unfold DateFns.startOfYear.
    destruct (DateFns.civil_from_days _) as [[y m] d]. reflexivity.
Qed.

(** The period that holds an instant began on its day or before. *)
Lemma firstDay_le p now : firstDay p now <= DateFns.localDay tzOffset now.
Proof.
  destruct p; unfold firstDay; cbv zeta.
  - lia.
  - assert (0 <= DateFns.getDay tzOffset now) as Hd.
    { unfold DateFns.getDay. apply Z.mod_pos_bound. lia. }
    lia.
  - pose proof (civil_month_start (DateFns.localDay tzOffset now)) as Hm.
    destruct (DateFns.civil_from_days _) as [[y m] d]. lia.
  - pose proof (civil_year_start (DateFns.localDay tzOffset now)) as Hy.
    destruct (DateFns.civil_from_days _) as [[y m] d]. exact Hy.
Qed.

(** A date string keeps the day of its instant when the offset of local
    time is a whole number of seconds. *)
Lemma printed_before_midnight t0 d :
  (1000 | tzOffset) ->
  DateFns.isBefore (1000 * (t0 / 1000)) (DateFns.midnight tzOffset d)
  = (DateFns.localDay tzOffset t0 <? d).
Proof.
  intros [q Hq]. unfold DateFns.isBefore, DateFns.midnight, DateFns.localDay,
    DateFns.msPerDay. rewrite Hq.
  destruct (Z.ltb_spec ((t0 + q * 1000) / 86400000) d);
    destruct (Z.ltb_spec (1000 * (t0 / 1000)) (d * 86400000 - q * 1000));
    try reflexivity; exfalso; dlia.
Qed.

Lemma calendar_condition p now t0 :
  truthyN (intervalOf config p) = false ->
  (1000 | tzOffset) ->
  timeCondition this p now (dateToString t0)
  = (DateFns.localDay tzOffset t0 <? firstDay p now).
Proof.
  intros HI Htz. unfold timeCondition. rewrite dateParse_toString.
  fold config. rewrite HI, boundary_firstDay.
  apply printed_before_midnight, Htz.
Qed.

(** A check that finds a marker: it sends the event when [timeCondition]
    holds, and otherwise does nothing at all. *)
Lemma evaluate_marked p m now s :
  m !! markerKey this p = Some s ->
  JsString.nonempty s = true ->
  exists s1,
    Cadence.evaluate this p m now = Some s1
    /\ jobs s1 = []
    /\ store s1 = m
    /\ emissions s1 = (if timeCondition this p now s then [eventName p] else [])
    /\ (timeCondition this p now s = false -> pending s1 = []).
Proof.
  intros Hm Hs. unfold Cadence.evaluate.
  change (m !! markerKey this p)
    with (AsyncStorage.getItem (markerKey this p) m) in Hm.
  cbn. rewrite Hm. cbn. rewrite Hs. cbn.
  destruct (timeCondition this p now s); cbn;
    (eexists; repeat split; try reflexivity; discriminate).
Qed.

(** With no interval configured for the period (or the interval 0) and
    local time a whole number of seconds from UTC, a check that finds the
    marker the class wrote at [t0] counts the device again exactly when
    the local day of [t0] is before the first day of the current day, week
    (from Sunday), month or year. That first day is never after today: a
    device counted today is not counted again today, in any of the four
    periods, and such a check asks for nothing. *)
Theorem counted_once_per_period p m t0 now :
  truthyN (intervalOf config p) = false ->
  (1000 | tzOffset) ->
  m !! markerKey this p = Some (dateToString t0) ->
  exists s1,
    Cadence.evaluate this p m now = Some s1
    /\ (emitted (eventName p) s1
        <-> DateFns.localDay tzOffset t0 < firstDay p now)
    /\ firstDay p now <= DateFns.localDay tzOffset now
    /\ (DateFns.localDay tzOffset t0 = DateFns.localDay tzOffset now ->
        emissions s1 = [] /\ pending s1 = [] /\ store s1 = m).
Proof.
  intros HI Htz Hm.
  destruct (evaluate_marked p m now _ Hm (Session.nonempty_toString t0))
    as (s1 & Hev & Hj & Hst & Hem & Hpe).
  rewrite (calendar_condition p now t0 HI Htz) in Hem, Hpe.
  exists s1. split; [exact Hev|]. split; [|split; [apply firstDay_le|]].
  - rewrite (Cadence.emitted_iff p _ s1 Hem). apply Z.ltb_lt.
  - intros Hday. pose proof (firstDay_le p now) as Hle.
    destruct (Z.ltb_spec (DateFns.localDay tzOffset t0) (firstDay p now));
      [lia|].
    split; [exact Hem|]. split; [exact (Hpe eq_refl)|exact Hst].
Qed.

Lemma interval_condition p now t0 I :
  intervalOf config p = Some I -> I <> 0 -> t0 <= now ->
  timeCondition this p now (dateToString t0) = (I <? now / 1000 - t0 / 1000).
Proof.
  intros HI Hnz Hle. unfold timeCondition. rewrite dateParse_toString.
  fold config. rewrite HI. simpl.
  destruct (Z.eqb_spec I 0) as [|_]; [contradiction|]. simpl.
  unfold DateFns.differenceInSeconds.
  rewrite Z.quot_div_nonneg by dlia.
  f_equal. dlia.
Qed.

(** With an interval [I > 0] configured for the period, a check that
    finds the marker the class wrote at [t0] counts the device again
    exactly when the wall clock, read in whole seconds, has advanced by
    more than [I]. So it never counts again within [I] seconds of [t0], and
    always does once [I + 1] seconds have passed. *)
Theorem interval_rate_limit p m t0 now I :
  intervalOf config p = Some I ->
  0 < I ->
  t0 <= now ->
  m !! markerKey this p = Some (dateToString t0) ->
  exists s1,
    Cadence.evaluate this p m now = Some s1
    /\ (emitted (eventName p) s1 <-> I < now / 1000 - t0 / 1000)
    /\ (emitted (eventName p) s1 -> 1000 * I < now - t0)
    /\ (1000 * (I + 1) <= now - t0 -> emitted (eventName p) s1).
Proof.
  intros HI Hpos Hle Hm.
  destruct (evaluate_marked p m now _ Hm (Session.nonempty_toString t0))
    as (s1 & Hev & Hj & Hst & Hem & Hpe).
  rewrite (interval_condition p now t0 I HI ltac:(lia) Hle) in Hem.
  pose proof (Cadence.emitted_iff p _ s1 Hem) as Hiff.
  rewrite Z.ltb_lt in Hiff.
  exists s1. split; [exact Hev|]. split; [exact Hiff|]. split.
  - intros He. apply Hiff in He. dlia.
  - intros Hlong. apply Hiff. dlia.
Qed.

(** A marker that is not a date stops the period for good: whatever the
    configuration and the instant, the check sends nothing, asks for no
    write and leaves the store as it is, so the next check finds the same
    marker. *)
Theorem unreadable_marker_silences p m now s :
  m !! markerKey this p = Some s ->
  JsString.nonempty s = true ->
  dateParse s = None ->
  exists s1,
    Cadence.evaluate this p m now = Some s1
    /\ emissions s1 = []
    /\ pending s1 = []
    /\ jobs s1 = []
    /\ store s1 = m.
Proof.
  intros Hm Hs Hp.
  destruct (evaluate_marked p m now _ Hm Hs)
    as (s1 & Hev & Hj & Hst & Hem & Hpe).
  assert (timeCondition this p now s = false) as Hc.
  { unfold timeCondition. rewrite Hp. reflexivity. }
  rewrite Hc in Hem. exists s1. repeat split; auto.
Qed.
End Recount.

End Recount.

(** * The token and the storage keys *)

Module Keys.

(** The characters of a string. *)
Definition chars (s : string) : list Ascii.ascii :=
  Stdlib.Strings.String.list_ascii_of_string s.

Lemma list_ascii_app (a b : string) :
  chars (a +:+ b)
  = chars a ++ chars b.
Proof.
  unfold chars. induction a as [|c a IH]; simpl; [reflexivity|].
  rewrite IH. reflexivity.
Qed.

Lemma list_ascii_inj (a b : string) :
  chars a = chars b -> a = b.
Proof.
  unfold chars. intros Heq.
  rewrite <- (Stdlib.Strings.String.string_of_list_ascii_of_string a),
    <- (Stdlib.Strings.String.string_of_list_ascii_of_string b), Heq. reflexivity.
Qed.

(** Two keys are the same only when they are the same field of the same
    application id. *)
Ltac same_key :=
  lazymatch goal with
  | Heq : ?a +:+ ?s1 = ?b +:+ ?s2 |- _ =>
      apply (f_equal chars) in Heq;
      rewrite !list_ascii_app in Heq;
      first
        [ apply app_inv_tail in Heq; apply list_ascii_inj in Heq
        | apply (f_equal (@rev _)) in Heq;
          rewrite !rev_app_distr in Heq; unfold chars at 1 3 in Heq;
          simpl in Heq; discriminate Heq ]
  end.

Lemma key_of_one_id (a b : string) key :
  key ∈ allKeys (keysFor a) -> key ∈ allKeys (keysFor b) -> a = b.
Proof.
  unfold allKeys, keysFor. cbn [firstOpenTime endOfLastSession lastDauTracked
    lastWauTracked lastMauTracked lastYauTracked].
  rewrite !elem_of_cons, !elem_of_nil.
  intros Ha Hb.
  destruct Ha as [->|[->|[->|[->|[->|[->|[]]]]]]];
    destruct Hb as [Heq|[Heq|[Heq|[Heq|[Heq|[Heq|[]]]]]]];
    apply (FirstOpen.append_cancel "lumin_") in Heq;
    same_key; try exact Heq.
Qed.

(** A string of white space only. *)
Fixpoint allWhite (s : string) : bool :=
  match s with
  | EmptyString => true
  | String c r => JsString.is_white c && allWhite r
  end.

Lemma trimStart_white w x :
  allWhite w = true -> JsString.trimStart (w +:+ x) = JsString.trimStart x.
Proof.
  induction w as [|c w IH]; simpl; [reflexivity|].
  intros Hw. apply andb_prop in Hw as [Hc Hw]. rewrite Hc. exact (IH Hw).
Qed.

Lemma trimEnd_all_white w : allWhite w = true -> JsString.trimEnd w = EmptyString.
Proof.
  induction w as [|c w IH]; simpl; [reflexivity|].
  intros Hw. apply andb_prop in Hw as [Hc Hw]. rewrite (IH Hw), Hc. reflexivity.
Qed.

Lemma trimEnd_white x w :
  allWhite w = true -> JsString.trimEnd (x +:+ w) = JsString.trimEnd x.
Proof.
  intros Hw. induction x as [|c x IH]; simpl.
  - apply trimEnd_all_white, Hw.
  - rewrite IH. reflexivity.
Qed.

Lemma trimStart_all_white w :
  allWhite w = true -> JsString.trimStart w = EmptyString.
Proof.
  induction w as [|c w IH]; simpl; [reflexivity|].
  intros Hw. apply andb_prop in Hw as [Hc Hw]. rewrite Hc. exact (IH Hw).
Qed.

(** [trim] drops the white space around a string. *)
Lemma trim_white w x w' :
  allWhite w = true -> allWhite w' = true ->
  JsString.trim (w +:+ x +:+ w') = JsString.trim x.
Proof.
  intros Hw Hw'. unfold JsString.trim. rewrite (trimStart_white _ _ Hw).
  induction x as [|c x IH].
  - change (EmptyString +:+ w') with w'.
    rewrite (trimStart_all_white _ Hw'). reflexivity.
  - change (String c x +:+ w') with (String c (x +:+ w')).
    cbn [JsString.trimStart].
    destruct (JsString.is_white c); [exact IH|].
    change (String c (x +:+ w')) with (String c x +:+ w').
    apply trimEnd_white, Hw'.
Qed.

Section Keys.
Context `{Host}.

Lemma constructed_keys token cfg a t this :
  constructor token cfg a t = inr this ->
  this_asyncStorageKeys this = keysFor (this_id this).
Proof.
  unfold constructor. destruct (_ || _); [discriminate|].
  intros [= <-]. reflexivity.
Qed.

(** The six storage keys of an instance are pairwise different, and two
    instances built from tokens with different application ids share no
    key: neither reads, writes or deletes what the other stores. *)
Theorem storage_keys_separate token cfg a t this token' cfg' a' t' this' :
  constructor token cfg a t = inr this ->
  constructor token' cfg' a' t' = inr this' ->
  NoDup (allKeys (this_asyncStorageKeys this))
  /\ (this_id this <> this_id this' ->
      forall key,
        key ∈ allKeys (this_asyncStorageKeys this) ->
        key ∉ allKeys (this_asyncStorageKeys this')).
Proof.
  intros Hc Hc'.
  rewrite (constructed_keys _ _ _ _ _ Hc), (constructed_keys _ _ _ _ _ Hc').
  split; [apply FirstOpen.keysFor_distinct|].
  intros Hne key Hk Hk'. apply Hne. exact (key_of_one_id _ _ key Hk Hk').
Qed.

(** White space around the token does not count: the constructor takes
    a token with spaces, tabs or line ends before or after it exactly as it
    takes the token itself. *)
Theorem constructor_ignores_surrounding_space w token w' cfg a t :
  allWhite w = true ->
  allWhite w' = true ->
  constructor (w +:+ token +:+ w') cfg a t = constructor token cfg a t.
Proof.
  intros Hw Hw'. unfold constructor. rewrite (trim_white _ _ _ Hw Hw').
  reflexivity.
Qed.

End Keys.
End Keys.

(** * The trace is only written *)

Module Written.

Import Machine.

Local Open Scope nat_scope.

(** The state with [tr] put before its trace. *)
Definition prefixed (tr : list action) (s : state) : state :=
  let '(Build_state m t ps pd js tr' ls a st) := s in
  Build_state m t ps pd js (tr ++ tr') ls a st.

Section Written.
Variable tr : list action.

Lemma prefixed_alloc n s : prefixed tr (alloc n s) = alloc n (prefixed tr s).
Proof. destruct s. reflexivity. Qed.

Lemma prefixed_settle (p : pid) o s :
  prefixed tr (settle p o s) = settle p o (prefixed tr s).
Proof.
  destruct s as [m t ps pd js tr' ls a st]. unfold settle. simpl.
  destruct (ps !! p) as [[n rs|o']|]; reflexivity.
Qed.

Lemma prefixed_subscribe (p : pid) r s :
  prefixed tr (subscribe p r s) = subscribe p r (prefixed tr s).
Proof.
  destruct s as [m t ps pd js tr' ls a st]. unfold subscribe. simpl.
  destruct (ps !! p) as [[n rs|o']|]; reflexivity.
Qed.

Lemma prefixed_countdown (d : pid) s :
  prefixed tr (countdown d s) = countdown d (prefixed tr s).
Proof.
  destruct s as [m t ps pd js tr' ls a st]. unfold countdown, settle. simpl.
  destruct (ps !! d) as [[[|[|n]] rs|o']|] eqn:E; simpl; rewrite ?E;
    reflexivity.
Qed.

Lemma prefixed_record x s :
  prefixed tr (record x s) = record x (prefixed tr s).
Proof. destruct s. simpl. rewrite app_assoc. reflexivity. Qed.

Lemma prefixed_issue rq s : prefixed tr (issue rq s) = issue rq (prefixed tr s).
Proof. destruct s. unfold issue. simpl. rewrite app_assoc. reflexivity. Qed.

Lemma prefixed_fresh s : fresh (prefixed tr s) = fresh s.
Proof. destruct s. reflexivity. Qed.

Lemma prefixed_subscribe_all (d : pid) (l : list pid) : forall s,
  prefixed tr (foldl (fun s' p => subscribe p (RAll d) s') s l)
  = foldl (fun s' p => subscribe p (RAll d) s') (prefixed tr s) l.
Proof.
  induction l as [|p l IH]; intros s; [reflexivity|].
  simpl. rewrite IH, prefixed_subscribe. reflexivity.
Qed.

Lemma prefixed_exec c : forall (fr : pid) s,
  prefixed tr (exec c fr s) = exec c fr (prefixed tr s).
Proof.
  induction c as [v|e|k IH|k IH|a k IH|k IH|t k IH|rq k IH|p f g k IH
                 |l k IH|p h|body IHb k IH|v k IH|h k IH]; intros fr s.
  - rewrite !FirstOpen.exec_Return. apply prefixed_settle.
  - rewrite !FirstOpen.exec_Throw. apply prefixed_settle.
  - rewrite !FirstOpen.exec_NewDate, IH. destruct s. reflexivity.
  - rewrite !FirstOpen.exec_ReadAppState, IH. destruct s. reflexivity.
  - rewrite !FirstOpen.exec_WriteAppState, IH. destruct s. reflexivity.
  - rewrite !FirstOpen.exec_ReadSessionStartTime, IH. destruct s. reflexivity.
  - rewrite !FirstOpen.exec_WriteSessionStartTime, IH. destruct s. reflexivity.
  - rewrite !FirstOpen.exec_Issue, IH, prefixed_issue, prefixed_fresh.
    reflexivity.
  - rewrite !FirstOpen.exec_Then, IH, prefixed_subscribe, prefixed_alloc,
      prefixed_fresh. reflexivity.
  - rewrite !FirstOpen.exec_PromiseAll. cbv zeta. rewrite IH, prefixed_fresh.
    destruct l; [rewrite prefixed_settle|];
      rewrite prefixed_subscribe_all, prefixed_alloc; reflexivity.
  - rewrite !FirstOpen.exec_Await. apply prefixed_subscribe.
  - rewrite !FirstOpen.exec_Async, IH, IHb, prefixed_alloc, prefixed_fresh.
    reflexivity.
  - rewrite !FirstOpen.exec_ConsoleLog, IH, prefixed_record. reflexivity.
  - rewrite !FirstOpen.exec_AddEventListener, IH. destruct s. reflexivity.
Qed.

Lemma prefixed_call c s : prefixed tr (call c s) = call c (prefixed tr s).
Proof.
  unfold call. rewrite prefixed_exec, prefixed_alloc, prefixed_fresh.
  reflexivity.
Qed.

Context `{Host}.
Variable this : Lumin.

Lemma prefixed_run_job j s :
  prefixed tr (run_job this j s) = run_job this j (prefixed tr s).
Proof.
  destruct j as [[[h|] [h'|] d|h fr|d] [v|e]]; cbn [run_job];
    first [apply prefixed_exec|apply prefixed_settle|apply prefixed_countdown].
Qed.

Lemma prefixed_complete (p : pid) a s :
  complete p a (prefixed tr s) = prefixed tr <$> complete p a s.
Proof.
  destruct s as [m t ps pd js tr' ls a0 st]. unfold complete. simpl.
  destruct (take_request p pd) as [[rq rest]|]; [|reflexivity].
  destruct rq, a; simpl; try reflexivity;
    rewrite prefixed_settle; simpl; rewrite app_assoc; reflexivity.
Qed.

Lemma prefixed_listeners next (l : list kont) : forall s,
  prefixed tr (foldl (fun s' h => call (handler this h (VAppState next)) s') s l)
  = foldl (fun s' h => call (handler this h (VAppState next)) s')
      (prefixed tr s) l.
Proof.
  induction l as [|h l IH]; intros s; [reflexivity|].
  simpl. rewrite IH, prefixed_call. reflexivity.
Qed.

Lemma prefixed_step i s :
  step this i (prefixed tr s) = prefixed tr <$> step this i s.
Proof.
  unfold step.
  assert (jobs (prefixed tr s) = jobs s) as -> by (destruct s; reflexivity).
  destruct i as [|p a|ms|next|c], (jobs s) as [|j js] eqn:Hj; try reflexivity.
  - simpl. rewrite prefixed_run_job. destruct s. reflexivity.
  - apply prefixed_complete.
  - destruct s. reflexivity.
  - simpl. unfold signal. rewrite prefixed_listeners. destruct s. reflexivity.
  - simpl. rewrite prefixed_call. reflexivity.
Qed.

Lemma prefixed_drain fuel : forall s,
  drain this fuel (prefixed tr s) = prefixed tr (drain this fuel s).
Proof.
  induction fuel as [|n IH]; intros s; [reflexivity|].
  simpl. assert (jobs (prefixed tr s) = jobs s) as -> by (destruct s; reflexivity).
  destruct (jobs s) as [|j js]; [reflexivity|].
  rewrite <- IH, prefixed_run_job. destruct s. reflexivity.
Qed.

Lemma prefixed_macro i s :
  macro this i (prefixed tr s) = prefixed tr <$> macro this i s.
Proof.
  unfold macro. rewrite prefixed_step.
  destruct (step this i s) as [s1|]; [|reflexivity].
  cbn [fmap option_fmap option_map]. rewrite prefixed_drain. reflexivity.
Qed.

(** What a process does does not depend on what it has done before as far
    as the trace tells: the trace is only added to. *)
Lemma prefixed_play ins : forall s,
  play this ins (prefixed tr s) = prefixed tr <$> play this ins s.
Proof.
  induction ins as [|i ins IH]; intros s; [reflexivity|].
  simpl. rewrite prefixed_macro.
  destruct (macro this i s) as [s1|]; [|reflexivity].
  simpl. apply IH.
Qed.

Lemma events_prefixed s :
  events (prefixed tr s)
  = omap (fun a => req_body <$> fetchOf a) tr ++ events s.
Proof. destruct s. unfold events. simpl. apply omap_app. Qed.

End Written.
End Written.

(** * The reset, whatever order the deletes complete in *)

Module ResetOrder.

Import Machine.

Local Open Scope nat_scope.

Lemma drain_idle `{Host} (this : Lumin) fuel s :
  jobs s = [] -> drain this fuel s = s.
Proof. intros Hj. destruct fuel; simpl; rewrite ?Hj; reflexivity. Qed.

Lemma drain_job `{Host} (this : Lumin) fuel j js s :
  jobs s = j :: js ->
  drain this (S fuel) s = drain this fuel (run_job this j (with_jobs js s)).
Proof. intros Hj. simpl. rewrite Hj. reflexivity. Qed.

Lemma take_request_found (p : pid) pd :
  p ∈ pd.*1 -> exists rq rest, take_request p pd = Some (rq, rest).
Proof.
  induction pd as [|[q rq] pd IH]; simpl; intros Hp.
  - apply elem_of_nil in Hp. destruct Hp.
  - destruct (Nat.eqb p q) eqn:E; [eauto|].
    apply elem_of_cons in Hp as [->|Hp];
      [rewrite Nat.eqb_refl in E; discriminate|].
    destruct (IH Hp) as (rq' & rest & ->). eauto.
Qed.

Section ResetOrder.
Context `{Host}.
Variable this : Lumin.

Let keys := this_asyncStorageKeys this.

(** The six deletes, with the promises they get in a new process. *)
Definition deletes : list (pid * request) :=
  zip [1; 2; 3; 4; 5; 6] (RqRemoveItem <$> allKeys keys).

(** The promise of [Promise.all] and the one of the call. *)
Definition all : pid := 7.
Definition returned : pid := 0.

(** A process launched at [now] on store [m] that has called the reset
    and nothing else, between two completions: the deletes that are
    outstanding wait with [Promise.all] behind them, [Promise.all] counts
    them, the keys of those that are done are gone, and nothing else has
    changed. *)
Record between (m : gmap string string) (now : Z) (s : state) : Prop := {
  b_jobs : jobs s = [];
  b_sub : sublist (pending s) deletes;
  b_waiting : forall p rq, (p, rq) ∈ pending s ->
      promises s !! p = Some (Pending 0 [RAll all]);
  b_counting : pending s <> [] ->
      promises s !! all
      = Some (Pending (length (pending s)) [RAwait KClearDone returned])
      /\ promises s !! returned = Some (Pending 0 []);
  b_done : pending s = [] ->
      promises s !! returned = Some (Settled (Fulfilled VUndefined));
  b_other : forall key, key ∉ allKeys keys -> store s !! key = m !! key;
  b_gone : forall p key,
      (p, RqRemoveItem key) ∈ deletes -> (p, RqRemoveItem key) ∉ pending s ->
      store s !! key = None;
  b_events : events s = [];
  b_frame : clock s = now
            /\ length (promises s) = 8
            /\ listeners s = []
            /\ cur_appState s = this_appState this
            /\ cur_sessionStartTime s = this_sessionStartTime this;
}.

Lemma deletes_pids : deletes.*1 = [1; 2; 3; 4; 5; 6].
Proof. reflexivity. Qed.

Lemma deletes_NoDup : NoDup deletes.*1.
Proof. rewrite deletes_pids. apply NoDup_ListNoDup. repeat constructor; simpl; lia. Qed.

Lemma deletes_are_deletes p rq :
  (p, rq) ∈ deletes ->
  (exists key, rq = RqRemoveItem key /\ key ∈ allKeys keys)
  /\ p <> all /\ p <> returned.
Proof.
  unfold deletes, allKeys. cbn [fmap list_fmap zip zip_with]. intros Hin.
  repeat (apply elem_of_cons in Hin as [[= -> ->]|Hin];
          [split; [eexists; split; [reflexivity|set_solver]
                  |unfold all, returned; lia]|]).
  apply elem_of_nil in Hin. destruct Hin.
Qed.

Lemma every_key_deleted key :
  key ∈ allKeys keys -> exists p, (p, RqRemoveItem key) ∈ deletes.
Proof.
  unfold deletes, allKeys. cbn [fmap list_fmap zip zip_with]. intros Hin.
  repeat (apply elem_of_cons in Hin as [->|Hin]);
    [exists 1|exists 2|exists 3|exists 4|exists 5|exists 6
    |apply elem_of_nil in Hin; destruct Hin];
    set_solver.
Qed.

(** The call itself. *)
Lemma called m now :
  between m now (call (clearLuminItemsFromAsyncStorage this) (boot this m now))
  /\ pending (call (clearLuminItemsFromAsyncStorage this) (boot this m now))
     = deletes.
Proof.
  split; [|reflexivity]. split.
  - reflexivity.
  - change (sublist deletes deletes). reflexivity.
  - intros p rq Hin.
    change (pending _) with deletes in Hin.
    unfold deletes, allKeys in Hin. cbn [fmap list_fmap zip zip_with] in Hin.
    repeat (apply elem_of_cons in Hin as [[= -> ->]|Hin]; [reflexivity|]).
    apply elem_of_nil in Hin. destruct Hin.
  - intros _. split; reflexivity.
  - intros Hp. change (pending _) with deletes in Hp. discriminate Hp.
  - intros key Hk. reflexivity.
  - intros p key Hin Hout. contradiction.
  - reflexivity.
  - repeat split; reflexivity.
Qed.

(** One delete completes, and the microtasks it causes run. *)
Lemma one_more m now s (p : pid) :
  between m now s -> p ∈ (pending s).*1 ->
  exists s',
    macro this (IComplete p FromStore) s = Some s'
    /\ between m now s'
    /\ forall q, q ∈ (pending s').*1 <-> q ∈ (pending s).*1 /\ q <> p.
Proof.
  intros [Hj Hsub Hw Hcount _ Hoth Hgone Hev Hfr] Hp.
  destruct (take_request_found p _ Hp) as (rq & rest & Htake).
  destruct (FirstOpen.take_request_split _ _ _ _ Htake)
    as (l1 & l2 & Hpd & ->).
  assert (NoDup (pending s).*1) as Hnd.
  { eapply sublist_NoDup; [exact deletes_NoDup|apply fmap_sublist, Hsub]. }
  assert ((p, rq) ∈ pending s) as Hin
    by (rewrite Hpd; apply elem_of_app; right; left).
  assert ((p, rq) ∈ deletes) as Hin' by (eapply elem_of_sublist; eassumption).
  destruct (deletes_are_deletes _ _ Hin') as ((key & -> & Hkey) & Hp7 & Hp0).
  assert (p ∉ (l1 ++ l2).*1) as Hfresh.
  { rewrite Hpd, fmap_app, fmap_cons in Hnd. simpl in Hnd.
    apply NoDup_app in Hnd as (_ & H12 & Hnd2).
    apply NoDup_cons in Hnd2 as [Hp2 _].
    rewrite fmap_app. intros [H1|H2]%elem_of_app; [|contradiction].
    apply (H12 _ H1). left. }
  pose proof (Hw _ _ Hin) as Hwp.
  destruct (Hcount ltac:(intros E; rewrite E in Hin; apply elem_of_nil in Hin;
                          exact Hin)) as [H7 H0].
  assert (length (pending s) = S (length (l1 ++ l2))) as Hlen.
  { rewrite Hpd, !length_app. simpl. lia. }
  rewrite Hlen in H7.
  assert (sublist (l1 ++ l2) deletes) as Hsub'.
  { etransitivity; [|exact Hsub]. rewrite Hpd.
    apply sublist_app; [reflexivity|]. apply sublist_cons. reflexivity. }
  unfold events in Hev.
  destruct s as [m0 t ps pd js tr ls a st]. simpl in * |-. subst js.
  assert (forall q,
            q ∈ (l1 ++ l2).*1 <-> q ∈ pd.*1 /\ q <> p) as Hrest.
  { intros q. rewrite Hpd, !fmap_app, fmap_cons. simpl.
    rewrite !elem_of_app, elem_of_cons. split.
    - intros Hq. split; [tauto|]. intros ->. apply Hfresh.
      rewrite fmap_app, elem_of_app. exact Hq.
    - tauto. }
  assert (forall q rq', (q, rq') ∈ l1 ++ l2 -> q <> p /\ (q, rq') ∈ pd) as Hin12.
  { intros q rq' Hq. split.
    - intros ->. apply Hfresh.
      exact (list_elem_of_fmap_2 fst _ _ Hq).
    - rewrite Hpd. rewrite elem_of_app, elem_of_cons.
      apply elem_of_app in Hq. tauto. }
  assert (forall q key',
            (q, RqRemoveItem key') ∈ deletes ->
            (q, RqRemoveItem key') ∉ l1 ++ l2 ->
            delete key m0 !! key' = None) as Hgone'.
  { intros q key' Hd Hout. destruct (decide (key = key')) as [->|Hne];
      [apply lookup_delete_eq|].
    rewrite lookup_delete_ne by exact Hne. apply (Hgone q); [exact Hd|].
    rewrite Hpd. intros Hq.
    apply Hout. rewrite elem_of_app.
    apply elem_of_app in Hq as [Hq|Hq]; [left; exact Hq|].
    apply elem_of_cons in Hq as [[= -> ->]|Hq]; [contradiction|right; exact Hq]. }
  assert (forall key', key' ∉ allKeys keys -> delete key m0 !! key' = m !! key')
    as Hoth'.
  { intros key' Hk. rewrite lookup_delete_ne; [exact (Hoth _ Hk)|].
    intros ->. contradiction. }
  assert (omap (fun a => req_body <$> fetchOf a)
            (tr ++ [Completed p (Fulfilled VNull)]) = []) as Hev'.
  { rewrite omap_app, Hev. reflexivity. }
  unfold macro, step. cbn [jobs]. unfold complete. cbn [pending].
  rewrite Htake.
  cbn [perform with_pending with_store store record fmap option_fmap option_map].
  unfold settle at 1. cbn [promises]. unfold pid in *. rewrite Hwp.
  cbn [with_promises with_jobs jobs map app].
  erewrite drain_job by reflexivity.
  cbn [run_job with_jobs]. unfold countdown. cbn [promises]. unfold pid in *.
  rewrite list_lookup_insert_ne by exact Hp7.
  rewrite H7.
  destruct (length (l1 ++ l2)) as [|n] eqn:Hn.
  - (* the last one *)
    apply length_zero_iff_nil in Hn.
    unfold settle at 1. cbn [promises]. unfold pid in *.
    rewrite list_lookup_insert_ne by exact Hp7.
    rewrite H7. cbn [with_promises with_jobs jobs map app].
    erewrite drain_job by reflexivity.
    cbn [run_job with_jobs handler]. unfold Done.
    rewrite FirstOpen.exec_Return. unfold settle. cbn [promises].
    unfold pid in *.
    rewrite list_lookup_insert_ne by (unfold all, returned; lia).
    rewrite list_lookup_insert_ne by exact Hp0.
    rewrite H0. cbn [with_promises with_jobs jobs map app].
    rewrite drain_idle by reflexivity.
    eexists. split; [reflexivity|]. split; [|exact Hrest].
    rewrite Hn in *.
    split; simpl; try assumption; try reflexivity.
    + intros q rq' Hq. apply elem_of_nil in Hq. destruct Hq.
    + intros Hne. contradiction.
    + intros _. apply list_lookup_insert_eq.
      rewrite !length_insert. apply lookup_lt_Some in H0. exact H0.
    + rewrite !length_insert. exact Hfr.
  - rewrite drain_idle by reflexivity.
    eexists. split; [reflexivity|]. split; [|exact Hrest].
    split; simpl; try assumption; try reflexivity.
    + intros q rq' Hq. destruct (Hin12 _ _ Hq) as [Hqp Hq'].
      destruct (deletes_are_deletes q rq' (elem_of_sublist _ _ _ Hq Hsub'))
        as (_ & Hq7 & _).
      rewrite list_lookup_insert_ne by (symmetry; exact Hq7).
      rewrite list_lookup_insert_ne by (symmetry; exact Hqp).
      exact (Hw _ _ Hq').
    + intros _. unfold pid in *. rewrite Hn. split.
      * apply list_lookup_insert_eq. rewrite length_insert.
        apply lookup_lt_Some in H7. exact H7.
      * rewrite list_lookup_insert_ne by (unfold all, returned; lia).
        rewrite list_lookup_insert_ne
          by exact Hp0.
        exact H0.
    + intros Hnil. unfold pid in *. rewrite Hnil in Hn. discriminate Hn.
    + rewrite !length_insert. exact Hfr.
Qed.

Definition completions (l : list pid) : list input :=
  (fun p => IComplete p FromStore) <$> l.

(** Some of the deletes complete, each once, in some order. *)
Lemma some_more m now (l : list pid) : forall s,
  between m now s -> NoDup l -> (forall p, p ∈ l -> p ∈ (pending s).*1) ->
  exists s',
    play this (completions l) s = Some s'
    /\ between m now s'
    /\ forall q, q ∈ (pending s').*1 <-> q ∈ (pending s).*1 /\ q ∉ l.
Proof.
  induction l as [|p l IH]; intros s Hs Hnd Hl.
  - exists s. split; [reflexivity|]. split; [exact Hs|].
    intros q. rewrite elem_of_nil. tauto.
  - apply NoDup_cons in Hnd as [Hp Hnd].
    destruct (one_more m now s p Hs (Hl p ltac:(left)))
      as (s1 & Hm & Hs1 & Hq1).
    destruct (IH s1 Hs1 Hnd) as (s' & Hplay & Hs' & Hq').
    { intros q Hq. apply Hq1. split; [apply Hl; right; exact Hq|].
      intros ->. contradiction. }
    exists s'. split; [|split; [exact Hs'|]].
    + cbn [completions fmap list_fmap play]. rewrite Hm. exact Hplay.
    + intros q. rewrite Hq', Hq1, elem_of_cons.
      destruct (decide (q = p)); tauto.
Qed.

(** The first [k] deletes of [order] complete after the call. *)
Lemma some_done m now (order : list pid) (k : nat) :
  order ≡ₚ [1; 2; 3; 4; 5; 6] ->
  exists s,
    play this
      (ICall (clearLuminItemsFromAsyncStorage this)
       :: completions (take k order))
      (boot this m now) = Some s
    /\ between m now s
    /\ (forall p, p ∈ (pending s).*1 <-> p ∈ drop k order)
    /\ (forall p key,
          (p, RqRemoveItem key) ∈ deletes -> p ∈ take k order ->
          store s !! key = None).
Proof.
  intros Hperm.
  assert (NoDup order) as Hnd.
  { rewrite Hperm. apply NoDup_ListNoDup. repeat constructor; simpl; lia. }
  destruct (called m now) as [Hs0 Hp0].
  set (s0 := call (clearLuminItemsFromAsyncStorage this) (boot this m now))
    in Hs0, Hp0.
  assert (macro this (ICall (clearLuminItemsFromAsyncStorage this))
            (boot this m now) = Some s0) as Hcall.
  { reflexivity. }
  assert (NoDup (take k order)) as Hndk.
  { rewrite <- (take_drop k order) in Hnd. apply NoDup_app in Hnd. tauto. }
  assert (forall p, p ∈ take k order -> p ∉ drop k order) as Hsplit.
  { rewrite <- (take_drop k order) in Hnd. apply NoDup_app in Hnd.
    destruct Hnd as (_ & Hd & _). exact Hd. }
  assert (forall p, p ∈ order <-> p ∈ (pending s0).*1) as Hall.
  { intros p. rewrite Hp0, deletes_pids, Hperm. reflexivity. }
  destruct (some_more m now (take k order) s0 Hs0 Hndk)
    as (s & Hplay & Hs & Hq).
  { intros p Hp. apply Hall. rewrite <- (take_drop k order).
    apply elem_of_app. left. exact Hp. }
  assert (forall p, p ∈ (pending s).*1 <-> p ∈ drop k order) as Hleft.
  { intros p. rewrite Hq, <- Hall. rewrite <- (take_drop k order) at 1.
    rewrite elem_of_app. split; [tauto|]. intros Hp.
    split; [right; exact Hp|]. intros Hp'. exact (Hsplit _ Hp' Hp). }
  exists s. split; [cbn [play]; rewrite Hcall; exact Hplay|].
  split; [exact Hs|]. split; [exact Hleft|].
  intros p key Hd Hp. apply (b_gone _ _ _ Hs p key Hd). intros Hin.
  apply (Hsplit _ Hp), Hleft.
  exact (list_elem_of_fmap_2 fst _ _ Hin).
Qed.

(** While one of the six is outstanding the promise of the call is
    pending; once none is, it is fulfilled and the six keys are gone. *)
Lemma returned_pending m now s (order : list pid) (k : nat) :
  length order = 6 ->
  between m now s ->
  (forall p, p ∈ (pending s).*1 <-> p ∈ drop k order) ->
  promises s !! returned
  = Some (if decide (k < 6) then Pending 0 []
          else Settled (Fulfilled VUndefined)).
Proof.
  intros Hlen Hs Hleft. destruct (decide (k < 6)) as [Hk|Hk].
  - apply (b_counting _ _ _ Hs). intros Hnil.
    assert (length (drop k order) <> 0) as Hne
      by (rewrite length_drop; lia).
    destruct (drop k order) as [|p l] eqn:Hdrop; [contradiction|].
    assert (p ∈ (pending s).*1) as Hp by (apply Hleft; left).
    rewrite Hnil in Hp. apply elem_of_nil in Hp. exact Hp.
  - apply (b_done _ _ _ Hs).
    destruct (pending s) as [|[p rq] l] eqn:Hpd; [reflexivity|].
    assert (p ∈ drop k order) as Hp by (apply Hleft; left).
    rewrite drop_ge in Hp by lia. apply elem_of_nil in Hp. destruct Hp.
Qed.

Lemma all_done m now s :
  between m now s -> pending s = [] ->
  forall key,
    store s !! key = if bool_decide (key ∈ allKeys keys) then None
                     else m !! key.
Proof.
  intros Hs Hnil key. case_bool_decide as Hkey.
  - destruct (every_key_deleted key Hkey) as [p Hd].
    apply (b_gone _ _ _ Hs p key Hd). rewrite Hnil. apply not_elem_of_nil.
  - exact (b_other _ _ _ Hs key Hkey).
Qed.

(** The call to [clearLuminItemsFromAsyncStorage] asks for the six
    deletes, and they may complete in any order: after the first [k] of
    them in the order [order], the others are still outstanding, the key
    of each one that is done is gone, and the promise the call returned is
    pending as long as one delete is outstanding and fulfilled once the
    sixth is done, when none of the six keys is left. The other keys of
    the store keep their values and nothing is sent. *)
Theorem reset_in_any_order m now (order : list pid) (k : nat) :
  order ≡ₚ [1; 2; 3; 4; 5; 6] ->
  exists s,
    play this
      (ICall (clearLuminItemsFromAsyncStorage this)
       :: completions (take k order))
      (boot this m now) = Some s
    /\ jobs s = []
    /\ (forall p, p ∈ (pending s).*1 <-> p ∈ drop k order)
    /\ promises s !! returned
       = Some (if decide (k < 6) then Pending 0 []
               else Settled (Fulfilled VUndefined))
    /\ (forall p key,
          (p, RqRemoveItem key) ∈ deletes -> p ∈ take k order ->
          store s !! key = None)
    /\ (6 <= k -> forall key, key ∈ allKeys keys -> store s !! key = None)
    /\ (forall key, key ∉ allKeys keys -> store s !! key = m !! key)
    /\ events s = [].
Proof.
  intros Hperm.
  assert (length order = 6) as Hlen by (rewrite Hperm; reflexivity).
  destruct (some_done m now order k Hperm) as (s & Hplay & Hs & Hleft & Hgone).
  exists s. split; [exact Hplay|].
  split; [exact (b_jobs _ _ _ Hs)|]. split; [exact Hleft|].
  split; [exact (returned_pending m now s order k Hlen Hs Hleft)|].
  split; [exact Hgone|].
  split; [|split; [exact (b_other _ _ _ Hs)|exact (b_events _ _ _ Hs)]].
  intros Hk key Hkey. destruct (every_key_deleted key Hkey) as [p Hd].
  apply (Hgone p key Hd). rewrite take_ge by lia.
  rewrite Hperm. rewrite <- deletes_pids.
  exact (list_elem_of_fmap_2 fst _ _ Hd).
Qed.

(** One delete fails: the error goes through [Promise.all] and the
    [await] to the promise of the call, at once, while the other deletes
    are outstanding. *)
Lemma one_fails m now s (p : pid) (e : val) :
  between m now s -> p ∈ (pending s).*1 ->
  exists s',
    macro this (IComplete p (StoreFails e)) s = Some s'
    /\ promises s' !! returned = Some (Settled (Rejected e))
    /\ promises s' !! all = Some (Settled (Rejected e))
    /\ (forall q, q ∈ (pending s').*1 <-> q ∈ (pending s).*1 /\ q <> p)
    /\ jobs s' = []
    /\ store s' = store s
    /\ events s' = []
    /\ cur_appState s' = this_appState this
    /\ cur_sessionStartTime s' = this_sessionStartTime this.
Proof.
  intros [Hj Hsub Hw Hcount _ Hoth Hgone Hev Hfr] Hp.
  destruct (take_request_found p _ Hp) as (rq & rest & Htake).
  destruct (FirstOpen.take_request_split _ _ _ _ Htake)
    as (l1 & l2 & Hpd & ->).
  assert (NoDup (pending s).*1) as Hnd.
  { eapply sublist_NoDup; [exact deletes_NoDup|apply fmap_sublist, Hsub]. }
  assert ((p, rq) ∈ pending s) as Hin
    by (rewrite Hpd; apply elem_of_app; right; left).
  assert ((p, rq) ∈ deletes) as Hin' by (eapply elem_of_sublist; eassumption).
  destruct (deletes_are_deletes _ _ Hin') as ((key & -> & Hkey) & Hp7 & Hp0).
  assert (p ∉ (l1 ++ l2).*1) as Hfresh.
  { rewrite Hpd, fmap_app, fmap_cons in Hnd. simpl in Hnd.
    apply NoDup_app in Hnd as (_ & H12 & Hnd2).
    apply NoDup_cons in Hnd2 as [Hp2 _].
    rewrite fmap_app. intros [H1|H2]%elem_of_app; [|contradiction].
    apply (H12 _ H1). left. }
  pose proof (Hw _ _ Hin) as Hwp.
  destruct (Hcount ltac:(intros E; rewrite E in Hin; apply elem_of_nil in Hin;
                          exact Hin)) as [H7 H0].
  unfold events in Hev.
  destruct s as [m0 t ps pd js tr ls a st]. simpl in * |-. subst js.
  assert (forall q,
            q ∈ (l1 ++ l2).*1 <-> q ∈ pd.*1 /\ q <> p) as Hrest.
  { intros q. rewrite Hpd, !fmap_app, fmap_cons. simpl.
    rewrite !elem_of_app, elem_of_cons. split.
    - intros Hq. split; [tauto|]. intros ->. apply Hfresh.
      rewrite fmap_app, elem_of_app. exact Hq.
    - tauto. }
  assert (omap (fun a => req_body <$> fetchOf a)
            (tr ++ [Completed p (Rejected e)]) = []) as Hev'.
  { rewrite omap_app, Hev. reflexivity. }
  unfold macro, step. cbn [jobs]. unfold complete. cbn [pending].
  rewrite Htake.
  cbn [perform with_pending with_store store record fmap option_fmap option_map].
  unfold settle at 1. cbn [promises]. unfold pid in *. rewrite Hwp.
  cbn [with_promises with_jobs jobs map app].
  erewrite drain_job by reflexivity.
  cbn [run_job with_jobs]. unfold settle at 1. cbn [promises]. unfold pid in *.
  rewrite list_lookup_insert_ne by exact Hp7.
  rewrite H7. cbn [with_promises with_jobs jobs map app].
  erewrite drain_job by reflexivity.
  cbn [run_job with_jobs]. unfold settle. cbn [promises]. unfold pid in *.
  rewrite list_lookup_insert_ne by (unfold all, returned; lia).
  rewrite list_lookup_insert_ne by exact Hp0.
  rewrite H0. cbn [with_promises with_jobs jobs map app].
  rewrite drain_idle by reflexivity.
  eexists. split; [reflexivity|]. simpl.
  split.
  { apply list_lookup_insert_eq. rewrite !length_insert.
    apply lookup_lt_Some in H0. exact H0. }
  split.
  { rewrite list_lookup_insert_ne by (unfold all, returned; lia).
    apply list_lookup_insert_eq. rewrite !length_insert.
    apply lookup_lt_Some in H7. exact H7. }
  split; [exact Hrest|]. split; [reflexivity|]. split; [reflexivity|].
  split; [exact Hev'|]. split; apply Hfr.
Qed.

(** A cadence evaluation in the process that has called the reset: the
    four checks are started and their reads are answered. *)
Definition evaluation : list input :=
  [ICall (trackActiveUser this Done);
   IComplete 10 FromStore; IComplete 12 FromStore;
   IComplete 14 FromStore; IComplete 16 FromStore].

(** The same in a process of its own. *)
Definition freshEvaluation : list input :=
  [ICall (trackActiveUser this Done);
   IComplete 2 FromStore; IComplete 4 FromStore;
   IComplete 6 FromStore; IComplete 8 FromStore].

Lemma evaluation_after m now s :
  between m now s -> pending s = [] ->
  exists s',
    play this evaluation s = Some s'
    /\ events s' = Reset.cadenceEvents this.
Proof.
  intros Hs Hnil.
  pose proof (all_done m now s Hs Hnil) as Hst.
  assert (forall p, AsyncStorage.getItem (markerKey this p) (store s) = None)
    as Hm.
  { intros p. unfold AsyncStorage.getItem. rewrite Hst.
    rewrite bool_decide_eq_true_2; [reflexivity|].
    apply Reset.marker_in_allKeys. }
  destruct Hs as [Hj _ _ _ _ _ _ Hev (Hc & Hlen & Hl & Ha & Hstart)].
  unfold events in Hev.
  destruct s as [m0 t ps pd js tr ls a st]. simpl in * |-. subst.
  do 9 (destruct ps as [|? ps]; try discriminate Hlen). clear Hlen.
  pose proof (Hm Daily) as Hd. pose proof (Hm Weekly) as Hw.
  pose proof (Hm Monthly) as Hmo. pose proof (Hm Yearly) as Hy.
  match goal with
  | |- context [Build_state m0 now ?ps [] [] tr [] ?a ?st] =>
      assert (exists s1,
                play this evaluation (Build_state m0 now ps [] [] [] [] a st)
                = Some s1
                /\ events s1 = Reset.cadenceEvents this)
        as (s1 & Hs1 & Hev1);
      [|replace (Build_state m0 now ps [] [] tr [] a st)
          with (Written.prefixed tr (Build_state m0 now ps [] [] [] [] a st))
          by (simpl; rewrite app_nil_r; reflexivity)]
  end.
  { unfold evaluation.
    play_with ltac:(rewrite ?Hd, ?Hw, ?Hmo, ?Hy).
    eexists. split; reflexivity. }
  rewrite Written.prefixed_play, Hs1.
  eexists. split; [reflexivity|].
  rewrite Written.events_prefixed, Hev, Hev1. reflexivity.
Qed.


End ResetOrder.

(** "Waits for all deletes to settle": when the promise of the reset is
    no longer pending, none of its deletes is outstanding. *)
Definition waitsClaim `{Host} (this : Lumin) (m : gmap string string)
    (now : Z) (ins : list input) : Prop :=
  forall s,
    play this (ICall (clearLuminItemsFromAsyncStorage this) :: ins)
      (boot this m now) = Some s ->
    isPending returned s = false -> pending s = [].


(** The reset called in a process whose [init] has its writes
    outstanding: [init] has read the store, found nothing, and asked for
    the writes of the first-open time and of the four markers; the reset
    is called, its six deletes succeed and its promise is fulfilled while
    the five writes are outstanding. *)
Definition duringInit (this : Lumin) : list input :=
  [ICall (init this);
   IComplete 1 FromStore; IComplete 4 FromStore; IComplete 6 FromStore;
   IComplete 8 FromStore; IComplete 10 FromStore; IComplete 12 FromStore;
   ICall (clearLuminItemsFromAsyncStorage this)]
  ++ completions [47; 48; 49; 50; 51; 52].

Definition writesOutstanding (s : state) : list string :=
  omap (fun d => match d.2 with RqSetItem key _ => Some key | _ => None end)
       (pending s).

(** The writes land after the reset: the store holds the first-open time
    and the four markers again, and a cadence evaluation sends nothing.
    The reset is as good as a fresh install only in a process that has
    no write outstanding. *)
Example reset_during_init :
  let this := ExampleHost.lumin emptyConfig in
  let keys := this_asyncStorageKeys this in
  let landed := duringInit this ++ completions [13; 23; 29; 35; 41] in
  let evaluated :=
    landed ++ ICall (trackActiveUser this Done)
              :: completions [56; 58; 60; 62] in
  exists s s' s'',
    @play ExampleHost.host this (duringInit this) (boot this ∅ 0) = Some s
    /\ promises s !! 46 = Some (Settled (Fulfilled VUndefined))
    /\ writesOutstanding s
       = [firstOpenTime keys; lastDauTracked keys; lastWauTracked keys;
          lastMauTracked keys; lastYauTracked keys]
    /\ store s = ∅
    /\ @play ExampleHost.host this landed (boot this ∅ 0) = Some s'
    /\ (fun key => store s' !! key) <$> allKeys keys
       = (let written := Some (@dateToString ExampleHost.host 0) in
          [written; None; written; written; written; written])
    /\ @play ExampleHost.host this evaluated (boot this ∅ 0) = Some s''
    /\ emissions s'' = emissions s'.
Proof.
  vm_compute. do 3 eexists.
  split; [reflexivity|]. split; [reflexivity|]. split; [reflexivity|].
  split; [reflexivity|]. split; [reflexivity|]. split; [reflexivity|].
  split; reflexivity.
Qed.

End ResetOrder.

(** * Reading the first-open time back, and the reset *)

Module Readback.

Import Machine.

Section Readback.
Context `{Host}.
Variable this : Lumin.
Hypothesis keys_distinct : NoDup (allKeys (this_asyncStorageKeys this)).

Let k := firstOpenTime (this_asyncStorageKeys this).

(** A [Date] object, as what its [getTime()] answers: the time value of
    the instant, or [NaN] for an Invalid Date. *)
Definition dateObject (s : string) : val :=
  VObj [("getTime",
         match dateParse s with Some t => VNum t | None => VNaN end)].

(** The callback of [getFirstOpenTime()]; [getItem] resolves with a string
    or with [null]. *)
Definition onGetFirstOpenTime (firstOpenTime : val) : val :=
  match firstOpenTime with
  | VStr s => if JsString.nonempty s then dateObject s else VNull
  | _ => VNull
  end.

(** What the promise of [getFirstOpenTime()] resolves with when the store
    that answers the read holds [m]. *)
Definition getFirstOpenTime (m : gmap string string) : val :=
  onGetFirstOpenTime
    (match AsyncStorage.getItem k m with Some v => VStr v | None => VNull end).

Lemma getFirstOpenTime_lookup m m' :
  m' !! k = m !! k -> getFirstOpenTime m' = getFirstOpenTime m.
Proof.
  unfold getFirstOpenTime, AsyncStorage.getItem. intros ->. reflexivity.
Qed.

Lemma getFirstOpenTime_written m t :
  m !! k = Some (dateToString t) ->
  getFirstOpenTime m = VObj [("getTime", VNum (1000 * (t / 1000)))].
Proof.
  unfold getFirstOpenTime, AsyncStorage.getItem. intros ->. simpl.
  rewrite Session.nonempty_toString. unfold dateObject.
  rewrite dateParse_toString. reflexivity.
Qed.

(** [getFirstOpenTime()] answers [null] as long as the key holds nothing
    (or the empty string). After a launch on such a store that has run
    its check to the end, under any schedule, it answers a valid [Date]:
    an instant of that launch, to the second. After a launch that found a
    marker it answers what it answered before: once set, the first-open
    time does not change from launch to launch. *)
Theorem first_open_time_reads_back m t ins s :
  Forall (FirstOpen.allowed this) ins ->
  run this ins (FirstOpen.launched this m t) = Some s ->
  if FirstOpen.marked this m
  then getFirstOpenTime (store s) = getFirstOpenTime m
  else
    getFirstOpenTime m = VNull
    /\ (FirstOpen.idle s = true ->
        exists t', t <= t' <= clock s
          /\ getFirstOpenTime (store s)
             = VObj [("getTime", VNum (1000 * (t' / 1000)))]).
Proof.
  intros Hins Hrun.
  pose proof (FirstOpen.launch_outcome this keys_distinct m t ins s Hins Hrun)
    as Hout.
  unfold FirstOpen.outcome in Hout.
  destruct (FirstOpen.marked this m) eqn:Hm.
  - destruct Hout as (_ & _ & Hs). exact (getFirstOpenTime_lookup _ _ Hs).
  - split.
    + unfold FirstOpen.marked in Hm. unfold getFirstOpenTime,
        AsyncStorage.getItem. fold k in Hm |- *.
      destruct (m !! k) as [v|]; [|reflexivity]. simpl. rewrite Hm.
      reflexivity.
    + intros Hidle.
      destruct Hout as [(_ & _ & _ & Hb)|(_ & w & f & t' & Ht & _ & Hw)];
        [congruence|].
      exists t'. split; [exact Ht|].
      destruct (FirstOpen.writing this s).
      * destruct Hw as [_ Hb]. congruence.
      * exact (getFirstOpenTime_written _ _ Hw).
Qed.

(** The reset makes the installation new for the first-open check too.
    A process calls [clearLuminItemsFromAsyncStorage()] and nothing else,
    and its six deletes succeed, in whatever order: the promise of the
    call is then fulfilled, and whatever the store held, a launch on the
    store it leaves that runs its check to the end, under any schedule the
    store carries out, sends FIRST_OPEN once more and writes a new
    first-open time. (A reset called while a write of [init] is
    outstanding is another matter: [ResetOrder.reset_during_init].) *)
Theorem reset_brings_first_open_back m now (order : list pid) :
  order ≡ₚ [1; 2; 3; 4; 5; 6]%nat ->
  exists s6,
    play this
      (ICall (clearLuminItemsFromAsyncStorage this)
       :: ResetOrder.completions order)
      (boot this m now) = Some s6
    /\ promises s6 !! ResetOrder.returned = Some (Settled (Fulfilled VUndefined))
    /\ pending s6 = []
    /\ forall t ins s,
         Forall (FirstOpen.allowed this) ins ->
         run this ins (FirstOpen.launched this (store s6) t) = Some s ->
         FirstOpen.idle s = true ->
         FirstOpen.firstOpens s = 1%nat
         /\ exists t', t <= t' <= clock s
              /\ store s !! k = Some (dateToString t').
Proof.
  intros Hperm.
  assert (length order = 6%nat) as Hlen
    by (apply Permutation_length in Hperm; exact Hperm).
  destruct (ResetOrder.some_done this m now order 6 Hperm)
    as (s6 & Hs6 & Hb & Hleft & _).
  rewrite take_ge in Hs6 by lia.
  assert (pending s6 = []) as Hnil.
  { destruct (pending s6) as [|[p rq] l] eqn:Hpd; [reflexivity|].
    assert (p ∈ drop 6 order) as Hp by (apply Hleft; left).
    rewrite drop_ge in Hp by lia. apply elem_of_nil in Hp. destruct Hp. }
  exists s6. split; [exact Hs6|].
  split; [exact (ResetOrder.b_done this _ _ _ Hb Hnil)|].
  split; [exact Hnil|].
  intros t ins s Hins Hrun Hidle.
  pose proof (FirstOpen.launch_outcome this keys_distinct _ t ins s Hins Hrun)
    as Hout.
  unfold FirstOpen.outcome, FirstOpen.marked in Hout.
  assert (store s6 !! k = None) as Hk.
  { rewrite (ResetOrder.all_done this m now s6 Hb Hnil).
    rewrite bool_decide_eq_true_2; [reflexivity|]. apply list_elem_of_here. }
  fold k in Hout. rewrite Hk in Hout.
  destruct Hout as [(_ & _ & _ & Hb')|(H1 & w & f & t' & Ht & _ & Hw)];
    [congruence|].
  split; [exact H1|]. exists t'. split; [exact Ht|].
  destruct (FirstOpen.writing this s); [|exact Hw].
  destruct Hw as [_ Hb']. congruence.
Qed.

End Readback.
End Readback.

(** * Sessions through the lifecycle *)

Module Sessions.

Import Machine.

Section Sessions.
Context `{Host}.
Variable this : Lumin.

Let key := endOfLastSession (this_asyncStorageKeys this).

(** What is stored as the end of the last session need not be a date: the
    session starts all the same. With the empty string SESSION_START
    carries [null], as if nothing were stored; with any other string that
    is not a date it carries [NaN] (which [JSON.stringify] writes as
    [null]). *)
Theorem session_start_with_unreadable_end m t0 d s :
  m !! key = Some s ->
  dateParse s = None ->
  exists s1,
    play this [ICall (startSession this); ITick d; IComplete 1 FromStore]
      (boot this m t0) = Some s1
    /\ cur_sessionStartTime s1 = t0
    /\ events s1
       = [Session.startEvent this
            (if JsString.nonempty s then VNaN else VNull)].
Proof.
  intros Hm Hp. unfold boot. subst key.
  change (AsyncStorage.getItem (endOfLastSession (this_asyncStorageKeys this)) m
          = Some s) in Hm.
  destruct (JsString.nonempty s) eqn:Hs;
    play_with ltac:(rewrite ?Hm; rewrite ?Hs);
    (eexists; split; [reflexivity|]; split; [reflexivity|]);
    simpl; unfold secondsSince; rewrite ?Hp; reflexivity.
Qed.

Lemma whole_seconds_between t (d : N) :
  DateFns.differenceInSeconds (t + Z.of_N d) t = Z.of_N d / 1000.
Proof.
  unfold DateFns.differenceInSeconds.
  replace (t + Z.of_N d - t) with (Z.of_N d) by lia.
  apply Z.quot_div_nonneg; lia.
Qed.

Lemma whole_seconds_since_printed t (d : N) :
  DateFns.differenceInSeconds (t + Z.of_N d) (1000 * (t / 1000))
  = (t + Z.of_N d) / 1000 - t / 1000.
Proof.
  unfold DateFns.differenceInSeconds.
  rewrite Z.quot_div_nonneg by (Z.div_mod_to_equations; lia).
  Z.div_mod_to_equations; lia.
Qed.

(** The write of the session end and the read of the next start, by the
    number the process gives them; the cadence checks of [init()] and of
    the return to the foreground take numbers too. *)
Definition endWrite : pid :=
  if truthyB (automaticallyTrackActiveUsers (this_config this)) then 18%nat
  else 10%nat.

Definition startRead : pid :=
  if truthyB (automaticallyTrackActiveUsers (this_config this)) then 29%nat
  else 13%nat.

(** SESSION_END as it goes out, property by property: the platform
    record, then [duration]. *)
Definition endEvent (duration : val) : EventRecord :=
  {| ev_type := "SESSION_END";
     ev_data := [("$info", infoObject this); ("duration", duration)];
     ev_environment := environment (this_config this);
     ev_appToken := this_token this |}.


End Sessions.
End Sessions.

(** * The properties on the example host *)

Module OnExampleHost.

Import Machine.

Definition eh : Host := ExampleHost.host.
Definition plain : Lumin := ExampleHost.lumin emptyConfig.
Definition optedOut : Lumin := ExampleHost.lumin FirstOpen.flagOff.

Lemma plain_keys_distinct : NoDup (allKeys (this_asyncStorageKeys plain)).
Proof. exact (FirstOpen.keysFor_distinct "abc"). Qed.

(** A process in which [init()] was called twice, sent to the
    background. *)
Definition twice : state := call (init plain) (call (init plain) (boot plain ∅ 0)).

Lemma listener_transitions_witness :
  listeners twice = replicate 2 KListener
  /\ Lifecycle.issued (@signal eh plain background twice)
     = Lifecycle.issued twice
       ++ @Lifecycle.onChange eh plain (cur_appState twice) background
            (clock twice) (cur_sessionStartTime twice).
Proof.
  split; [reflexivity|].
  apply (@Lifecycle.listener_transitions eh plain background 1 twice).
  reflexivity.
Defined.

(** A launch, a custom event and a reset. *)
Definition busyDay : list input :=
  [ICall (init optedOut); IComplete 1 FromStore; IJob;
   ICall (trackCustomEvent optedOut "tap" []);
   IComplete 5 FromStore;
   ICall (clearLuminItemsFromAsyncStorage optedOut);
   IComplete 16 FromStore].

Lemma requests_are_own_witness :
  exists s,
    @run eh optedOut busyDay (boot optedOut {["other" := "kept"]} 0) = Some s
    /\ store s !! "other" = Some "kept".
Proof.
  eexists. split; [vm_compute; reflexivity|].
  match goal with
  | |- store ?s !! _ = _ =>
      destruct (@Footprint.requests_are_own eh optedOut {["other" := "kept"]} 0
                  busyDay s) as (_ & Hout & _)
  end.
  - unfold busyDay.
    repeat (apply List.Forall_cons; [|]); try apply List.Forall_nil;
      try exact I.
    + exists Footprint.Minit. reflexivity.
    + exists (Footprint.MtrackCustomEvent "tap" []). reflexivity.
    + exists Footprint.MclearLuminItemsFromAsyncStorage. reflexivity.
  - vm_compute. reflexivity.
  - rewrite Hout; [reflexivity|]. vm_compute.
    intros Hin. repeat (apply elem_of_cons in Hin as [Hin|Hin];
                        [discriminate Hin|]).
    apply elem_of_nil in Hin. exact Hin.
Defined.

Lemma nothing_deleted_without_reset_witness :
  exists s,
    @run eh optedOut (take 5 busyDay) (boot optedOut {["other" := "kept"]} 0) = Some s
    /\ is_Some (store s !! "other").
Proof.
  eexists. split; [vm_compute; reflexivity|].
  match goal with
  | |- is_Some (store ?s !! _) =>
      destruct (@Footprint.nothing_deleted_without_reset eh optedOut
                  {["other" := "kept"]} 0 (take 5 busyDay) s) as (_ & Hkeep)
  end.
  - unfold busyDay. cbn [take].
    repeat (apply List.Forall_cons; [|]); try apply List.Forall_nil;
      try exact I.
    + exists Footprint.Minit. split; reflexivity.
    + exists (Footprint.MtrackCustomEvent "tap" []). split; reflexivity.
  - vm_compute. reflexivity.
  - apply Hkeep. eexists. vm_compute. reflexivity.
Defined.

Lemma custom_event_data_witness :
  NoDup [("screen", VStr "home")].*1
  /\ exists r,
       Lifecycle.issued
         (call (trackCustomEvent plain "tap" [("screen", VStr "home")])
            (boot plain ∅ 0))
       = [RqFetch r]
       /\ obj_get "screen" (ev_data (req_body r)) = Some (VStr "home")
       /\ obj_get "$custom" (ev_data (req_body r)) = Some (VBool true).
Proof.
  assert (NoDup [("screen", VStr "home")].*1) as Hnd by apply NoDup_singleton.
  split; [exact Hnd|].
  destruct (@Events.custom_event_data plain "tap" [("screen", VStr "home")]
              (boot plain ∅ 0) Hnd) as (r & Hr & _ & Hdata).
  exists r. split; [exact Hr|]. split; apply Hdata.
Defined.

(** Counted at noon, checked again in the evening. *)
Lemma counted_once_per_period_witness :
  exists s1,
    @Cadence.evaluate eh plain Daily
      {[markerKey plain Daily := @dateToString eh (ExampleHost.noon 1)]}
      (ExampleHost.noon 1 + 21600000) = Some s1
    /\ emissions s1 = [].
Proof.
  destruct (@Recount.counted_once_per_period eh plain Daily
              {[markerKey plain Daily := @dateToString eh (ExampleHost.noon 1)]}
              (ExampleHost.noon 1) (ExampleHost.noon 1 + 21600000))
    as (s1 & Hs1 & _ & _ & Hsame).
  - reflexivity.
  - exists 0. reflexivity.
  - apply lookup_singleton_eq.
  - exists s1. split; [exact Hs1|]. apply Hsame. reflexivity.
Defined.

(** An interval of one hour, checked after half an hour. *)
Lemma interval_rate_limit_witness :
  exists s1,
    @Cadence.evaluate eh (ExampleHost.lumin (ExampleHost.dailyInterval 3600))
      Daily
      {[markerKey plain Daily := @dateToString eh (ExampleHost.noon 1)]}
      (ExampleHost.noon 1 + 1800000) = Some s1
    /\ ~ emitted "DAILY_ACTIVE_USER" s1.
Proof.
  destruct (@Recount.interval_rate_limit eh
              (ExampleHost.lumin (ExampleHost.dailyInterval 3600)) Daily
              {[markerKey plain Daily := @dateToString eh (ExampleHost.noon 1)]}
              (ExampleHost.noon 1) (ExampleHost.noon 1 + 1800000) 3600)
    as (s1 & Hs1 & _ & Hsoon & _).
  - reflexivity.
  - reflexivity.
  - unfold ExampleHost.noon. lia.
  - apply lookup_singleton_eq.
  - exists s1. split; [exact Hs1|]. intros He. apply Hsoon in He.
    unfold ExampleHost.noon in He. lia.
Defined.

Lemma unreadable_marker_silences_witness :
  exists s1,
    @Cadence.evaluate eh plain Weekly {[markerKey plain Weekly := "yesterday"]}
      (ExampleHost.noon 1) = Some s1
    /\ emissions s1 = []
    /\ store s1 = {[markerKey plain Weekly := "yesterday"]}.
Proof.
  destruct (@Recount.unreadable_marker_silences eh plain Weekly
              {[markerKey plain Weekly := "yesterday"]} (ExampleHost.noon 1)
              "yesterday") as (s1 & Hs1 & He & _ & _ & Hst).
  - apply lookup_singleton_eq.
  - reflexivity.
  - reflexivity.
  - exists s1. split; [exact Hs1|]. split; assumption.
Defined.

Lemma storage_keys_separate_witness :
  exists other,
    @constructor eh "xyz:def" emptyConfig active 0 = inr other
    /\ "lumin_abc_first_open_time" ∉ allKeys (this_asyncStorageKeys other).
Proof.
  eexists. split; [reflexivity|].
  refine (proj2 (@Keys.storage_keys_separate eh
                   "abc:def" emptyConfig active 0 plain
                   "xyz:def" emptyConfig active 0 _ eq_refl eq_refl) _ _ _).
  - discriminate.
  - apply list_elem_of_here.
Defined.

Lemma constructor_ignores_surrounding_space_witness :
  @constructor eh (" " +:+ "abc:def" +:+ String (Ascii.ascii_of_nat 10) EmptyString)
    emptyConfig active 0
  = inr plain.
Proof.
  rewrite (@Keys.constructor_ignores_surrounding_space eh " " "abc:def"
             (String (Ascii.ascii_of_nat 10) EmptyString) emptyConfig active 0);
    reflexivity.
Defined.

(** A launch followed until nothing is left to do. *)
Definition toTheEnd : list input :=
  [IComplete 1 FromStore; IJob; IComplete 4 FromStore; IJob;
   IComplete 5 FromStore].

Lemma first_open_time_reads_back_witness :
  exists s,
    @run eh optedOut toTheEnd (FirstOpen.launched optedOut ∅ (ExampleHost.noon 1))
    = Some s
    /\ @Readback.getFirstOpenTime eh optedOut ∅ = VNull
    /\ exists t', ExampleHost.noon 1 <= t' <= clock s
         /\ @Readback.getFirstOpenTime eh optedOut (store s)
            = VObj [("getTime", VNum (1000 * (t' / 1000)))].
Proof.
  assert (exists s,
            @run eh optedOut toTheEnd
              (FirstOpen.launched optedOut ∅ (ExampleHost.noon 1)) = Some s
            /\ FirstOpen.idle s = true) as (s & Hrun & Hidle).
  { eexists. split; vm_compute; reflexivity. }
  exists s. split; [exact Hrun|].
  assert (Forall (FirstOpen.allowed optedOut) toTheEnd) as Hins.
  { repeat (apply List.Forall_cons; [exact I|]). apply List.Forall_nil. }
  pose proof (@Readback.first_open_time_reads_back eh optedOut
                plain_keys_distinct ∅ (ExampleHost.noon 1) toTheEnd s
                Hins Hrun) as Hback.
  change (FirstOpen.marked optedOut ∅) with false in Hback. cbv iota in Hback.
  destruct Hback as [Hnull Hdate].
  split; [exact Hnull|exact (Hdate Hidle)].
Defined.

(** The six deletes complete in another order than they were asked for. *)
Definition shuffled : list pid := [3; 1; 6; 2; 5; 4]%nat.

Lemma reset_brings_first_open_back_witness :
  shuffled ≡ₚ [1; 2; 3; 4; 5; 6]%nat
  /\ exists s6,
       @play eh optedOut
         (ICall (clearLuminItemsFromAsyncStorage optedOut)
          :: ResetOrder.completions shuffled)
         (boot optedOut
            {[firstOpenTime (this_asyncStorageKeys optedOut) := "+1"]} 0)
       = Some s6
       /\ promises s6 !! 0%nat = Some (Settled (Fulfilled VUndefined))
       /\ store s6 !! firstOpenTime (this_asyncStorageKeys optedOut) = None.
Proof.
  assert (shuffled ≡ₚ [1; 2; 3; 4; 5; 6]%nat) as Hperm
    by (unfold shuffled; solve_Permutation).
  split; [exact Hperm|].
  destruct (@Readback.reset_brings_first_open_back eh optedOut
              plain_keys_distinct
              {[firstOpenTime (this_asyncStorageKeys optedOut) := "+1"]} 0
              shuffled Hperm)
    as (s6 & Hs6 & Hret & _).
  exists s6. split; [exact Hs6|]. split; [exact Hret|].
  vm_compute in Hs6. injection Hs6 as <-. vm_compute. reflexivity.
Defined.

Lemma session_start_with_unreadable_end_witness :
  exists s1,
    @play eh plain [ICall (@startSession plain); ITick 10;
                    IComplete 1 FromStore]
      (boot plain {[endOfLastSession (this_asyncStorageKeys plain) := "never"]}
         0) = Some s1
    /\ events s1 = [@Session.startEvent plain VNaN].
Proof.
  destruct (@Sessions.session_start_with_unreadable_end eh plain
              {[endOfLastSession (this_asyncStorageKeys plain) := "never"]}
              0 10 "never") as (s1 & Hs1 & _ & Hev).
  - apply lookup_singleton_eq.
  - reflexivity.
  - exists s1. split; assumption.
Defined.


Lemma opting_out_stops_the_counts_witness :
  exists s,
    @run eh optedOut busyDay (boot optedOut {["other" := "kept"]} 0) = Some s
    /\ Forall (Footprint.sparing optedOut busyDay) (Lifecycle.issued s)
    /\ Footprint.spared optedOut {["other" := "kept"]} (store s).
Proof.
  eexists. split; [vm_compute; reflexivity|].
  apply (@Footprint.opting_out_stops_the_counts eh optedOut
           {["other" := "kept"]} 0 busyDay).
  - reflexivity.
  - unfold busyDay.
    repeat (apply List.Forall_cons; [|]); try apply List.Forall_nil;
      try exact I.
    + exists Footprint.Minit. split; reflexivity.
    + exists (Footprint.MtrackCustomEvent "tap" []). split; reflexivity.
    + exists Footprint.MclearLuminItemsFromAsyncStorage. split; reflexivity.
  - vm_compute. reflexivity.
Defined.

Lemma reset_in_any_order_witness :
  shuffled ≡ₚ [1; 2; 3; 4; 5; 6]%nat
  /\ exists s,
       @play eh plain
         (ICall (clearLuminItemsFromAsyncStorage plain)
          :: ResetOrder.completions (take 6 shuffled))
         (boot plain {["other" := "kept"]} 0) = Some s
       /\ promises s !! 0%nat = Some (Settled (Fulfilled VUndefined))
       /\ store s = {["other" := "kept"]}.
Proof.
  assert (shuffled ≡ₚ [1; 2; 3; 4; 5; 6]%nat) as Hperm
    by (unfold shuffled; solve_Permutation).
  split; [exact Hperm|].
  destruct (@ResetOrder.reset_in_any_order eh plain {["other" := "kept"]} 0
              shuffled 6 Hperm) as (s & Hplay & _ & _ & Hret & _).
  exists s. split; [exact Hplay|]. split; [exact Hret|].
  vm_compute in Hplay. injection Hplay as <-. vm_compute. reflexivity.
Defined.


End OnExampleHost.
